(** * web-coloring: line art, flood fill, the pan/zoom viewport and the music

    A shallow embedding of
      - the line-art module that [CanvasEditor.js] imports as
        [../utils/image_processing] (in this tree it is the second part of
        [src/services/audio_manager.js]): [createHighQualityLineArt],
        [processLineArt] and its stages [toGrayscale], [applyGaussianBlur],
        [applySobelEdgeDetection], [applyThreshold] and [applyDilation], and
        [extractColors];
      - [src/components/CanvasEditor.js]: [isLineBoundary], [floodFill],
        [fitToScreen], [handleWheel], [getCoords], [handleStart],
        [handleMove], [handleEnd];
      - the [AudioManager] of [src/services/audio_manager.js], and the
        statements of [initApp] in [src/main.js] that restore the music of a
        saved session.

    Conventions.
      - A [Uint8ClampedArray] is a [list Z] of values in 0..255; indices are
        JS numbers, here [Z]. A read out of range is [None] (JS [undefined]);
        a write out of range is dropped, and a written value is clamped to
        0..255 (a fractional value is first rounded to the nearest integer,
        ties to even).
      - The luminance and the convolutions of the line-art module are
        computed in binary64, as JS does.
      - Viewport arithmetic (zoom, pan, pointer positions) and the volume
        of the music are exact, over [Q]: rounding errors, infinities and
        [NaN] are not modelled, except for the point that [getCoords]
        computes, which is [None] when a coordinate is not finite. *)

From Stdlib Require Import ZArith QArith Qminmax Qround Lia Lqa Floats Ascii.
From stdpp Require Import base list strings.

Set Warnings "-inexact-float".

Local Open Scope Z_scope.

(* ================================================================= *)
(** ** Typed arrays *)

Definition clamp8 (v : Z) : Z := Z.max 0 (Z.min 255 v).

(** [d[i]] *)
Definition rd (d : list Z) (i : Z) : option Z :=
  if (i <? 0) then None else d !! Z.to_nat i.

(** [d[i] = v] *)
Definition wr (d : list Z) (i : Z) (v : Z) : list Z :=
  if (i <? 0) then d else <[Z.to_nat i := clamp8 v]> d.

(** [for (k = lo; k <= hi; k++)] *)
Definition zrange (lo hi : Z) : list Z :=
  (fun k : nat => lo + Z.of_nat k) <$> seq 0 (Z.to_nat (hi - lo + 1)).

(* ================================================================= *)
(** ** Line-art processing *)

(** A channel read used as a JS number; [undefined] coerces to [NaN]. *)
Definition to_number (o : option Z) : float :=
  match o with
  | Some v => PrimFloat.of_uint63 (Uint63.of_Z v)
  | None => nan
  end.

(** [0.299 * data[i] + 0.587 * data[i + 1] + 0.114 * data[i + 2]] *)
Definition brightness (data : list Z) (i : Z) : float :=
  (0.299 * to_number (rd data i) + 0.587 * to_number (rd data (i + 1))
   + 0.114 * to_number (rd data (i + 2)))%float.

(** [brightness < threshold ? 0 : 255] *)
Definition binary_of (threshold : float) (b : float) : Z :=
  if PrimFloat.ltb b threshold then 0 else 255.

(** Body of the loop of step 1 of [createHighQualityLineArt]. *)
Definition binarize_step (threshold : float) (data : list Z) (i : Z) : list Z :=
  let binary := binary_of threshold (brightness data i) in
  let data := wr data i binary in
  let data := wr data (i + 1) binary in
  let data := wr data (i + 2) binary in
  wr data (i + 3) 255.

(** The values of [i] in [for (let i = 0; i < data.length; i += 4)]. *)
Definition pixel_offsets (len : nat) : list Z :=
  (fun k : nat => 4 * Z.of_nat k) <$> seq 0 (Nat.div (len + 3) 4).

(** Step 1: convert to pure binary. *)
Definition binarize (threshold : float) (data : list Z) : list Z :=
  foldl (binarize_step threshold) data (pixel_offsets (length data)).

(** The circular kernel, in the order in which the offsets are pushed
    ([dy] outer, [dx] inner). An offset is the pair [(dx, dy)]. *)
Definition disk_kernel (radius : Z) : list (Z * Z) :=
  dy ← zrange (- radius) radius;
  dx ← zrange (- radius) radius;
  if bool_decide (dx * dx + dy * dy ≤ radius * radius) then [(dx, dy)] else [].

(** [nx >= 0 && nx < width && ny >= 0 && ny < height] *)
Definition in_image (width height nx ny : Z) : bool :=
  (0 <=? nx) && (nx <? width) && (0 <=? ny) && (ny <? height).

(** The writes that make pixel [nIdx] black. [createHighQualityLineArt] sets
    the three colour channels; [applyDilation] ([alpha = true]) also sets
    [output[nIdx + 3] = 255]. *)
Definition blacken (alpha : bool) (output : list Z) (nIdx : Z) : list Z :=
  let output := wr output nIdx 0 in
  let output := wr output (nIdx + 1) 0 in
  let output := wr output (nIdx + 2) 0 in
  if alpha then wr output (nIdx + 3) 255 else output.

(** Body of [for (const { dx, dy } of kernel)] at the pixel [(x, y)]. *)
Definition spread (alpha : bool) (width height x y : Z)
    (output : list Z) (k : Z * Z) : list Z :=
  let nx := (x + k.1) in
  let ny := (y + k.2) in
  if in_image width height nx ny
  then blacken alpha output ((ny * width + nx) * 4)
  else output.

(** [data[idx] === 0] *)
Definition is_black (data : list Z) (idx : Z) : bool :=
  bool_decide (rd data idx = Some 0).

(** Body of the two scan loops at [(x, y)]: the test reads the input [data],
    the writes go to [output]. *)
Definition dilate_pixel (alpha : bool) (width height : Z)
    (kernel : list (Z * Z)) (data output : list Z) (p : Z * Z) : list Z :=
  let idx := ((p.2 * width + p.1) * 4) in
  if is_black data idx
  then foldl (spread alpha width height p.1 p.2) output kernel
  else output.

(** The pixels in the order of [for y ... for x ...]. *)
Definition scan_order (width height : Z) : list (Z * Z) :=
  y ← zrange 0 (height - 1);
  x ← zrange 0 (width - 1);
  [(x, y)].

(** Dilation along an arbitrary visiting order of the pixels: [output] starts
    as a copy of [data] and is copied back at the end. *)
Definition dilate_along (order : list (Z * Z)) (alpha : bool)
    (width height radius : Z) (data : list Z) : list Z :=
  foldl (dilate_pixel alpha width height (disk_kernel radius) data) data order.

(** Step 2 of [createHighQualityLineArt] ([alpha = false]) and
    [applyDilation] ([alpha = true]). *)
Definition dilate (alpha : bool) (width height radius : Z) (data : list Z) : list Z :=
  dilate_along (scan_order width height) alpha width height radius data.

Definition applyDilation := dilate true.

(** [createHighQualityLineArt(img, { threshold, dilationRadius })], from the
    decoded pixels of [img] to [boundaryData]. *)
Definition createHighQualityLineArt (width height : Z) (pixels : list Z)
    (threshold : float) (dilationRadius : Z) : list Z :=
  let data := binarize threshold pixels in
  if (0 <? dilationRadius)
  then dilate false width height dilationRadius data
  else data.

(* ================================================================= *)
(** ** The editor state *)

Inductive Mode := brush | fill | pan | eraser.

Inductive PointerType := mouse | touch | pen.

#[global] Instance Mode_eq_dec : EqDecision Mode.
Proof. solve_decision. Defined.

#[global] Instance PointerType_eq_dec : EqDecision PointerType.
Proof. solve_decision. Defined.

(** A colour string [#rrggbb], held as the three numbers that
    [parseInt(fillColor.slice(1, 3), 16)] and its two siblings read from it
    (each in 0..255 for two hex digits). *)
Record Color := { red : Z; green : Z; blue : Z }.

Definition valid_color (c : Color) : Prop :=
  (0 <= red c <= 255) /\ (0 <= green c <= 255) /\ (0 <= blue c <= 255).

(** [#FFFFFF] *)
Definition white : Color := {| red := 255; green := 255; blue := 255 |}.

(** What a [getBoundingClientRect()] call returns. *)
Record Rect := { left : Q; top : Q; rwidth : Q; rheight : Q }.

(** [pointerdown] / [pointermove] event, with the bounding rectangle of the
    canvas element at the time the handler runs. *)
Record PointerEvent := {
  pointerType : PointerType;
  isPrimary : bool;
  button : Z;
  clientX : Q;
  clientY : Q;
  canvasRect : Rect
}.

(** [wheel] event, with the bounding rectangle of the wrapper element. *)
Record WheelEvent := {
  deltaY : Q;
  wheelX : Q;
  wheelY : Q;
  wrapperRect : Rect
}.

(** Calls that leave the editor: the two sounds and [onUpdate()]. *)
Inductive Effect := PlayFillSound | PlayUnfillSound | OnUpdate.

(** The 2D context of the drawing canvas: its pixels (what
    [getImageData(0, 0, width, height).data] returns and [putImageData]
    replaces), the current path as a list of subpaths, and the stroke
    settings. *)
Record Context2D := {
  surface : list Z;
  path : list (list (Q * Q));
  strokeStyle : Color;
  lineWidth : Q
}.

Record Editor := {
  mode : Mode;
  currentColor : Color;
  brushSize : Q;
  isDrawing : bool;
  isPanning : bool;
  zoom : Q;
  panX : Q;
  panY : Q;
  startPanX : Q;
  startPanY : Q;
  lineArtData : option (list Z);
  lineArtWidth : Z;
  lineArtHeight : Z;
  ctx : Context2D;
  onUpdate : bool;          (* whether [options.onUpdate] was given *)
  effects : list Effect     (* the calls made so far, oldest first *)
}.

(** [createEditorDOM] sets [canvas.width = lineArtWidth] and
    [canvas.height = lineArtHeight]; nothing changes them afterwards. *)
Definition canvas_width (e : Editor) : Z := lineArtWidth e.
Definition canvas_height (e : Editor) : Z := lineArtHeight e.

Definition set_drag (e : Editor) (drawing panning : bool) : Editor :=
  {| mode := mode e; currentColor := currentColor e; brushSize := brushSize e;
     isDrawing := drawing; isPanning := panning;
     zoom := zoom e; panX := panX e; panY := panY e;
     startPanX := startPanX e; startPanY := startPanY e;
     lineArtData := lineArtData e; lineArtWidth := lineArtWidth e;
     lineArtHeight := lineArtHeight e; ctx := ctx e; onUpdate := onUpdate e;
     effects := effects e |}.

Definition set_view (e : Editor) (z x y : Q) : Editor :=
  {| mode := mode e; currentColor := currentColor e; brushSize := brushSize e;
     isDrawing := isDrawing e; isPanning := isPanning e;
     zoom := z; panX := x; panY := y;
     startPanX := startPanX e; startPanY := startPanY e;
     lineArtData := lineArtData e; lineArtWidth := lineArtWidth e;
     lineArtHeight := lineArtHeight e; ctx := ctx e; onUpdate := onUpdate e;
     effects := effects e |}.

Definition set_startPan (e : Editor) (x y : Q) : Editor :=
  {| mode := mode e; currentColor := currentColor e; brushSize := brushSize e;
     isDrawing := isDrawing e; isPanning := isPanning e;
     zoom := zoom e; panX := panX e; panY := panY e;
     startPanX := x; startPanY := y;
     lineArtData := lineArtData e; lineArtWidth := lineArtWidth e;
     lineArtHeight := lineArtHeight e; ctx := ctx e; onUpdate := onUpdate e;
     effects := effects e |}.

Definition set_ctx (e : Editor) (c : Context2D) : Editor :=
  {| mode := mode e; currentColor := currentColor e; brushSize := brushSize e;
     isDrawing := isDrawing e; isPanning := isPanning e;
     zoom := zoom e; panX := panX e; panY := panY e;
     startPanX := startPanX e; startPanY := startPanY e;
     lineArtData := lineArtData e; lineArtWidth := lineArtWidth e;
     lineArtHeight := lineArtHeight e; ctx := c; onUpdate := onUpdate e;
     effects := effects e |}.

Definition emit (e : Editor) (x : Effect) : Editor :=
  {| mode := mode e; currentColor := currentColor e; brushSize := brushSize e;
     isDrawing := isDrawing e; isPanning := isPanning e;
     zoom := zoom e; panX := panX e; panY := panY e;
     startPanX := startPanX e; startPanY := startPanY e;
     lineArtData := lineArtData e; lineArtWidth := lineArtWidth e;
     lineArtHeight := lineArtHeight e; ctx := ctx e; onUpdate := onUpdate e;
     effects := effects e ++ [x] |}.

(** [setMode(mode)] (the cursor styling is not modelled). *)
Definition setMode (e : Editor) (m : Mode) : Editor :=
  {| mode := m; currentColor := currentColor e; brushSize := brushSize e;
     isDrawing := isDrawing e; isPanning := isPanning e;
     zoom := zoom e; panX := panX e; panY := panY e;
     startPanX := startPanX e; startPanY := startPanY e;
     lineArtData := lineArtData e; lineArtWidth := lineArtWidth e;
     lineArtHeight := lineArtHeight e; ctx := ctx e; onUpdate := onUpdate e;
     effects := effects e |}.

Definition set_surface (c : Context2D) (d : list Z) : Context2D :=
  {| surface := d; path := path c; strokeStyle := strokeStyle c;
     lineWidth := lineWidth c |}.

(* ================================================================= *)
(** ** Viewport: [fitToScreen] and [handleWheel]

    Arithmetic is exact. [Q]'s division by zero yields [0] where JS yields
    an infinity or [NaN]; statements that depend on a quotient name the
    divisor non-zero. *)

(** [fitToScreen()], from the wrapper's bounding rectangle. *)
Definition fitToScreen (e : Editor) (wrapper : Rect) : Editor :=
  let padding := 40%Q in
  let availableWidth := (rwidth wrapper - padding)%Q in
  let availableHeight := (rheight wrapper - padding)%Q in
  let scaleX := (availableWidth / inject_Z (lineArtWidth e))%Q in
  let scaleY := (availableHeight / inject_Z (lineArtHeight e))%Q in
  let z := Qmin (Qmin scaleX scaleY) (9 # 10) in
  set_view e z
    ((rwidth wrapper - inject_Z (lineArtWidth e) * z) / 2)%Q
    ((rheight wrapper - inject_Z (lineArtHeight e) * z) / 2)%Q.

(** [Math.sign] *)
Definition sign (q : Q) : Q :=
  match (q ?= 0)%Q with
  | Lt => (-1)%Q
  | Eq => 0%Q
  | Gt => 1%Q
  end.

(** [Math.max(0.1, Math.min(5, this.zoom + delta * zoomStep))] *)
Definition steppedZoom (z : Q) (dY : Q) : Q :=
  let delta := (- sign dY)%Q in
  let zoomStep := (1 # 10)%Q in
  Qmax (1 # 10) (Qmin 5 (z + delta * zoomStep)).

(** [handleWheel(e)] *)
Definition handleWheel (e : Editor) (ev : WheelEvent) : Editor :=
  let newZoom := steppedZoom (zoom e) (deltaY ev) in
  if Qeq_bool newZoom (zoom e) then e
  else
    let rect := wrapperRect ev in
    let mouseX := (wheelX ev - left rect)%Q in
    let mouseY := (wheelY ev - top rect)%Q in
    let renderX := ((mouseX - panX e) / zoom e)%Q in
    let renderY := ((mouseY - panY e) / zoom e)%Q in
    set_view e newZoom (mouseX - renderX * newZoom)%Q (mouseY - renderY * newZoom)%Q.

(** [getCoords(e)]. The scale factors are quotients by the width and the
    height of the bounding rectangle of the canvas. When one of them is 0
    the factor is an infinity or [NaN], and so is the coordinate computed
    with it: the result is then [None], a point with a coordinate that is
    not a finite number. *)
Definition getCoords (e : Editor) (ev : PointerEvent) : option (Q * Q) :=
  let rect := canvasRect ev in
  if Qeq_bool (rwidth rect) 0 || Qeq_bool (rheight rect) 0 then None
  else
    let scaleX := (inject_Z (canvas_width e) / rwidth rect)%Q in
    let scaleY := (inject_Z (canvas_height e) / rheight rect)%Q in
    Some (((clientX ev - left rect) * scaleX)%Q,
          ((clientY ev - top rect) * scaleY)%Q).

(* ================================================================= *)
(** ** Flood fill *)

(** [isLineBoundary(x, y)] *)
Definition isLineBoundary (e : Editor) (x y : Q) : bool :=
  match lineArtData e with
  | None => false
  | Some lineArt =>
      let ix := Qfloor x in
      let iy := Qfloor y in
      if (ix <? 0) || (ix >=? lineArtWidth e) || (iy <? 0) || (iy >=? lineArtHeight e)
      then true
      else
        let pos := (iy * lineArtWidth e + ix) * 4 in
        bool_decide (rd lineArt pos = Some 0)
  end.

(** [Math.round] *)
Definition round (q : Q) : Z := Qfloor (q + (1 # 2)).

Definition tolerance : Z := 32.

(** [Math.abs(data[pos] - target) <= tolerance]; a comparison with [NaN]
    (either side [undefined]) is false. *)
Definition channelMatches (v target : option Z) : bool :=
  match v, target with
  | Some v, Some t => Z.abs (v - t) <=? tolerance
  | _, _ => false
  end.

(** [colorMatches(pos)] for the captured [targetR], [targetG], [targetB]. *)
Definition colorMatches (data : list Z) (targetR targetG targetB : option Z)
    (pos : Z) : bool :=
  channelMatches (rd data pos) targetR
  && channelMatches (rd data (pos + 1)) targetG
  && channelMatches (rd data (pos + 2)) targetB.

(** The variables of the traversal loop. Of an entry
    [{ pos, origR, origG, origB }] of [pixelsToFill] only [pos] is ever read,
    and only [pos] is kept. *)
Record Bfs := {
  queue : list (Z * Z);
  visited : list Z;
  pixelsToFill : list Z
}.

(** [if (visited[pixelIndex])] *)
Definition truthy (o : option Z) : bool :=
  match o with
  | Some v => negb (v =? 0)
  | None => false
  end.

(** One iteration of [while (queue.length > 0)]. *)
Definition bfs_step (e : Editor) (data : list Z) (targetR targetG targetB : option Z)
    (st : Bfs) : Bfs :=
  let width := canvas_width e in
  let height := canvas_height e in
  match queue st with
  | [] => st
  | (x, y) :: rest =>
      if (x <? 0) || (x >=? width) || (y <? 0) || (y >=? height)
      then {| queue := rest; visited := visited st; pixelsToFill := pixelsToFill st |}
      else
        let pixelIndex := y * width + x in
        if truthy (rd (visited st) pixelIndex)
        then {| queue := rest; visited := visited st; pixelsToFill := pixelsToFill st |}
        else
          let visited' := wr (visited st) pixelIndex 1 in
          let pos := pixelIndex * 4 in
          if isLineBoundary e (inject_Z x) (inject_Z y)
          then {| queue := rest; visited := visited'; pixelsToFill := pixelsToFill st |}
          else if negb (colorMatches data targetR targetG targetB pos)
          then {| queue := rest; visited := visited'; pixelsToFill := pixelsToFill st |}
          else {| queue := rest ++ [(x + 1, y); (x - 1, y); (x, y + 1); (x, y - 1)];
                  visited := visited';
                  pixelsToFill := pixelsToFill st ++ [pos] |}
  end.

(** The loop, bounded by a number of iterations; [None] when the bound is
    reached with the queue not empty. *)
Fixpoint bfs_loop (fuel : nat) (e : Editor) (data : list Z)
    (targetR targetG targetB : option Z) (st : Bfs) : option Bfs :=
  match queue st with
  | [] => Some st
  | _ :: _ =>
      match fuel with
      | O => None
      | S fuel => bfs_loop fuel e data targetR targetG targetB
                    (bfs_step e data targetR targetG targetB st)
      end
  end.

(** A bound that the loop never reaches ([bfs_loop_total]): every iteration
    removes one entry, and four are added at most once per pixel. *)
Definition bfs_fuel (width height : Z) : nat := S (4 * Z.to_nat (width * height)).

(** The state before the first iteration: [new Uint8Array(width * height)],
    [pixelsToFill = []], [queue = [[startX, startY]]]. *)
Definition bfs_init (width height startX startY : Z) : Bfs :=
  {| queue := [(startX, startY)];
     visited := replicate (Z.to_nat (width * height)) 0;
     pixelsToFill := [] |}.

(** Body of [for (const pixel of pixelsToFill)]. *)
Definition paint (fillColor : Color) (data : list Z) (pos : Z) : list Z :=
  let data := wr data pos (red fillColor) in
  let data := wr data (pos + 1) (green fillColor) in
  let data := wr data (pos + 2) (blue fillColor) in
  wr data (pos + 3) 255.

(** [targetR === fillR && targetG === fillG && targetB === fillB && targetA === 255] *)
Definition alreadyFilled (targetR targetG targetB targetA : option Z)
    (fillColor : Color) : bool :=
  bool_decide (targetR = Some (red fillColor))
  && bool_decide (targetG = Some (green fillColor))
  && bool_decide (targetB = Some (blue fillColor))
  && bool_decide (targetA = Some 255).

(** The traversal of [floodFill] from the rounded seed: the pixels to fill,
    in the order found. *)
Definition fillSet (e : Editor) (data : list Z) (startX startY : Z) : list Z :=
  let width := canvas_width e in
  let height := canvas_height e in
  let startPos := (startY * width + startX) * 4 in
  match bfs_loop (bfs_fuel width height) e data
          (rd data startPos) (rd data (startPos + 1)) (rd data (startPos + 2))
          (bfs_init width height startX startY) with
  | Some st => pixelsToFill st
  | None => []
  end.

(** [floodFill(startX, startY, fillColor, isUnfill)] *)
Definition floodFill (e : Editor) (startX startY : Q) (fillColor : Color)
    (isUnfill : bool) : Editor :=
  let width := canvas_width e in
  let height := canvas_height e in
  let startX := round startX in
  let startY := round startY in
  if isLineBoundary e (inject_Z startX) (inject_Z startY) then e
  else
    let data := surface (ctx e) in
    let startPos := (startY * width + startX) * 4 in
    if alreadyFilled (rd data startPos) (rd data (startPos + 1))
         (rd data (startPos + 2)) (rd data (startPos + 3)) fillColor
    then e
    else
      let pixels := fillSet e data startX startY in
      match pixels with
      | [] => e
      | _ :: _ =>
          let e := emit e (if isUnfill then PlayUnfillSound else PlayFillSound) in
          set_ctx e (set_surface (ctx e) (foldl (paint fillColor) data pixels))
      end.

(** [floodFill] from a point that [getCoords] returns. A coordinate that is
    an infinity or [NaN] stays so under [Math.round], and the call changes
    nothing: an infinity fails the bounds test, of [isLineBoundary] when
    there is a mask and of the loop otherwise; with [NaN] the position
    [startPos] is [NaN], the reads [data[startPos]] are [undefined], and
    [colorMatches] is false of the seed. In each case [pixelsToFill] stays
    empty and the function returns before it plays a sound. *)
Definition floodFill_at (e : Editor) (pt : option (Q * Q)) (fillColor : Color)
    (isUnfill : bool) : Editor :=
  match pt with
  | Some (x, y) => floodFill e x y fillColor isUnfill
  | None => e
  end.

(* ================================================================= *)
(** ** The canvas path and the pointer handlers *)

(** [ctx.beginPath()] *)
Definition beginPath (c : Context2D) : Context2D :=
  {| surface := surface c; path := []; strokeStyle := strokeStyle c;
     lineWidth := lineWidth c |}.

(** [ctx.moveTo(x, y)]: a new subpath that starts at the point. *)
Definition moveTo (c : Context2D) (x y : Q) : Context2D :=
  {| surface := surface c; path := path c ++ [[(x, y)]];
     strokeStyle := strokeStyle c; lineWidth := lineWidth c |}.

Definition add_point (p : list (list (Q * Q))) (pt : Q * Q) : list (list (Q * Q)) :=
  match List.rev p with
  | [] => [[pt]]
  | sub :: before => List.rev before ++ [sub ++ [pt]]
  end.

(** [ctx.lineTo(x, y)]: extends the last subpath (and starts one when the
    path is empty). *)
Definition lineTo (c : Context2D) (x y : Q) : Context2D :=
  {| surface := surface c; path := add_point (path c) (x, y);
     strokeStyle := strokeStyle c; lineWidth := lineWidth c |}.

Definition close_last (p : list (list (Q * Q))) : list (list (Q * Q)) :=
  match List.rev p with
  | (first :: more) :: before =>
      List.rev before ++ [(first :: more) ++ [first]; [first]]
  | _ => p
  end.

(** [ctx.closePath()]: joins the last subpath back to its first point and
    starts a new subpath there. Nothing is drawn. *)
Definition closePath (c : Context2D) : Context2D :=
  {| surface := surface c; path := close_last (path c);
     strokeStyle := strokeStyle c; lineWidth := lineWidth c |}.

Definition set_stroke (c : Context2D) (style : Color) (w : Q) : Context2D :=
  {| surface := surface c; path := path c; strokeStyle := style; lineWidth := w |}.

(** [ctx.moveTo] and [ctx.lineTo] at a point that [getCoords] returns: the
    canvas ignores the call when a coordinate is an infinity or [NaN]. *)
Definition moveTo_at (c : Context2D) (pt : option (Q * Q)) : Context2D :=
  match pt with
  | Some (x, y) => moveTo c x y
  | None => c
  end.

Definition lineTo_at (c : Context2D) (pt : option (Q * Q)) : Context2D :=
  match pt with
  | Some (x, y) => lineTo c x y
  | None => c
  end.

(** The events the editor listens to ([setupEvents]). *)
Inductive Event :=
| PointerDown (ev : PointerEvent)
| PointerMove (ev : PointerEvent)
| PointerUp
| Wheel (ev : WheelEvent).

Section Handlers.

(** [ctx.stroke()] is the browser's. It is a parameter: from the canvas
    size, the current path, [strokeStyle] and [lineWidth] to the new
    pixels ([lineCap] and [lineJoin] are fixed to ['round'] by
    [createEditorDOM]). *)
Variable rasterize :
  Z -> Z -> list (list (Q * Q)) -> Color -> Q -> list Z -> list Z.

Definition stroke (e : Editor) (c : Context2D) : Context2D :=
  set_surface c
    (rasterize (canvas_width e) (canvas_height e) (path c) (strokeStyle c)
       (lineWidth c) (surface c)).

(** [handleStart(e)] *)
Definition handleStart (e : Editor) (ev : PointerEvent) : Editor :=
  if bool_decide (pointerType ev = touch) && negb (isPrimary ev) then e
  else if bool_decide (mode e = pan) || (button ev =? 1) then
    let e := set_drag e (isDrawing e) true in
    set_startPan e (clientX ev - panX e)%Q (clientY ev - panY e)%Q
  else
    let pt := getCoords e ev in
    let e := set_drag e true (isPanning e) in
    if bool_decide (mode e = fill) then
      let isRightClick := button ev =? 2 in
      let e := floodFill_at e pt (if isRightClick then white else currentColor e)
                 isRightClick in
      set_drag e false (isPanning e)
    else if negb (button ev =? 2) then
      let c := moveTo_at (beginPath (ctx e)) pt in
      set_ctx e
        (set_stroke c
           (if bool_decide (mode e = eraser) then white else currentColor e)
           (brushSize e))
    else e.

(** [handleMove(e)] (the cursor preview is not modelled). *)
Definition handleMove (e : Editor) (ev : PointerEvent) : Editor :=
  if isPanning e then
    set_view e (zoom e) (clientX ev - startPanX e)%Q (clientY ev - startPanY e)%Q
  else if negb (isDrawing e) || bool_decide (mode e = fill) then e
  else
    let pt := getCoords e ev in
    set_ctx e (stroke e (lineTo_at (ctx e) pt)).

(** [handleEnd()] *)
Definition handleEnd (e : Editor) : Editor :=
  let e := set_drag e false false in
  let e := set_ctx e (closePath (ctx e)) in
  if onUpdate e then emit e OnUpdate else e.

Definition handle (e : Editor) (ev : Event) : Editor :=
  match ev with
  | PointerDown ev => handleStart e ev
  | PointerMove ev => handleMove e ev
  | PointerUp => handleEnd e
  | Wheel ev => handleWheel e ev
  end.

(** The editor after a sequence of events. *)
Definition run (e : Editor) (evs : list Event) : Editor := foldl handle e evs.

End Handlers.

(* ================================================================= *)
(** ** A stroke rasterizer

    One instance of the parameter of [stroke], without anti-aliasing: with
    round caps and joins a stroke covers the points within [lineWidth / 2]
    of a segment of the path, and a pixel is painted when its centre is
    covered. *)

Definition dist2 (p a : Q * Q) : Q :=
  ((p.1 - a.1) * (p.1 - a.1) + (p.2 - a.2) * (p.2 - a.2))%Q.

Definition seg_dist2 (p a b : Q * Q) : Q :=
  let len2 := dist2 a b in
  if Qeq_bool len2 0 then dist2 p a
  else
    let t := Qmax 0 (Qmin 1
               (((p.1 - a.1) * (b.1 - a.1) + (p.2 - a.2) * (b.2 - a.2)) / len2)) in
    dist2 p ((a.1 + t * (b.1 - a.1))%Q, (a.2 + t * (b.2 - a.2))%Q).

Fixpoint covers_sub (w : Q) (p : Q * Q) (sub : list (Q * Q)) : bool :=
  match sub with
  | a :: ((b :: _) as more) =>
      Qle_bool (seg_dist2 p a b) ((w / 2) * (w / 2)) || covers_sub w p more
  | _ => false
  end.

Definition covers (w : Q) (pth : list (list (Q * Q))) (p : Q * Q) : bool :=
  existsb (covers_sub w p) pth.

Definition round_stroke (width height : Z) (pth : list (list (Q * Q)))
    (style : Color) (w : Q) (pixels : list Z) : list Z :=
  foldl (fun out (xy : Z * Z) =>
           if covers w pth ((inject_Z xy.1 + (1 # 2))%Q, (inject_Z xy.2 + (1 # 2))%Q)
           then paint style out ((xy.2 * width + xy.1) * 4)
           else out)
        pixels (scan_order width height).

(** The editor with another boundary mask of the same size. *)
Definition set_lineArt (e : Editor) (mask : option (list Z)) : Editor :=
  {| mode := mode e; currentColor := currentColor e; brushSize := brushSize e;
     isDrawing := isDrawing e; isPanning := isPanning e;
     zoom := zoom e; panX := panX e; panY := panY e;
     startPanX := startPanX e; startPanY := startPanY e;
     lineArtData := mask; lineArtWidth := lineArtWidth e;
     lineArtHeight := lineArtHeight e; ctx := ctx e; onUpdate := onUpdate e;
     effects := effects e |}.

(* ================================================================= *)
(** ** Regions of the surface *)

(** The four neighbours pushed for a pixel. *)
Definition neighbours (p : Z * Z) : list (Z * Z) :=
  [(p.1 + 1, p.2); (p.1 - 1, p.2); (p.1, p.2 + 1); (p.1, p.2 - 1)].

(** [isLineBoundary] at integer coordinates. *)
Definition boundary (e : Editor) (x y : Z) : bool :=
  isLineBoundary e (inject_Z x) (inject_Z y).

(** A pixel of the surface that is not a boundary pixel. *)
Definition open_px (e : Editor) (p : Z * Z) : bool :=
  in_image (canvas_width e) (canvas_height e) p.1 p.2
  && negb (boundary e p.1 p.2).

(** An open pixel whose colour in [data] is within the tolerance of the
    target colour. *)
Definition fillable (e : Editor) (data : list Z) (tR tG tB : option Z)
    (p : Z * Z) : bool :=
  open_px e p
  && colorMatches data tR tG tB ((p.2 * canvas_width e + p.1) * 4).

(** [connected ok s p]: a 4-connected path from [s] to [p] all of whose
    pixels, ends included, satisfy [ok]. *)
Inductive connected (ok : Z * Z -> bool) (s : Z * Z) : Z * Z -> Prop :=
| connected_seed : ok s = true -> connected ok s s
| connected_step p q :
    connected ok s p -> q ∈ neighbours p -> ok q = true -> connected ok s q.

(** Number of unvisited entries of the visited array. *)
Definition unvisited (v : list Z) : nat := length (filter (fun z => z = 0) v).

(** The quantity that every iteration of the traversal decreases. *)
Definition bfs_measure (st : Bfs) : nat :=
  (4 * unvisited (visited st) + length (queue st))%nat.

(* ================================================================= *)
(** ** Sample editors and events *)

(** The colour [#e63946], the first of the palette. *)
Definition palette_red : Color := {| red := 230; green := 57; blue := 70 |}.

(** An editor as the constructor and [createEditorDOM] leave it (zoom 1,
    no pan, brush size 10, nothing drawn, the context with its default black
    stroke of width 1), in a given tool mode, over a [w × h] boundary mask
    and surface. *)
Definition editor_of (m : Mode) (w h : Z) (lineArt pixels : list Z) : Editor :=
  {| mode := m; currentColor := palette_red; brushSize := 10%Q;
     isDrawing := false; isPanning := false;
     zoom := 1%Q; panX := 0%Q; panY := 0%Q; startPanX := 0%Q; startPanY := 0%Q;
     lineArtData := Some lineArt; lineArtWidth := w; lineArtHeight := h;
     ctx := {| surface := pixels; path := [];
               strokeStyle := {| red := 0; green := 0; blue := 0 |};
               lineWidth := 1%Q |};
     onUpdate := true; effects := [] |}.

(** [n] opaque white pixels. *)
Definition white_pixels (n : nat) : list Z :=
  mjoin (replicate n [255; 255; 255; 255]).

(** A 3 × 1 mask whose middle pixel is a boundary pixel. *)
Definition mask_3x1 : list Z :=
  [255; 255; 255; 255; 0; 0; 0; 255; 255; 255; 255; 255].

(** A pointer event of the mouse at [(x, y)], the canvas filling the
    rectangle [(0, 0) .. (w, h)] of the screen. *)
Definition mouse_at (b : Z) (x y : Q) (w h : Z) : PointerEvent :=
  {| pointerType := mouse; isPrimary := true; button := b;
     clientX := x; clientY := y;
     canvasRect := {| left := 0%Q; top := 0%Q;
                      rwidth := inject_Z w; rheight := inject_Z h |} |}.

(** A 5 × 5 mask: a ring of boundary pixels around an open 3 × 3 interior. *)
Definition mask_ring_5x5 : list Z :=
  let b := [0; 0; 0; 255] in
  let w := [255; 255; 255; 255] in
  b ++ b ++ b ++ b ++ b
  ++ b ++ w ++ w ++ w ++ b
  ++ b ++ w ++ w ++ w ++ b
  ++ b ++ w ++ w ++ w ++ b
  ++ b ++ b ++ b ++ b ++ b.

(* ================================================================= *)
(** ** Vocabulary of the statements *)

(** The luminance of a pixel, as the loop of the binariser computes it. *)
Definition luminance (r g b : Z) : float :=
  (0.299 * to_number (Some r) + 0.587 * to_number (Some g)
   + 0.114 * to_number (Some b))%float.

(** The luminance of a pixel as the specification words it, the real
    number [0.299 r + 0.587 g + 0.114 b]. *)
Definition luminance_exact (r g b : Z) : Q :=
  ((299 # 1000) * inject_Z r + (587 # 1000) * inject_Z g
   + (114 # 1000) * inject_Z b)%Q.

(** An index that starts a pixel of a buffer. *)
Definition aligned (i : Z) : Prop := exists k, i = 4 * k.

(** What a write of [blacken] leaves in channel [c] of the pixel. *)
Definition painted (alpha : bool) (o : option Z) (c : Z) : option Z :=
  match o with
  | None => None
  | Some v => Some (if c <=? 2 then 0 else if alpha then 255 else v)
  end.

(** The pixels that the scan of the dilation makes black, as indices into
    the buffer, in the order of the writes. *)
Definition targets (order : list (Z * Z)) (width height : Z)
    (kernel : list (Z * Z)) (data : list Z) : list Z :=
  p ← order;
  if is_black data ((p.2 * width + p.1) * 4)
  then k ← kernel;
       if in_image width height (p.1 + k.1) (p.2 + k.2)
       then [((p.2 + k.2) * width + (p.1 + k.1)) * 4] else []
  else [].

(** [pos] of the pixel [p] in the surface buffer. *)
Definition pos_of (e : Editor) (p : Z * Z) : Z :=
  (p.2 * canvas_width e + p.1) * 4.

(** [visited[pixelIndex]] is set for the pixel [p]. *)
Definition seen (e : Editor) (st : Bfs) (p : Z * Z) : bool :=
  truthy (rd (visited st) (p.2 * canvas_width e + p.1)).

(** The visited array has one entry per pixel of the canvas. *)
Definition sized (e : Editor) (st : Bfs) : Prop :=
  Z.of_nat (length (visited st)) = Z.max 0 (canvas_width e * canvas_height e).

(** Invariant of the traversal from the seed [s]: what was found is
    connected to the seed, and what is queued is the seed or a neighbour of a
    pixel connected to it. *)
Definition sound (e : Editor) (data : list Z) (tR tG tB : option Z)
    (s : Z * Z) (st : Bfs) : Prop :=
  (forall pos, pos ∈ pixelsToFill st ->
     exists p, pos = pos_of e p /\ connected (fillable e data tR tG tB) s p)
  /\ (forall q, q ∈ queue st ->
        q = s \/ exists p, connected (fillable e data tR tG tB) s p
                           /\ q ∈ neighbours p).

(** Invariant of the traversal from the seed [s]: a visited fillable pixel
    was found, and the neighbours of a found pixel, like the seed, are
    visited or queued. *)
Definition complete (e : Editor) (data : list Z) (tR tG tB : option Z)
    (s : Z * Z) (st : Bfs) : Prop :=
  sized e st
  /\ (forall p, in_image (canvas_width e) (canvas_height e) p.1 p.2 = true ->
        seen e st p = true -> fillable e data tR tG tB p = true ->
        pos_of e p ∈ pixelsToFill st)
  /\ (forall p q, in_image (canvas_width e) (canvas_height e) p.1 p.2 = true ->
        pos_of e p ∈ pixelsToFill st -> q ∈ neighbours p ->
        in_image (canvas_width e) (canvas_height e) q.1 q.2 = true ->
        seen e st q = true \/ q ∈ queue st)
  /\ (in_image (canvas_width e) (canvas_height e) s.1 s.2 = true ->
      seen e st s = true \/ s ∈ queue st).

(** What a pan drag leaves alone. *)
Definition same_but_pan (e1 e2 : Editor) : Prop :=
  isPanning e2 = isPanning e1 /\ isDrawing e2 = isDrawing e1
  /\ startPanX e2 = startPanX e1 /\ startPanY e2 = startPanY e1
  /\ zoom e2 = zoom e1 /\ ctx e2 = ctx e1 /\ effects e2 = effects e1
  /\ onUpdate e2 = onUpdate e1 /\ mode e2 = mode e1.

(* ================================================================= *)
(** ** The [processLineArt] pipeline

    [toGrayscale], [applyThreshold], [applyGaussianBlur],
    [applySobelEdgeDetection] and [processLineArt]; [applyDilation] is
    [dilate true] above. *)

(** Rounding of [m * 2 ^ e] to the nearest integer, ties to the even one. *)
Definition round_half_even (m e : Z) : Z :=
  if 0 <=? e then m * 2 ^ e
  else
    let d := 2 ^ (- e) in
    let q := m / d in
    let r := m mod d in
    match 2 * r ?= d with
    | Lt => q
    | Gt => q + 1
    | Eq => if Z.even q then q else q + 1
    end.

(** The conversion of a number stored into a [Uint8ClampedArray]
    (ECMAScript's ToUint8Clamp): [NaN] becomes 0, the value is clamped to
    0..255 and rounded to the nearest integer, ties to even. *)
Definition to_uint8_clamp (f : float) : Z :=
  match Prim2SF f with
  | S754_nan => 0
  | S754_zero _ => 0
  | S754_infinity neg => if neg then 0 else 255
  | S754_finite neg m e => if neg then 0 else clamp8 (round_half_even (Zpos m) e)
  end.

(** [d[i] = x] for a number [x]. *)
Definition wr_num (d : list Z) (i : Z) (x : float) : list Z :=
  wr d i (to_uint8_clamp x).

(** [d[i] = o[j]]: an element read from another typed array ([undefined]
    stores 0). *)
Definition wr_elem (d : list Z) (i : Z) (o : option Z) : list Z :=
  wr d i (match o with Some v => v | None => 0 end).

(** Body of the loop of [toGrayscale]. *)
Definition toGrayscale_step (data : list Z) (i : Z) : list Z :=
  let gray := brightness data i in
  let data := wr_num data i gray in
  let data := wr_num data (i + 1) gray in
  wr_num data (i + 2) gray.

Definition toGrayscale (data : list Z) : list Z :=
  foldl toGrayscale_step data (pixel_offsets (length data)).

(** Body of the loop of [applyThreshold]. *)
Definition applyThreshold_step (threshold : float) (data : list Z) (i : Z) : list Z :=
  let gray := to_number (rd data i) in
  let binary := binary_of threshold gray in
  let data := wr data i binary in
  let data := wr data (i + 1) binary in
  wr data (i + 2) binary.

Definition applyThreshold (threshold : float) (data : list Z) : list Z :=
  foldl (applyThreshold_step threshold) data (pixel_offsets (length data)).

(** The pixels visited by [for (y = 1; y < height - 1; y++)
    for (x = 1; x < width - 1; x++)], in that order. *)
Definition interior (width height : Z) : list (Z * Z) :=
  y ← zrange 1 (height - 2);
  x ← zrange 1 (width - 2);
  [(x, y)].

(** The offsets [(kx, ky)] visited by [for (ky = -1; ky <= 1; ky++)
    for (kx = -1; kx <= 1; kx++)], in that order. *)
Definition window : list (Z * Z) :=
  ky ← zrange (-1) 1;
  kx ← zrange (-1) 1;
  [(kx, ky)].

(** [kernel[ky + 1][kx + 1]] of a 3 × 3 table of numbers. *)
Definition kernel_at (kernel : list (list float)) (kx ky : Z) : float :=
  match kernel !! Z.to_nat (ky + 1) with
  | Some row => match row !! Z.to_nat (kx + 1) with
                | Some w => w
                | None => nan
                end
  | None => nan
  end.

(** The 3 × 3 Gaussian kernel of [applyGaussianBlur]. *)
Definition gaussian_kernel : list (list float) :=
  [[1 / 16; 2 / 16; 1 / 16];
   [2 / 16; 4 / 16; 2 / 16];
   [1 / 16; 2 / 16; 1 / 16]]%float.

Definition sobelX : list (list float) :=
  [[-1; 0; 1]; [-2; 0; 2]; [-1; 0; 1]]%float.

Definition sobelY : list (list float) :=
  [[-1; -2; -1]; [0; 0; 0]; [1; 2; 1]]%float.

(** The sum that the two inner loops accumulate for channel [ch] of the
    pixel [(x, y)]: [acc += data[idx + ch] * kernel[ky + 1][kx + 1]]. *)
Definition convolve (kernel : list (list float)) (data : list Z)
    (width x y ch : Z) : float :=
  foldl (fun (acc : float) (k : Z * Z) =>
           let idx := ((y + k.2) * width + (x + k.1)) * 4 in
           (acc + to_number (rd data (idx + ch)) * kernel_at kernel k.1 k.2)%float)
        0%float window.

(** First loop nest of [applyGaussianBlur], at the pixel [p]. *)
Definition blur_pixel (data : list Z) (width : Z) (output : list Z)
    (p : Z * Z) : list Z :=
  let r := convolve gaussian_kernel data width p.1 p.2 0 in
  let g := convolve gaussian_kernel data width p.1 p.2 1 in
  let b := convolve gaussian_kernel data width p.1 p.2 2 in
  let idx := (p.2 * width + p.1) * 4 in
  let output := wr_num output idx r in
  let output := wr_num output (idx + 1) g in
  let output := wr_num output (idx + 2) b in
  wr output (idx + 3) 255.

(** Second loop nest of [applyGaussianBlur] (copy back, colour channels
    only), at the pixel [p]. *)
Definition copy_pixel (output : list Z) (width : Z) (data : list Z)
    (p : Z * Z) : list Z :=
  let idx := (p.2 * width + p.1) * 4 in
  let data := wr_elem data idx (rd output idx) in
  let data := wr_elem data (idx + 1) (rd output (idx + 1)) in
  wr_elem data (idx + 2) (rd output (idx + 2)).

(** [applyGaussianBlur(imageData, width, height)] *)
Definition applyGaussianBlur (width height : Z) (data : list Z) : list Z :=
  let output :=
    foldl (blur_pixel data width) (replicate (length data) 0)
      (interior width height) in
  foldl (copy_pixel output width) data (interior width height).

(** Body of the loop that initialises the output of the edge detection to
    white. *)
Definition whiten (output : list Z) (i : Z) : list Z :=
  let output := wr output i 255 in
  let output := wr output (i + 1) 255 in
  let output := wr output (i + 2) 255 in
  wr output (i + 3) 255.

(** [magnitude > 50 ? 0 : 255] for the gradient at the pixel [(x, y)]. *)
Definition sobel_edge (data : list Z) (width x y : Z) : Z :=
  let gx := convolve sobelX data width x y 0 in
  let gy := convolve sobelY data width x y 0 in
  let magnitude := PrimFloat.sqrt (gx * gx + gy * gy)%float in
  if PrimFloat.ltb 50 magnitude then 0 else 255.

(** Loop nest of [applySobelEdgeDetection], at the pixel [p]. *)
Definition sobel_pixel (data : list Z) (width : Z) (output : list Z)
    (p : Z * Z) : list Z :=
  let edge := sobel_edge data width p.1 p.2 in
  let idx := (p.2 * width + p.1) * 4 in
  let output := wr output idx edge in
  let output := wr output (idx + 1) edge in
  let output := wr output (idx + 2) edge in
  wr output (idx + 3) 255.

(** [applySobelEdgeDetection(imageData, width, height)]; the final loop
    copies the whole output, of the length of [data], back into [data]. *)
Definition applySobelEdgeDetection (width height : Z) (data : list Z) : list Z :=
  let output :=
    foldl whiten (replicate (length data) 0) (pixel_offsets (length data)) in
  foldl (sobel_pixel data width) output (interior width height).

(** The options of [processLineArt]; the defaults are threshold 200,
    dilation radius 2, no blur, no edge detection. *)
Record LineArtOptions := {
  threshold : float;
  dilationRadius : Z;
  gaussianBlur : bool;
  edgeDetect : bool
}.

Definition default_options : LineArtOptions :=
  {| threshold := 200%float; dilationRadius := 2;
     gaussianBlur := false; edgeDetect := false |}.

(** [processLineArt(img, options)], from the decoded pixels of [img] to the
    returned [data]. *)
Definition processLineArt (width height : Z) (pixels : list Z)
    (options : LineArtOptions) : list Z :=
  let imageData := toGrayscale pixels in
  let imageData :=
    if gaussianBlur options then applyGaussianBlur width height imageData
    else imageData in
  let imageData :=
    if edgeDetect options then applySobelEdgeDetection width height imageData
    else imageData in
  let imageData := applyThreshold (threshold options) imageData in
  if 0 <? dilationRadius options
  then applyDilation width height (dilationRadius options) imageData
  else imageData.

(** The four elements of the pixel that starts at [b]. *)
Definition px_reads (d : list Z) (b : Z) : list (option Z) :=
  [rd d b; rd d (b + 1); rd d (b + 2); rd d (b + 3)].

(** The element left by a write of [v] over the element [o]. *)
Definition overwrite (o : option Z) (v : Z) : option Z :=
  match o with
  | Some _ => Some v
  | None => None
  end.

(** The luminance of three channel reads. *)
Definition lum3 (r g b : option Z) : float :=
  (0.299 * to_number r + 0.587 * to_number g + 0.114 * to_number b)%float.

(** The weighted sum of a 3 × 3 window whose nine values are all [v]. *)
Definition flat_sum (kernel : list (list float)) (v : Z) : float :=
  foldl (fun (acc : float) (k : Z * Z) =>
           (acc + to_number (Some v) * kernel_at kernel k.1 k.2)%float)
        0%float window.

(** What an iteration of [toGrayscale] leaves in channel [c] of its pixel,
    from the four elements read before it. *)
Definition gray_result (c : Z) (reads : list (option Z)) : option Z :=
  match reads with
  | [r; g; b; a] =>
      let v := to_uint8_clamp (lum3 r g b) in
      if c =? 0 then overwrite r v
      else if c =? 1 then overwrite g v
      else if c =? 2 then overwrite b v
      else a
  | _ => None
  end.

(** The same for [applyThreshold]. *)
Definition threshold_result (t : float) (c : Z) (reads : list (option Z)) : option Z :=
  match reads with
  | [r; g; b; a] =>
      let v := binary_of t (to_number r) in
      if c =? 0 then overwrite r v
      else if c =? 1 then overwrite g v
      else if c =? 2 then overwrite b v
      else a
  | _ => None
  end.

(** The same for a loop that stores the colour [(vr, vg, vb)] and, when
    [va] is given, the alpha [va]. *)
Definition store_result (vr vg vb : Z) (va : option Z) (c : Z)
    (reads : list (option Z)) : option Z :=
  match reads with
  | [r; g; b; a] =>
      if c =? 0 then overwrite r vr
      else if c =? 1 then overwrite g vg
      else if c =? 2 then overwrite b vb
      else match va with Some v => overwrite a v | None => a end
  | _ => None
  end.

(** The element that [wr_elem] stores. *)
Definition elem_or_0 (o : option Z) : Z :=
  match o with Some v => v | None => 0 end.

(* ================================================================= *)
(** ** [AudioManager], the background music

    The manager is the object literal of [src/services/audio_manager.js];
    its methods are functions on the record [t] of its fields. An
    [HTMLAudioElement] is the record [Audio.t] of the fields that the
    manager reads or writes. The volume is an exact number ([Q]). *)

Module Audio.

(** What [this.tracks[name]] evaluates to, and what [new Audio(...)] is
    given: a string, a member of [Object.prototype] (the tracks are a plain
    object, so that [tracks['toString']] is a function), or [undefined]. *)
Inductive Value :=
  | Url (u : string)
  | Inherited (name : string)
  | Undefined.

Record t := {
  src : Value;
  loop : bool;
  volume : Q;
  muted : bool;
  paused : bool;
  currentTime : Q;
}.

(** [new Audio(src)] *)
Definition new (s : Value) : t :=
  {| src := s; loop := false; volume := 1; muted := false; paused := true;
     currentTime := 0 |}.

Definition set_loop (b : bool) (a : t) : t :=
  {| src := src a; loop := b; volume := volume a; muted := muted a;
     paused := paused a; currentTime := currentTime a |}.

Definition set_volume (v : Q) (a : t) : t :=
  {| src := src a; loop := loop a; volume := v; muted := muted a;
     paused := paused a; currentTime := currentTime a |}.

Definition set_muted (b : bool) (a : t) : t :=
  {| src := src a; loop := loop a; volume := volume a; muted := b;
     paused := paused a; currentTime := currentTime a |}.

Definition set_currentTime (s : Q) (a : t) : t :=
  {| src := src a; loop := loop a; volume := volume a; muted := muted a;
     paused := paused a; currentTime := s |}.

(** [a.pause()] *)
Definition pause (a : t) : t :=
  {| src := src a; loop := loop a; volume := volume a; muted := muted a;
     paused := true; currentTime := currentTime a |}.

(** [a.play()]: the element starts when the browser allows it ([allowed]);
    otherwise the promise is rejected and the element stays as it was. *)
Definition play (allowed : bool) (a : t) : t :=
  {| src := src a; loop := loop a; volume := volume a; muted := muted a;
     paused := if allowed then false else paused a;
     currentTime := currentTime a |}.

End Audio.

Module AudioManager.

(** The fields of the manager. [detached] is not a field of the object: it
    lists the elements that the manager has created and no longer refers
    to, latest first; the browser goes on playing such an element when it
    was not paused. *)
Record t := {
  audio : option Audio.t;
  volume : Q;
  currentTrack : option string;
  tracks : list (string * string);
  detached : list Audio.t;
}.

(** The object literal. *)
Definition initial : t :=
  {| audio := None; volume := 0.5; currentTrack := None; tracks := [];
     detached := [] |}.

(** The members that a plain object inherits from [Object.prototype]. *)
Definition object_prototype : list string :=
  ["constructor"; "__defineGetter__"; "__defineSetter__"; "hasOwnProperty";
   "__lookupGetter__"; "__lookupSetter__"; "isPrototypeOf";
   "propertyIsEnumerable"; "toString"; "valueOf"; "__proto__";
   "toLocaleString"]%string.

Fixpoint own (o : list (string * string)) (name : string) : option string :=
  match o with
  | [] => None
  | (k, v) :: o => if bool_decide (k = name) then Some v else own o name
  end.

(** [o[name]] *)
Definition get (o : list (string * string)) (name : string) : Audio.Value :=
  match own o name with
  | Some u => Audio.Url u
  | None =>
      if bool_decide (name ∈ object_prototype) then Audio.Inherited name
      else Audio.Undefined
  end.

Fixpoint put (o : list (string * string)) (name url : string)
    : list (string * string) :=
  match o with
  | [] => [(name, url)]
  | (k, v) :: o =>
      if bool_decide (k = name) then (k, url) :: o else (k, v) :: put o name url
  end.

(** [o[name] = url]; assigning a string to [__proto__] does nothing. *)
Definition set (o : list (string * string)) (name url : string)
    : list (string * string) :=
  if bool_decide (name = "__proto__"%string) then o else put o name url.

Definition is_truthy (v : Audio.Value) : bool :=
  match v with
  | Audio.Url u => negb (bool_decide (u = ""%string))
  | Audio.Inherited _ => true
  | Audio.Undefined => false
  end.

Definition set_audio (a : option Audio.t) (m : t) : t :=
  {| audio := a; volume := volume m; currentTrack := currentTrack m;
     tracks := tracks m; detached := detached m |}.

Definition init (defaultUrl : string) (m : t) : t :=
  {| currentTrack := Some "default"%string;
     tracks := [("default"%string, defaultUrl)];
     audio := Some (Audio.set_volume (volume m)
                      (Audio.set_loop true (Audio.new (Audio.Url defaultUrl))));
     volume := volume m;
     detached := match audio m with
                 | Some a => a :: detached m
                 | None => detached m
                 end |}.

Definition addTrack (name url : string) (m : t) : t :=
  {| audio := audio m; volume := volume m; currentTrack := currentTrack m;
     tracks := set (tracks m) name url; detached := detached m |}.

Definition play (allowed : bool) (m : t) : t :=
  if bool_decide (currentTrack m = Some "none"%string) then m
  else match audio m with
       | Some a => set_audio (Some (Audio.play allowed a)) m
       | None => m
       end.

Definition pause (m : t) : t :=
  match audio m with
  | Some a => set_audio (Some (Audio.pause a)) m
  | None => m
  end.

Definition switchTrack (name : string) (allowed : bool) (m : t) : t :=
  if bool_decide (name = "none"%string) then
    {| audio := (fun a => Audio.set_currentTime 0 (Audio.pause a)) <$> audio m;
       volume := volume m; currentTrack := Some "none"%string;
       tracks := tracks m; detached := detached m |}
  else if negb (is_truthy (get (tracks m) name)) then m
  else
    let wasPlaying :=
      match audio m with Some a => negb (Audio.paused a) | None => false end in
    let wasMuted :=
      match audio m with Some a => Audio.muted a | None => false end in
    let stopped := (fun a => Audio.set_currentTime 0 (Audio.pause a)) <$> audio m in
    let a := Audio.set_muted wasMuted
               (Audio.set_volume (volume m)
                  (Audio.set_loop true (Audio.new (get (tracks m) name)))) in
    let m' := {| audio := Some a; volume := volume m;
                 currentTrack := Some name; tracks := tracks m;
                 detached := match stopped with
                             | Some o => o :: detached m
                             | None => detached m
                             end |} in
    if wasPlaying || negb (bool_decide (currentTrack m' = Some "none"%string))
    then play allowed m' else m'.

Definition getCurrentTrack (m : t) : option string := currentTrack m.

(** [this.audio.paused] of a manager without element throws: [None]. *)
Definition toggle (allowed : bool) (m : t) : option t :=
  match audio m with
  | None => None
  | Some a => Some (if Audio.paused a then play allowed m else pause m)
  end.

Definition setVolume (vol : Q) (m : t) : t :=
  let v := Qmax 0 (Qmin 1 vol) in
  {| audio := Audio.set_volume v <$> audio m; volume := v;
     currentTrack := currentTrack m; tracks := tracks m;
     detached := detached m |}.

Definition getVolume (m : t) : Q := volume m.

Definition volumeUp (m : t) : t := setVolume (volume m + 0.1) m.

Definition volumeDown (m : t) : t := setVolume (volume m - 0.1) m.

Definition mute (m : t) : t * bool :=
  match audio m with
  | Some a =>
      (set_audio (Some (Audio.set_muted (negb (Audio.muted a)) a)) m,
       negb (Audio.muted a))
  | None => (m, false)
  end.

Definition isMuted (m : t) : bool :=
  match audio m with Some a => Audio.muted a | None => false end.

(** A call of a method other than [init]; the booleans say whether the
    browser lets a [play()] of that call start. *)
Inductive Call :=
  | AddTrack (name url : string)
  | SwitchTrack (name : string) (allowed : bool)
  | Play (allowed : bool)
  | Pause
  | Toggle (allowed : bool)
  | SetVolume (vol : Q)
  | VolumeUp
  | VolumeDown
  | Mute.

(** A call that throws leaves the manager as it was. *)
Definition call (m : t) (c : Call) : t :=
  match c with
  | AddTrack name url => addTrack name url m
  | SwitchTrack name allowed => switchTrack name allowed m
  | Play allowed => play allowed m
  | Pause => pause m
  | Toggle allowed => default m (toggle allowed m)
  | SetVolume vol => setVolume vol m
  | VolumeUp => volumeUp m
  | VolumeDown => volumeDown m
  | Mute => (mute m).1
  end.

Definition calls (m : t) (cs : list Call) : t := foldl call m cs.

(** The element that the manager refers to is not playing. *)
Definition silent (m : t) : Prop :=
  forall a, audio m = Some a -> Audio.paused a = true.

(** What holds of the manager after any calls. *)
Record consistent (m : t) : Prop := {
  volume_range : (0 <= volume m <= 1)%Q;
  audio_settings : forall a, audio m = Some a ->
    Audio.volume a = volume m /\ Audio.loop a = true;
  none_silent : currentTrack m = Some "none"%string -> silent m;
  detached_paused : Forall (fun a => Audio.paused a = true) (detached m);
}.

(** The call does not select a track. *)
Definition keeps_track (c : Call) : Prop :=
  match c with
  | SwitchTrack name _ => name = "none"%string
  | _ => True
  end.

End AudioManager.

(** *** Restoring the music of a saved session ([main.js])

    The [audio] part of the state that [saveState] stores: the track
    ([null] when there was none), whether the element was paused and muted,
    and the volume ([None] when the stored state has none). *)
Module SavedAudio.

Record t := {
  track : option string;
  paused : bool;
  muted : bool;
  volume : option Q;
}.

End SavedAudio.

(** The synchronous part of [ensureAudioPlaying]; the listeners that it
    installs to call [play] again at the next click, key or touch are not
    modelled. *)
Definition ensureAudioPlaying (allowed : bool) (m : AudioManager.t)
    : AudioManager.t :=
  match AudioManager.audio m with
  | None => m
  | Some a => if negb (Audio.paused a) then m else AudioManager.play allowed m
  end.

(** The statements of [initApp] that restore the music when the saved state
    has an [audio] part. *)
Definition restoreAudio (saved : SavedAudio.t) (allowed allowed' : bool)
    (m : AudioManager.t) : AudioManager.t :=
  let m := match SavedAudio.track saved with
           | Some name =>
               if bool_decide (name = ""%string) then m
               else AudioManager.switchTrack name allowed m
           | None => m
           end in
  let m := AudioManager.setVolume (default 0.5%Q (SavedAudio.volume saved)) m in
  let m := AudioManager.set_audio
             (Audio.set_muted (SavedAudio.muted saved) <$> AudioManager.audio m)
             m in
  if negb (SavedAudio.paused saved) then ensureAudioPlaying allowed' m else m.

(* ================================================================= *)
(** ** [extractColors], the palette of an image

    The function reads the pixels of the image through a canvas; here it
    takes the buffer. The key of [colorMap] is the string
    [`${qr},${qg},${qb}`], which is only ever split back into its three
    numbers: the map is keyed by the triple. A channel that is [undefined]
    quantizes to [NaN], here [None]. The object keeps its keys in the order
    of their first assignment, and [sort] is stable. *)

(** [Math.round(v / 32) * 32]: the quotient by 32 and the half added by
    [Math.round] are exact in binary64. *)
Definition quantize (v : option Z) : option Z :=
  (fun v => (v + 16) / 32 * 32) <$> v.

Definition Key : Type := option Z * option Z * option Z.

(** [colorMap[key] = (colorMap[key] || 0) + 1] *)
Fixpoint count_key (colorMap : list (Key * Z)) (key : Key) : list (Key * Z) :=
  match colorMap with
  | [] => [(key, 0 + 1)]
  | (k, n) :: colorMap =>
      if bool_decide (k = key)
      then (k, (if n =? 0 then 0 else n) + 1) :: colorMap
      else (k, n) :: count_key colorMap key
  end.

(** [a < 128], false for [undefined]. *)
Definition transparent (a : option Z) : bool :=
  match a with
  | Some a => a <? 128
  | None => false
  end.

Definition key_at (imageData : list Z) (i : Z) : Key :=
  (quantize (rd imageData i), quantize (rd imageData (i + 1)),
   quantize (rd imageData (i + 2))).

(** Body of [for (let i = 0; i < imageData.length; i += 40)]. *)
Definition sample (imageData : list Z) (colorMap : list (Key * Z)) (i : Z)
    : list (Key * Z) :=
  if transparent (rd imageData (i + 3)) then colorMap
  else count_key colorMap (key_at imageData i).

(** The values of [i]: [0, 40, 80, ...] below [n]. *)
Definition sample_offsets (n : nat) : list Z :=
  (fun k : nat => 40 * Z.of_nat k) <$> seq 0 ((n + 39) / 40).

(** [entries.sort((a, b) => b[1] - a[1])]: by count, largest first, entries
    of equal count in their order in [entries]. *)
Fixpoint insert_entry (x : Key * Z) (l : list (Key * Z)) : list (Key * Z) :=
  match l with
  | [] => [x]
  | y :: l' => if x.2 <? y.2 then y :: insert_entry x l' else x :: y :: l'
  end.

Definition sort_entries (l : list (Key * Z)) : list (Key * Z) :=
  foldr insert_entry [] l.

(** [l.slice(0, n)] *)
Definition slice0 {A} (l : list A) (n : Z) : list A :=
  if n <? 0 then take (Z.to_nat (Z.of_nat (length l) + n)) l
  else take (Z.to_nat n) l.

Definition hex_digit (d : Z) : ascii :=
  nth (Z.to_nat d) (String.list_ascii_of_string "0123456789abcdef") "0"%char.

Fixpoint hex_digits (fuel : nat) (n : Z) (acc : string) : string :=
  match fuel with
  | O => acc
  | S fuel =>
      let acc := String (hex_digit (n mod 16)) acc in
      if n / 16 =? 0 then acc else hex_digits fuel (n / 16) acc
  end.

(** [n.toString(16)] for an integer or [NaN]. *)
Definition toString16 (n : option Z) : string :=
  match n with
  | None => "NaN"
  | Some n =>
      if n <? 0
      then String "-"%char
             (hex_digits (S (Z.to_nat (Z.log2 (- n)))) (- n) EmptyString)
      else hex_digits (S (Z.to_nat (Z.log2 n))) n EmptyString
  end.

(** [s.padStart(2, '0')] *)
Definition padStart2 (s : string) : string :=
  match s with
  | EmptyString => "00"
  | String c EmptyString => String "0"%char s
  | _ => s
  end.

(** [`#${r.toString(16).padStart(2, '0')}${g...}${b...}`] *)
Definition colour_string (key : Key) : string :=
  String "#"%char
    (padStart2 (toString16 key.1.1) +:+ padStart2 (toString16 key.1.2)
     +:+ padStart2 (toString16 key.2)).

Definition extractColors (imageData : list Z) (colorCount : Z) : list string :=
  let colorMap := foldl (sample imageData) [] (sample_offsets (length imageData)) in
  (fun entry : Key * Z => colour_string entry.1)
    <$> slice0 (sort_entries colorMap) colorCount.

(** The number of sampled pixels that are counted under [key]. *)
Definition occurrences (imageData : list Z) (key : Key) (offs : list Z) : Z :=
  Z.of_nat (length (filter (fun i => transparent (rd imageData (i + 3)) = false
                                      /\ key_at imageData i = key) offs)).

(** [colorMap[key] || 0] *)
Fixpoint lookup_count (colorMap : list (Key * Z)) (key : Key) : Z :=
  match colorMap with
  | [] => 0
  | (k, n) :: colorMap =>
      if bool_decide (k = key) then n else lookup_count colorMap key
  end.


(* ================================================================= *)
(** * Scenarios of the binariser *)

(** Threshold 200: of nine pixels, one of grey level 150 and eight of grey
    level 220, exactly the one becomes black. *)
Example scenario_B_check :
  let px (v : Z) := [v; v; v; 255] in
  let img := px 220 ++ px 220 ++ px 220
          ++ px 220 ++ px 150 ++ px 220
          ++ px 220 ++ px 220 ++ px 220 in
  let bl := px 0 in let wh := px 255 in
  createHighQualityLineArt 3 3 img 200%float 0 =
    wh ++ wh ++ wh ++ wh ++ bl ++ wh ++ wh ++ wh ++ wh.
Proof. vm_compute. reflexivity. Qed.

(* ================================================================= *)
(** * Typed-array reads and writes *)

Lemma length_wr d i v : length (wr d i v) = length d.
Proof. unfold wr. destruct (i <? 0); [done | apply length_insert]. Qed.

Lemma rd_nat (d : list Z) (n : nat) : rd d (Z.of_nat n) = d !! n.
Proof.
  unfold rd. destruct (Z.ltb_spec (Z.of_nat n) 0); [lia |].
  by rewrite Nat2Z.id.
Qed.

Lemma rd_is_Some d i : is_Some (rd d i) <-> 0 <= i < Z.of_nat (length d).
Proof.
  unfold rd. destruct (Z.ltb_spec i 0).
  - split; [intros [? ?]; discriminate | lia].
  - rewrite lookup_lt_is_Some. lia.
Qed.

Lemma rd_None d i : rd d i = None <-> ~ (0 <= i < Z.of_nat (length d)).
Proof. rewrite <- rd_is_Some, eq_None_not_Some. done. Qed.

Lemma rd_Some_range d i v : rd d i = Some v -> 0 <= i < Z.of_nat (length d).
Proof. intros H. apply rd_is_Some. eauto. Qed.

Lemma rd_wr_eq d i v :
  0 <= i < Z.of_nat (length d) -> rd (wr d i v) i = Some (clamp8 v).
Proof.
  intros H. unfold rd, wr. destruct (Z.ltb_spec i 0); [lia |].
  apply list_lookup_insert_eq. lia.
Qed.

Lemma rd_wr_ne d i v j : i <> j -> rd (wr d i v) j = rd d j.
Proof.
  intros H. unfold rd, wr.
  destruct (Z.ltb_spec j 0); [done |].
  destruct (Z.ltb_spec i 0); [done |].
  apply list_lookup_insert_ne. lia.
Qed.

Lemma rd_wr d i v j :
  rd (wr d i v) j =
    if bool_decide (i = j /\ 0 <= j < Z.of_nat (length d))
    then Some (clamp8 v) else rd d j.
Proof.
  case_bool_decide as H.
  - destruct H as [-> H]. by apply rd_wr_eq.
  - destruct (decide (i = j)) as [-> | Hne].
    + assert (Hn : rd d j = None) by (apply rd_None; tauto).
      rewrite Hn. apply rd_None. rewrite length_wr. tauto.
    + by apply rd_wr_ne.
Qed.

Lemma rd_ext (a b : list Z) : (forall i, rd a i = rd b i) -> a = b.
Proof.
  intros H. apply list_eq. intros n. rewrite <- !rd_nat. apply H.
Qed.

Lemma clamp8_id v : 0 <= v <= 255 -> clamp8 v = v.
Proof. unfold clamp8. lia. Qed.

Lemma elem_of_zrange lo hi k : k ∈ zrange lo hi <-> lo <= k <= hi.
Proof.
  unfold zrange. rewrite list_elem_of_fmap. split.
  - intros (n & -> & Hn). apply elem_of_seq in Hn. lia.
  - intros H. exists (Z.to_nat (k - lo)). split; [lia |].
    apply elem_of_seq. lia.
Qed.

Lemma foldl_ext_fun {A B} (f g : A -> B -> A) (l : list B) (a : A) :
  (forall acc x, f acc x = g acc x) -> foldl f a l = foldl g a l.
Proof.
  intros H. revert a. induction l as [| x l IH]; intros a; [done |].
  cbn. by rewrite H, IH.
Qed.

Lemma foldl_bind {A B C} (f : A -> B -> A) (g : C -> list B) (l : list C) (a : A) :
  foldl f a (l ≫= g) = foldl (fun acc x => foldl f acc (g x)) a l.
Proof.
  revert a. induction l as [| x l IH]; intros a; [done |].
  cbn. rewrite foldl_app. apply IH.
Qed.

(* ================================================================= *)
(** * Binarisation *)

Lemma binary_of_clamp t b : clamp8 (binary_of t b) = binary_of t b.
Proof. unfold binary_of. by destruct (PrimFloat.ltb b t). Qed.

Lemma length_binarize_step t d i : length (binarize_step t d i) = length d.
Proof. unfold binarize_step. by rewrite !length_wr. Qed.

Lemma rd_binarize_step_other t d i j :
  ~ (i <= j <= i + 3) -> rd (binarize_step t d i) j = rd d j.
Proof.
  intros H. unfold binarize_step. rewrite !rd_wr_ne by lia. done.
Qed.

Lemma rd_binarize_step_colour t d i c :
  0 <= c <= 2 -> 0 <= i + c < Z.of_nat (length d) ->
  rd (binarize_step t d i) (i + c) = Some (binary_of t (brightness d i)).
Proof.
  intros Hc Hr. unfold binarize_step.
  rewrite !rd_wr, !length_wr.
  repeat case_bool_decide; rewrite ?binary_of_clamp; try done; lia.
Qed.

Lemma rd_binarize_step_alpha t d i :
  0 <= i + 3 < Z.of_nat (length d) ->
  rd (binarize_step t d i) (i + 3) = Some 255.
Proof.
  intros Hr. unfold binarize_step.
  rewrite rd_wr, !length_wr. case_bool_decide; [done | lia].
Qed.

Lemma brightness_binarize_step_other t d i b :
  ~ (i - 2 <= b <= i + 3) ->
  brightness (binarize_step t d i) b = brightness d b.
Proof.
  intros H. unfold brightness.
  rewrite !rd_binarize_step_other by lia. done.
Qed.

Lemma length_foldl_binarize t offs d :
  length (foldl (binarize_step t) d offs) = length d.
Proof.
  revert d. induction offs as [| i offs IH]; intros d; [done |].
  cbn. by rewrite IH, length_binarize_step.
Qed.

Lemma rd_foldl_binarize_other t offs : forall d b c,
  Forall aligned offs -> aligned b -> 0 <= c <= 3 -> b ∉ offs ->
  rd (foldl (binarize_step t) d offs) (b + c) = rd d (b + c).
Proof.
  induction offs as [| i offs IH]; intros d b c Hal Hb Hc Hnin; [done |].
  cbn. apply Forall_cons in Hal as [[k ->] Hal].
  apply not_elem_of_cons in Hnin as [Hne Hnin].
  rewrite IH by done. destruct Hb as [k' ->].
  apply rd_binarize_step_other. lia.
Qed.

Lemma brightness_foldl_binarize_other t offs : forall d b,
  Forall aligned offs -> aligned b -> b ∉ offs ->
  brightness (foldl (binarize_step t) d offs) b = brightness d b.
Proof.
  intros d b Hal Hb Hnin. unfold brightness.
  rewrite <- (Z.add_0_r b) at 1.
  rewrite !rd_foldl_binarize_other by (done || lia).
  by rewrite Z.add_0_r.
Qed.

Lemma rd_foldl_binarize_colour t offs : forall d b c,
  Forall aligned offs -> NoDup offs -> aligned b -> b ∈ offs ->
  0 <= c <= 2 -> 0 <= b + c < Z.of_nat (length d) ->
  rd (foldl (binarize_step t) d offs) (b + c)
  = Some (binary_of t (brightness d b)).
Proof.
  induction offs as [| i offs IH]; intros d b c Hal Hnd Hb Hin Hc Hr.
  { by apply not_elem_of_nil in Hin. }
  cbn. apply Forall_cons in Hal as [Hi Hal].
  apply NoDup_cons in Hnd as [Hni Hnd].
  apply elem_of_cons in Hin as [-> | Hin].
  - rewrite rd_foldl_binarize_other by (done || lia).
    by apply rd_binarize_step_colour.
  - rewrite IH by (rewrite ?length_binarize_step; done).
    destruct Hi as [k ->], Hb as [k' ->].
    rewrite brightness_binarize_step_other; [done |].
    intros ?. assert (k = k') by lia. subst. done.
Qed.

Lemma rd_foldl_binarize_alpha t offs : forall d b,
  Forall aligned offs -> NoDup offs -> aligned b -> b ∈ offs ->
  0 <= b + 3 < Z.of_nat (length d) ->
  rd (foldl (binarize_step t) d offs) (b + 3) = Some 255.
Proof.
  induction offs as [| i offs IH]; intros d b Hal Hnd Hb Hin Hr.
  { by apply not_elem_of_nil in Hin. }
  cbn. apply Forall_cons in Hal as [Hi Hal].
  apply NoDup_cons in Hnd as [Hni Hnd].
  apply elem_of_cons in Hin as [-> | Hin].
  - rewrite rd_foldl_binarize_other by (done || lia).
    by apply rd_binarize_step_alpha.
  - apply IH; rewrite ?length_binarize_step; done.
Qed.

Lemma pixel_offsets_aligned n : Forall aligned (pixel_offsets n).
Proof.
  unfold pixel_offsets. apply Forall_fmap, Forall_forall.
  intros k _. by exists (Z.of_nat k).
Qed.

Lemma pixel_offsets_NoDup n : NoDup (pixel_offsets n).
Proof.
  unfold pixel_offsets. apply NoDup_fmap_2; [| apply NoDup_seq].
  intros a b H. lia.
Qed.

Lemma elem_of_pixel_offsets n k :
  0 <= k -> 4 * k + 3 < Z.of_nat n -> 4 * k ∈ pixel_offsets n.
Proof.
  intros Hk Hn. unfold pixel_offsets. apply list_elem_of_fmap.
  exists (Z.to_nat k). split; [lia |]. apply elem_of_seq.
  split; [lia |]. rewrite Nat.add_0_l.
  apply (Nat.div_le_lower_bound (n + 3) 4 (S (Z.to_nat k))); lia.
Qed.

(** C3 (as amended). For every image buffer and every threshold, binarisation
    (step 1 of [createHighQualityLineArt], which is the whole function when
    [dilationRadius] is 0) maps each pixel [(r, g, b, a)] to pure black
    [(0, 0, 0, 255)] when its luminance [0.299 r + 0.587 g + 0.114 b], computed
    in binary64 as the code does, is strictly below the threshold, and to
    pure white [(255, 255, 255, 255)] otherwise; the buffer keeps its
    length. *)
Theorem binarize_black_iff_below_threshold
    (threshold : float) (data : list Z) (k r g b : Z) :
  0 <= k -> 4 * k + 3 < Z.of_nat (length data) ->
  rd data (4 * k) = Some r ->
  rd data (4 * k + 1) = Some g ->
  rd data (4 * k + 2) = Some b ->
  let out := binarize threshold data in
  let v := if PrimFloat.ltb (luminance r g b) threshold then 0 else 255 in
  rd out (4 * k) = Some v /\ rd out (4 * k + 1) = Some v
  /\ rd out (4 * k + 2) = Some v /\ rd out (4 * k + 3) = Some 255
  /\ (v = 0 <-> PrimFloat.ltb (luminance r g b) threshold = true)
  /\ (v = 255 <-> PrimFloat.ltb (luminance r g b) threshold = false)
  /\ length out = length data
  /\ (forall width height,
        createHighQualityLineArt width height data threshold 0 = out).
Proof.
  intros Hk Hlen Hr Hg Hb out v.
  assert (Hbr : binary_of threshold (brightness data (4 * k)) = v).
  { unfold binary_of, brightness, v, luminance. by rewrite Hr, Hg, Hb. }
  assert (Hin : 4 * k ∈ pixel_offsets (length data))
    by (by apply elem_of_pixel_offsets).
  assert (Hal : aligned (4 * k)) by (by exists k).
  pose proof (pixel_offsets_aligned (length data)) as Hall.
  pose proof (pixel_offsets_NoDup (length data)) as Hnd.
  subst out. unfold binarize.
  split; [| split; [| split; [| split; [| split; [| split; [| split]]]]]].
  - rewrite <- (Z.add_0_r (4 * k)) at 1.
    rewrite rd_foldl_binarize_colour by (done || lia).
    by rewrite Hbr.
  - rewrite rd_foldl_binarize_colour by (done || lia). by rewrite Hbr.
  - rewrite rd_foldl_binarize_colour by (done || lia). by rewrite Hbr.
  - apply rd_foldl_binarize_alpha; done || lia.
  - subst v. destruct (PrimFloat.ltb _ _); split; done.
  - subst v. destruct (PrimFloat.ltb _ _); split; done.
  - apply length_foldl_binarize.
  - done.
Qed.

(* ================================================================= *)
(** * Dilation *)

Lemma painted_idem alpha o c : painted alpha (painted alpha o c) c = painted alpha o c.
Proof. destruct o as [v |]; [| done]. cbn. by destruct (c <=? 2), alpha. Qed.

Lemma length_blacken alpha d n : length (blacken alpha d n) = length d.
Proof. unfold blacken. destruct alpha; by rewrite !length_wr. Qed.

Lemma rd_blacken_other alpha d n j :
  ~ (n <= j <= n + 3) -> rd (blacken alpha d n) j = rd d j.
Proof.
  intros H. unfold blacken. destruct alpha; rewrite !rd_wr_ne by lia; done.
Qed.

Lemma rd_blacken_same alpha d n c :
  0 <= c <= 3 -> rd (blacken alpha d n) (n + c) = painted alpha (rd d (n + c)) c.
Proof.
  intros Hc. destruct (rd d (n + c)) as [v |] eqn:Hv.
  - apply rd_Some_range in Hv as Hr. unfold blacken, painted.
    destruct alpha; rewrite !rd_wr, !length_wr;
      repeat case_bool_decide; destruct (Z.leb_spec c 2);
      try done; try lia.
  - apply rd_None in Hv. cbn. apply rd_None. by rewrite length_blacken.
Qed.

Lemma rd_foldl_blacken alpha ts : forall d b c,
  Forall aligned ts -> aligned b -> 0 <= c <= 3 ->
  rd (foldl (blacken alpha) d ts) (b + c)
  = if bool_decide (b ∈ ts) then painted alpha (rd d (b + c)) c else rd d (b + c).
Proof.
  induction ts as [| n ts IH]; intros d b c Hal Hb Hc.
  { cbn. case_bool_decide as H; [by apply not_elem_of_nil in H | done]. }
  cbn. apply Forall_cons in Hal as [Hn Hal]. rewrite IH by done.
  destruct (decide (b = n)) as [-> | Hne].
  - rewrite rd_blacken_same by done.
    rewrite (bool_decide_eq_true_2 (n ∈ n :: ts)) by apply list_elem_of_here.
    case_bool_decide; [apply painted_idem | done].
  - destruct Hn as [k Hk]. destruct Hb as [k' Hk']. subst n b.
    rewrite rd_blacken_other by lia.
    assert (Hiff : 4 * k' ∈ ts <-> 4 * k' ∈ 4 * k :: ts).
    { rewrite elem_of_cons. split; [by right | intros [? | ?]; [lia | done]]. }
    by rewrite (bool_decide_ext _ _ Hiff).
Qed.

Lemma foldl_dilate_pixel_targets order alpha width height kernel data : forall out,
  foldl (dilate_pixel alpha width height kernel data) out order
  = foldl (blacken alpha) out (targets order width height kernel data).
Proof.
  unfold targets. induction order as [| p order IH]; intros out; [done |].
  cbn. rewrite foldl_app, IH. f_equal. unfold dilate_pixel.
  destruct (is_black data _); [| done].
  rewrite foldl_bind. apply foldl_ext_fun. intros acc k. unfold spread.
  by destruct (in_image _ _ _ _).
Qed.

Lemma dilate_along_targets order alpha width height radius data :
  dilate_along order alpha width height radius data
  = foldl (blacken alpha) data
      (targets order width height (disk_kernel radius) data).
Proof. apply foldl_dilate_pixel_targets. Qed.

Lemma targets_aligned order width height kernel data :
  Forall aligned (targets order width height kernel data).
Proof.
  apply Forall_forall. intros t Ht. unfold targets in Ht.
  apply list_elem_of_bind in Ht as (p & Ht & _).
  destruct (is_black data _); [| by apply not_elem_of_nil in Ht].
  apply list_elem_of_bind in Ht as (k & Ht & _).
  destruct (in_image _ _ _ _); [| by apply not_elem_of_nil in Ht].
  apply list_elem_of_singleton in Ht as ->.
  exists ((p.2 + k.2) * width + (p.1 + k.1)). lia.
Qed.

Lemma elem_of_targets order width height kernel data t :
  t ∈ targets order width height kernel data <->
  exists p k, p ∈ order /\ k ∈ kernel
    /\ is_black data ((p.2 * width + p.1) * 4) = true
    /\ in_image width height (p.1 + k.1) (p.2 + k.2) = true
    /\ t = ((p.2 + k.2) * width + (p.1 + k.1)) * 4.
Proof.
  unfold targets. rewrite list_elem_of_bind. split.
  - intros (p & Ht & Hp).
    destruct (is_black data _) eqn:Hb; [| by apply not_elem_of_nil in Ht].
    apply list_elem_of_bind in Ht as (k & Ht & Hk).
    destruct (in_image _ _ _ _) eqn:Hi; [| by apply not_elem_of_nil in Ht].
    apply list_elem_of_singleton in Ht. by exists p, k.
  - intros (p & k & Hp & Hk & Hb & Hi & ->). exists p. split; [| done].
    rewrite Hb. apply list_elem_of_bind. exists k. split; [| done].
    rewrite Hi. apply list_elem_of_here.
Qed.

Lemma elem_of_disk_kernel r dx dy :
  0 <= r -> (dx, dy) ∈ disk_kernel r <-> dx * dx + dy * dy <= r * r.
Proof.
  intros Hr. unfold disk_kernel. rewrite list_elem_of_bind. split.
  - intros (dy' & H & _). apply list_elem_of_bind in H as (dx' & H & _).
    case_bool_decide as Hd; [| by apply not_elem_of_nil in H].
    apply list_elem_of_singleton in H. by inversion H; subst.
  - intros H. exists dy. split; [| apply elem_of_zrange; nia].
    apply list_elem_of_bind. exists dx. split; [| apply elem_of_zrange; nia].
    rewrite bool_decide_eq_true_2 by done. apply list_elem_of_here.
Qed.

Lemma elem_of_scan_order width height x y :
  (x, y) ∈ scan_order width height <-> 0 <= x < width /\ 0 <= y < height.
Proof.
  unfold scan_order. rewrite list_elem_of_bind. split.
  - intros (y' & H & Hy). apply list_elem_of_bind in H as (x' & H & Hx).
    apply list_elem_of_singleton in H. inversion H; subst.
    apply elem_of_zrange in Hx, Hy. lia.
  - intros [Hx Hy]. exists y. split; [| apply elem_of_zrange; lia].
    apply list_elem_of_bind. exists x. split; [| apply elem_of_zrange; lia].
    apply list_elem_of_here.
Qed.

Lemma in_image_true width height x y :
  in_image width height x y = true <-> 0 <= x < width /\ 0 <= y < height.
Proof. unfold in_image. rewrite !andb_true_iff. lia. Qed.

Lemma is_black_true d i : is_black d i = true <-> rd d i = Some 0.
Proof. unfold is_black. apply bool_decide_eq_true. Qed.

Lemma pixel_index_inj width x y x' y' :
  0 <= x < width -> 0 <= x' < width ->
  (y * width + x) * 4 = (y' * width + x') * 4 -> x = x' /\ y = y'.
Proof.
  intros Hx Hx' H. assert (y = y') by nia. subst. lia.
Qed.

Lemma pixel_index_range width height x y :
  0 <= x < width -> 0 <= y < height ->
  0 <= y * width + x < width * height.
Proof. intros Hx Hy. nia. Qed.

Lemma dilate_along_same_pixels o1 o2 alpha width height radius data :
  (forall p, p ∈ o1 <-> p ∈ o2) ->
  dilate_along o1 alpha width height radius data
  = dilate_along o2 alpha width height radius data.
Proof.
  intros Ho. rewrite !dilate_along_targets. apply rd_ext. intros j.
  destruct (Z.ltb_spec j 0) as [Hneg | Hpos].
  { unfold rd. by destruct (Z.ltb_spec j 0); [| lia]. }
  assert (Hj : j = 4 * (j / 4) + j mod 4) by (apply Z.div_mod; lia).
  assert (Hc : 0 <= j mod 4 <= 3) by (pose proof (Z.mod_pos_bound j 4); lia).
  rewrite Hj.
  rewrite !rd_foldl_blacken
    by (done || apply targets_aligned || by exists (j / 4)).
  apply (f_equal (fun b : bool => if b then _ else _)).
  apply bool_decide_ext. rewrite !elem_of_targets.
  split; intros (p & k & Hp & H); exists p, k; (split; [by apply Ho | done]).
Qed.

(** C4. Dilation by a radius [r > 0] of a [width × height] buffer, in both
    [createHighQualityLineArt] and [applyDilation]: an output pixel is black
    exactly when some input pixel at an offset [(dx, dy)] with
    [dx² + dy² ≤ r²], inside the image, was black in the input buffer; and
    visiting the pixels in any other order gives the same output buffer (the
    test reads the input only, the writes go to the copy). *)
Theorem dilate_black_iff_black_within_disk
    (alpha : bool) (width height r : Z) (data : list Z) (x y : Z) :
  0 < r ->
  Z.of_nat (length data) = 4 * (width * height) ->
  0 <= x < width -> 0 <= y < height ->
  (is_black (dilate alpha width height r data) ((y * width + x) * 4) = true
   <-> exists dx dy,
         dx * dx + dy * dy <= r * r
         /\ 0 <= x + dx < width /\ 0 <= y + dy < height
         /\ is_black data (((y + dy) * width + (x + dx)) * 4) = true)
  /\ (forall order, order ≡ₚ scan_order width height ->
        dilate_along order alpha width height r data
        = dilate alpha width height r data).
Proof.
  intros Hr Hlen Hx Hy. split.
  - unfold dilate. rewrite dilate_along_targets, is_black_true.
    pose proof (pixel_index_range width height x y Hx Hy) as Hidx.
    rewrite <- (Z.add_0_r ((y * width + x) * 4)) at 1.
    rewrite rd_foldl_blacken;
      [| apply targets_aligned | exists (y * width + x); lia | lia].
    rewrite Z.add_0_r.
    destruct (rd data ((y * width + x) * 4)) as [v |] eqn:Hv;
      [| apply rd_None in Hv; lia].
    case_bool_decide as Ht.
    + cbn. split; [intros _ | done].
      apply elem_of_targets in Ht as ([px py] & [kx ky] & Hp & Hk & Hb & Hi & Heq).
      cbn in *. apply in_image_true in Hi as [Hix Hiy].
      apply elem_of_scan_order in Hp as [Hpx Hpy].
      apply elem_of_disk_kernel in Hk; [| lia].
      apply pixel_index_inj in Heq as [-> ->]; [| done | done].
      exists (- kx), (- ky).
      replace (px + kx + - kx) with px by lia.
      replace (py + ky + - ky) with py by lia.
      repeat split; try lia. done.
    + split.
      * intros [= ->]. exists 0, 0. rewrite !Z.add_0_r, is_black_true.
        repeat split; try lia. done.
      * intros (dx & dy & Hd & Hdx & Hdy & Hb). exfalso. apply Ht.
        apply elem_of_targets. exists (x + dx, y + dy), (- dx, - dy). cbn.
        split; [by apply elem_of_scan_order |].
        split; [apply elem_of_disk_kernel; lia |].
        split; [done |].
        split; [apply in_image_true; lia |].
        f_equal. f_equal; lia.
  - intros order Hperm. unfold dilate. apply dilate_along_same_pixels.
    intros p. by rewrite Hperm.
Qed.

(* ================================================================= *)
(** * Viewport *)

Lemma steppedZoom_range z dY :
  (1 # 10 <= steppedZoom z dY)%Q /\ (steppedZoom z dY <= 5)%Q.
Proof.
  unfold steppedZoom. split.
  - apply Q.le_max_l.
  - apply Q.max_lub; [lra | apply Q.le_min_l].
Qed.

Lemma sign_pos q : (0 < q)%Q -> sign q = 1%Q.
Proof.
  intros H. unfold sign.
  assert (H' : (q ?= 0)%Q = Gt) by (by apply Qgt_alt). by rewrite H'.
Qed.

Lemma sign_neg q : (q < 0)%Q -> sign q = (-1)%Q.
Proof.
  intros H. unfold sign.
  assert (H' : (q ?= 0)%Q = Lt) by (by apply Qlt_alt). by rewrite H'.
Qed.

Lemma zoom_handleWheel e ev :
  (zoom (handleWheel e ev) == steppedZoom (zoom e) (deltaY ev))%Q.
Proof.
  unfold handleWheel.
  destruct (Qeq_bool _ _) eqn:Heq; [| reflexivity].
  apply Qeq_bool_iff in Heq. by symmetry.
Qed.

(** C8 (as amended). After every wheel event the zoom lies in [0.1, 5];
    [fitToScreen] bounds the zoom from above only, by 0.9. *)
Theorem zoom_bounds :
  (forall e ev, (1 # 10 <= zoom (handleWheel e ev))%Q
                /\ (zoom (handleWheel e ev) <= 5)%Q)
  /\ (forall e wrapper, (zoom (fitToScreen e wrapper) <= 9 # 10)%Q).
Proof.
  split.
  - intros e ev. rewrite zoom_handleWheel. apply steppedZoom_range.
  - intros e wrapper. cbn. apply Q.le_min_r.
Qed.

(** C6. A wheel event at the screen point [(sx, sy)] of the wrapper, on a
    viewport whose zoom is not zero: the zoom becomes the old zoom stepped by
    0.1 against the sign of [deltaY] and clamped to [0.1, 5]; when that equals
    the old zoom the editor is unchanged; and in every case the content point
    that was under [(sx, sy)] is mapped back to [(sx, sy)] by the new zoom and
    pan, and is the content point under [(sx, sy)] afterwards. *)
Theorem handleWheel_anchor (e : Editor) (ev : WheelEvent) :
  ~ (zoom e == 0)%Q ->
  let e' := handleWheel e ev in
  let sx := (wheelX ev - left (wrapperRect ev))%Q in
  let sy := (wheelY ev - top (wrapperRect ev))%Q in
  let cx := ((sx - panX e) / zoom e)%Q in
  let cy := ((sy - panY e) / zoom e)%Q in
  (zoom e' == steppedZoom (zoom e) (deltaY ev))%Q
  /\ ((0 < deltaY ev)%Q ->
        (zoom e' == Qmax (1 # 10) (Qmin 5 (zoom e - (1 # 10))))%Q)
  /\ ((deltaY ev < 0)%Q ->
        (zoom e' == Qmax (1 # 10) (Qmin 5 (zoom e + (1 # 10))))%Q)
  /\ (1 # 10 <= zoom e')%Q /\ (zoom e' <= 5)%Q
  /\ ((steppedZoom (zoom e) (deltaY ev) == zoom e)%Q -> e' = e)
  /\ (cx * zoom e' + panX e' == sx)%Q
  /\ (cy * zoom e' + panY e' == sy)%Q
  /\ ((sx - panX e') / zoom e' == cx)%Q
  /\ ((sy - panY e') / zoom e' == cy)%Q.
Proof.
  intros Hz e' sx sy cx cy.
  pose proof (zoom_handleWheel e ev) as Hzoom. fold e' in Hzoom.
  pose proof (steppedZoom_range (zoom e) (deltaY ev)) as [Hlo Hhi].
  assert (Hz' : ~ (zoom e' == 0)%Q) by (rewrite Hzoom; lra).
  split; [done |].
  split.
  { intros Hd. rewrite Hzoom. unfold steppedZoom. rewrite (sign_pos _ Hd).
    apply Q.max_compat; [reflexivity |]. apply Q.min_compat; [reflexivity |].
    ring. }
  split.
  { intros Hd. rewrite Hzoom. unfold steppedZoom. rewrite (sign_neg _ Hd).
    apply Q.max_compat; [reflexivity |]. apply Q.min_compat; [reflexivity |].
    ring. }
  split; [by rewrite Hzoom |]. split; [by rewrite Hzoom |].
  split.
  { intros Heq. subst e'. unfold handleWheel.
    apply Qeq_bool_iff in Heq. by rewrite Heq. }
  assert (Hpan : (panX e' == sx - cx * zoom e')%Q /\ (panY e' == sy - cy * zoom e')%Q).
  { subst e'. unfold handleWheel in *.
    destruct (Qeq_bool _ _) eqn:Heq; cbn.
    - subst cx cy. split; field; done.
    - split; reflexivity. }
  destruct Hpan as [Hpx Hpy].
  split; [rewrite Hpx; ring |]. split; [rewrite Hpy; ring |].
  split; [rewrite Hpx | rewrite Hpy]; field; done.
Qed.

(* ================================================================= *)
(** * Pointer handlers *)

Section HandlerFacts.

Variable rasterize :
  Z -> Z -> list (list (Q * Q)) -> Color -> Q -> list Z -> list Z.

Lemma mode_floodFill e x y c u : mode (floodFill e x y c u) = mode e.
Proof.
  unfold floodFill.
  destruct (isLineBoundary _ _ _); [done |].
  destruct (alreadyFilled _ _ _ _ _); [done |].
  by destruct (fillSet _ _ _ _).
Qed.

Lemma mode_handle e ev : mode (handle rasterize e ev) = mode e.
Proof.
  destruct ev as [ev | ev | | ev]; cbn.
  - unfold handleStart.
    destruct (_ && _); [done |]. destruct (_ || _); [done |].
    cbn. destruct (bool_decide (mode e = fill)); cbn.
    + unfold floodFill_at. destruct (getCoords _ ev) as [[x y] |]; [| done].
      by rewrite mode_floodFill.
    + by destruct (negb _).
  - unfold handleMove.
    destruct (isPanning e); [done |]. by destruct (_ || _).
  - unfold handleEnd. cbn. by destruct (onUpdate e).
  - unfold handleWheel. by destruct (Qeq_bool _ _).
Qed.

Lemma handle_set_lineArt e mask ev :
  mode e <> fill ->
  handle rasterize (set_lineArt e mask) ev
  = set_lineArt (handle rasterize e ev) mask.
Proof.
  intros Hm. destruct ev as [ev | ev | | ev]; cbn.
  - unfold handleStart. cbn.
    destruct (_ && _); [done |]. destruct (_ || _); [done |].
    unfold getCoords, canvas_width, canvas_height. cbn.
    rewrite (bool_decide_eq_false_2 (mode e = fill)) by done.
    by destruct (negb _).
  - unfold handleMove. cbn.
    destruct (isPanning e); [done |]. destruct (_ || _); [done |].
    unfold getCoords, canvas_width, canvas_height. cbn. done.
  - unfold handleEnd. cbn. by destruct (onUpdate e).
  - unfold handleWheel. cbn. by destruct (Qeq_bool _ _).
Qed.

(** C7 (as amended). A brush or eraser interaction never consults the
    boundary mask: whatever the events and whatever rasterizer the canvas
    uses, the editor (its PaintSurface included) ends in the same state
    for every boundary mask. *)
Theorem strokes_ignore_boundary_mask
    (e : Editor) (mask : option (list Z)) (evs : list Event) :
  mode e = brush \/ mode e = eraser ->
  run rasterize (set_lineArt e mask) evs
  = set_lineArt (run rasterize e evs) mask.
Proof.
  intros Hm. assert (Hnf : mode e <> fill) by (destruct Hm as [H | H]; congruence).
  clear Hm. unfold run. revert e Hnf.
  induction evs as [| ev evs IH]; intros e Hnf; [done |].
  cbn. rewrite handle_set_lineArt by done.
  apply IH. by rewrite mode_handle.
Qed.

End HandlerFacts.

Section PanDrag.

Variable rasterize :
  Z -> Z -> list (list (Q * Q)) -> Color -> Q -> list Z -> list Z.

Lemma handleMove_panning e m :
  isPanning e = true ->
  handleMove rasterize e m
  = set_view e (zoom e) (clientX m - startPanX e)%Q (clientY m - startPanY e)%Q.
Proof. intros H. unfold handleMove. by rewrite H. Qed.

Lemma run_moves_panning e moves :
  isPanning e = true ->
  let e' := run rasterize e (PointerMove <$> moves) in
  same_but_pan e e'
  /\ match last moves with
     | Some m => panX e' = (clientX m - startPanX e)%Q
                 /\ panY e' = (clientY m - startPanY e)%Q
     | None => panX e' = panX e /\ panY e' = panY e
     end.
Proof.
  intros Hp. induction moves as [| m moves IH] using rev_ind.
  { cbn. unfold same_but_pan. tauto. }
  cbn zeta in *. unfold run in *.
  rewrite fmap_app, foldl_app, last_snoc. cbn.
  destruct IH as [(H1 & H2 & H3 & H4 & H5 & H6 & H7 & H8 & H9) _].
  rewrite handleMove_panning by congruence. cbn.
  unfold same_but_pan. rewrite H3, H4. tauto.
Qed.

(** C10. Whatever the tool mode, a [pointerdown] with the middle button
    (that is not a secondary touch contact, which [handleStart] ignores)
    starts a pan drag and does nothing else (it sets [isPanning] and records
the anchor [startPan]): after any number of [pointermove] events the pan is
    the initial pan moved by the displacement of the pointer since the
    [pointerdown], while the canvas context (pixels and path) and the
    sounds played are those of before the interaction; [pointerup] ends
    the drag with the pixels still unchanged and no sound played. *)
Theorem middle_button_pans
    (e : Editor) (down : PointerEvent) (moves : list PointerEvent) :
  button down = 1 ->
  (pointerType down = touch -> isPrimary down = true) ->
  let e1 := handleStart e down in
  let e2 := run rasterize e1 (PointerMove <$> moves) in
  let e3 := handleEnd e2 in
  e1 = set_startPan (set_drag e (isDrawing e) true)
         (clientX down - panX e)%Q (clientY down - panY e)%Q
  /\ isPanning e1 = true /\ isPanning e2 = true
  /\ ctx e2 = ctx e /\ effects e2 = effects e /\ zoom e2 = zoom e
  /\ mode e2 = mode e
  /\ match last moves with
     | Some m => (panX e2 == panX e + (clientX m - clientX down))%Q
                 /\ (panY e2 == panY e + (clientY m - clientY down))%Q
     | None => panX e2 = panX e /\ panY e2 = panY e
     end
  /\ isPanning e3 = false
  /\ surface (ctx e3) = surface (ctx e)
  /\ effects e3 = effects e ++ (if onUpdate e then [OnUpdate] else []).
Proof.
  intros Hb Ht e1 e2 e3.
  assert (He1 : e1 = set_startPan (set_drag e (isDrawing e) true)
                       (clientX down - panX e)%Q (clientY down - panY e)%Q).
  { subst e1. unfold handleStart.
    assert (Hg : bool_decide (pointerType down = touch) && negb (isPrimary down)
                 = false).
    { case_bool_decide as Hty; [| done]. by rewrite (Ht Hty). }
    rewrite Hg, Hb. cbn. by rewrite orb_true_r. }
  assert (Hp1 : isPanning e1 = true) by (by rewrite He1).
  destruct (run_moves_panning e1 moves Hp1)
    as [(H1 & H2 & H3 & H4 & H5 & H6 & H7 & H8 & H9) Hpan].
  fold e2 in H1, H2, H3, H4, H5, H6, H7, H8, H9, Hpan.
  split; [done |]. split; [done |]. split; [congruence |].
  split; [by rewrite H6, He1 |]. split; [by rewrite H7, He1 |].
  split; [by rewrite H5, He1 |]. split; [by rewrite H9, He1 |].
  split.
  { destruct (last moves) as [m |].
    - destruct Hpan as [-> ->]. rewrite He1. cbn. split; ring.
    - destruct Hpan as [-> ->]. by rewrite He1. }
  subst e3. unfold handleEnd. cbn. rewrite H8.
  replace (onUpdate e1) with (onUpdate e) by (by rewrite He1).
  destruct (onUpdate e); cbn; rewrite H6, H7, He1; cbn.
  - done.
  - by rewrite app_nil_r.
Qed.

End PanDrag.

(* ================================================================= *)
(** * The traversal of the flood fill *)

Lemma unvisited_cons z v :
  unvisited (z :: v) = if decide (z = 0) then S (unvisited v) else unvisited v.
Proof.
  unfold unvisited. rewrite (filter_cons (fun z => z = 0)).
  by destruct (decide (z = 0)).
Qed.
Lemma unvisited_replicate n : unvisited (replicate n 0) = n.
Proof.
  induction n as [| n IH]; [done |].
  cbn [replicate]. rewrite unvisited_cons. rewrite decide_True by done. by rewrite IH.
Qed.

Lemma unvisited_insert (v : list Z) : forall n : nat,
  v !! n = Some 0 -> S (unvisited (<[n := 1]> v)) = unvisited v.
Proof.
  induction v as [| z v IH]; intros n Hn; [done |].
  destruct n as [| n].
  - inversion Hn; subst. change (<[0%nat := 1]> (0 :: v)) with (1 :: v).
    rewrite !unvisited_cons. rewrite decide_False by done. by rewrite decide_True by done.
  - change (<[S n := 1]> (z :: v)) with (z :: <[n := 1]> v).
    change ((z :: v) !! S n) with (v !! n) in Hn.
    rewrite !unvisited_cons.
    destruct (decide (z = 0)) as [Hz | Hz]; by rewrite IH.
Qed.

Lemma unvisited_wr v i :
  rd v i = Some 0 -> S (unvisited (wr v i 1)) = unvisited v.
Proof.
  unfold rd, wr. destruct (i <? 0); [done |]. apply unvisited_insert.
Qed.


Lemma connected_seed_ok ok s p : connected ok s p -> ok s = true.
Proof. induction 1; done. Qed.

Lemma connected_ok ok s p : connected ok s p -> ok p = true.
Proof. destruct 1; done. Qed.


Section Traversal.

Variables (e : Editor) (data : list Z) (tR tG tB : option Z).

Local Abbreviation cw := (canvas_width e).
Local Abbreviation ch := (canvas_height e).
Local Abbreviation step := (bfs_step e data tR tG tB).

(** The three outcomes of an iteration, for the entry at the head of the
    queue. *)
Lemma bfs_step_cases st p rest :
  queue st = p :: rest ->
  ((in_image cw ch p.1 p.2 = false \/ seen e st p = true)
   /\ step st = {| queue := rest; visited := visited st;
                   pixelsToFill := pixelsToFill st |})
  \/ (in_image cw ch p.1 p.2 = true /\ seen e st p = false
      /\ fillable e data tR tG tB p = false
      /\ step st = {| queue := rest;
                      visited := wr (visited st) (p.2 * cw + p.1) 1;
                      pixelsToFill := pixelsToFill st |})
  \/ (in_image cw ch p.1 p.2 = true /\ seen e st p = false
      /\ fillable e data tR tG tB p = true
      /\ step st = {| queue := rest ++ neighbours p;
                      visited := wr (visited st) (p.2 * cw + p.1) 1;
                      pixelsToFill := pixelsToFill st ++ [pos_of e p] |}).
Proof.
  intros Hq. destruct p as [x y]. unfold bfs_step. rewrite Hq.
  unfold seen, fillable, open_px, boundary, pos_of. cbn [fst snd].
  assert (Hin : (x <? 0) || (x >=? cw) || (y <? 0) || (y >=? ch)
                = negb (in_image cw ch x y)).
  { unfold in_image.
    destruct (Z.ltb_spec x 0), (Z.geb_spec x cw), (Z.ltb_spec y 0),
      (Z.geb_spec y ch), (Z.leb_spec 0 x), (Z.ltb_spec x cw),
      (Z.leb_spec 0 y), (Z.ltb_spec y ch); cbn; (done || lia). }
  rewrite Hin. destruct (in_image cw ch x y); cbn; [| left; tauto].
  destruct (truthy _); [left; tauto |].
  destruct (isLineBoundary e _ _); cbn; [right; left; tauto |].
  destruct (colorMatches _ _ _ _ _); cbn; [right; right | right; left]; tauto.
Qed.

(** *** Termination *)

Lemma in_image_index p :
  in_image cw ch p.1 p.2 = true -> 0 <= p.2 * cw + p.1 < cw * ch.
Proof. intros Hi. apply in_image_true in Hi as [? ?]. nia. Qed.

Lemma seen_false_zero st p :
  sized e st -> in_image cw ch p.1 p.2 = true -> seen e st p = false ->
  rd (visited st) (p.2 * cw + p.1) = Some 0.
Proof.
  intros Hs Hi Hv. unfold seen in Hv. apply in_image_index in Hi.
  destruct (rd (visited st) _) as [v |] eqn:Hr.
  - cbn in Hv. apply negb_false_iff, Z.eqb_eq in Hv. by subst.
  - apply rd_None in Hr. unfold sized in Hs. lia.
Qed.

Lemma sized_step st : sized e st -> sized e (step st).
Proof.
  intros Hs. destruct (queue st) as [| p rest] eqn:Hq.
  { unfold bfs_step. by rewrite Hq. }
  destruct (bfs_step_cases st p rest Hq)
    as [[_ ->] | [(_ & _ & _ & ->) | (_ & _ & _ & ->)]];
    unfold sized in *; cbn; rewrite ?length_wr; done.
Qed.

Lemma bfs_measure_step st :
  sized e st -> queue st <> [] ->
  (bfs_measure (step st) < bfs_measure st)%nat.
Proof.
  intros Hs Hne. destruct (queue st) as [| p rest] eqn:Hq; [done |].
  unfold bfs_measure. rewrite Hq.
  destruct (bfs_step_cases st p rest Hq)
    as [[_ ->] | [(Hi & Hv & _ & ->) | (Hi & Hv & _ & ->)]];
    cbn [queue visited pixelsToFill length].
  - lia.
  - pose proof (unvisited_wr _ _ (seen_false_zero st p Hs Hi Hv)). lia.
  - pose proof (unvisited_wr _ _ (seen_false_zero st p Hs Hi Hv)).
    rewrite length_app. cbn [neighbours length]. lia.
Qed.

(** The loop ends within [bfs_measure] iterations. *)
Lemma bfs_loop_total fuel : forall st,
  sized e st -> (bfs_measure st <= fuel)%nat ->
  exists st', bfs_loop fuel e data tR tG tB st = Some st'.
Proof.
  induction fuel as [| fuel IH]; intros st Hs Hm.
  - destruct (queue st) as [| p rest] eqn:Hq.
    + exists st. cbn. by rewrite Hq.
    + unfold bfs_measure in Hm. rewrite Hq in Hm. cbn in Hm. lia.
  - destruct (queue st) as [| p rest] eqn:Hq.
    + exists st. cbn. by rewrite Hq.
    + cbn. rewrite Hq. apply IH; [by apply sized_step |].
      assert (Hne : queue st <> []) by (by rewrite Hq).
      pose proof (bfs_measure_step st Hs Hne). lia.
Qed.

(** An invariant of the iterations holds when the loop ends, and then the
    queue is empty. *)
Lemma bfs_loop_invariant (I : Bfs -> Prop) :
  (forall st, I st -> queue st <> [] -> I (step st)) ->
  forall fuel st st',
    I st -> bfs_loop fuel e data tR tG tB st = Some st' ->
    I st' /\ queue st' = [].
Proof.
  intros Hstep. induction fuel as [| fuel IH]; intros st st' HI Hl.
  - cbn in Hl. destruct (queue st) eqn:Hq; [| done].
    by inversion Hl; subst.
  - cbn in Hl. destruct (queue st) as [| p rest] eqn:Hq.
    + by inversion Hl; subst.
    + apply IH in Hl; [done |]. apply Hstep; [done | by rewrite Hq].
Qed.

End Traversal.

Section Region.

Variables (e : Editor) (data : list Z) (tR tG tB : option Z) (s : Z * Z).

Local Abbreviation cw := (canvas_width e).
Local Abbreviation ch := (canvas_height e).
Local Abbreviation step := (bfs_step e data tR tG tB).
Local Abbreviation ok := (fillable e data tR tG tB).

Lemma fillable_in_image p : ok p = true -> in_image cw ch p.1 p.2 = true.
Proof.
  unfold fillable, open_px.
  intros Hf. apply andb_true_iff in Hf as [Hf _].
  by apply andb_true_iff in Hf as [Hf _].
Qed.

Lemma pos_of_inj p q :
  in_image cw ch p.1 p.2 = true -> in_image cw ch q.1 q.2 = true ->
  pos_of e p = pos_of e q -> p = q.
Proof.
  intros Hp Hq Heq. apply in_image_true in Hp as [Hp _].
  apply in_image_true in Hq as [Hq _]. unfold pos_of in Heq.
  destruct p as [px py], q as [qx qy]. cbn in *.
  destruct (pixel_index_inj cw px py qx qy Hp Hq Heq). by subst.
Qed.

(** *** Every pixel found is connected to the seed *)

Lemma sound_init v :
  sound e data tR tG tB s {| queue := [s]; visited := v; pixelsToFill := [] |}.
Proof.
  split; cbn.
  - intros pos Hp. by apply not_elem_of_nil in Hp.
  - intros q Hq. apply list_elem_of_singleton in Hq. by left.
Qed.

Lemma sound_step st :
  sound e data tR tG tB s st -> queue st <> [] ->
  sound e data tR tG tB s (step st).
Proof.
  intros [Hfill Hqueue] Hne.
  destruct (queue st) as [| p rest] eqn:Hq; [done |].
  assert (Hrest : forall q, q ∈ rest ->
            q = s \/ exists p, connected ok s p /\ q ∈ neighbours p).
  { intros q Hin. apply Hqueue. by right. }
  destruct (bfs_step_cases e data tR tG tB st p rest Hq)
    as [[_ Hst] | [(_ & _ & _ & Hst) | (Hi & Hv & Hf & Hst)]];
    rewrite Hst; split; cbn; try done.
  - assert (Hc : connected ok s p).
    { destruct (Hqueue p) as [-> | (p' & Hc & Hn)]; [apply list_elem_of_here | |].
      - by apply connected_seed.
      - by eapply connected_step. }
    intros pos Hin. apply elem_of_app in Hin as [Hin | Hin]; [by apply Hfill |].
    apply list_elem_of_singleton in Hin as ->. by exists p.
  - assert (Hc : connected ok s p).
    { destruct (Hqueue p) as [-> | (p' & Hc & Hn)]; [apply list_elem_of_here | |].
      - by apply connected_seed.
      - by eapply connected_step. }
    intros q Hin. apply elem_of_app in Hin as [Hin | Hin]; [by apply Hrest |].
    right. by exists p.
Qed.

(** *** Every pixel connected to the seed is found *)

Lemma complete_init :
  complete e data tR tG tB s {| queue := [s];
              visited := replicate (Z.to_nat (cw * ch)) 0;
              pixelsToFill := [] |}.
Proof.
  split; [| split; [| split]]; cbn.
  - unfold sized. cbn. rewrite length_replicate. lia.
  - intros p Hi Hs. unfold seen in Hs. cbn in Hs.
    destruct (rd _ _) as [v |] eqn:Hr; [| done].
    unfold rd in Hr. destruct (_ <? 0); [done |].
    apply lookup_replicate in Hr as [-> _]. done.
  - intros p q _ Hp. by apply not_elem_of_nil in Hp.
  - intros _. right. apply list_elem_of_here.
Qed.

Lemma seen_wr st p0 rest fill p :
  sized e st -> in_image cw ch p0.1 p0.2 = true ->
  in_image cw ch p.1 p.2 = true ->
  seen e {| queue := rest; visited := wr (visited st) (p0.2 * cw + p0.1) 1;
            pixelsToFill := fill |} p = true
  <-> seen e st p = true \/ p = p0.
Proof.
  intros Hs Hi0 Hi. unfold seen. cbn.
  pose proof (in_image_index e p0 Hi0) as Hr0.
  rewrite rd_wr. case_bool_decide as Hd.
  - destruct Hd as [Heq _]. split; [intros _; right | done].
    apply pos_of_inj; [done | done |]. unfold pos_of. lia.
  - split; [by left |]. intros [Hseen | ->]; [done |].
    exfalso. apply Hd. unfold sized in Hs. lia.
Qed.

Lemma complete_step st :
  complete e data tR tG tB s st -> queue st <> [] ->
  complete e data tR tG tB s (step st).
Proof.
  intros (Hs & Hseen & Hnb & Hseed) Hne.
  destruct (queue st) as [| p0 rest] eqn:Hq; [done |].
  assert (Hs' : sized e (step st)) by (by apply sized_step).
  destruct (bfs_step_cases e data tR tG tB st p0 rest Hq)
    as [[Hc Hst] | [(Hi & Hv & Hf & Hst) | (Hi & Hv & Hf & Hst)]];
    rewrite Hst in *; (split; [done |]).
  - (* dropped: outside the surface, or seen before *)
    assert (Hpop : forall q, in_image cw ch q.1 q.2 = true ->
              seen e st q = true \/ q ∈ p0 :: rest ->
              seen e st q = true \/ q ∈ rest).
    { intros q Hiq [Hsq | Hin]; [by left |].
      apply elem_of_cons in Hin as [-> | Hin]; [| by right].
      destruct Hc as [Hc | Hc]; [congruence | by left]. }
    split; [| split]; cbn.
    + done.
    + intros p q Hip Hp Hn Hiq. apply Hpop; [done |]. by apply (Hnb p q).
    + intros His. apply Hpop; [done |]. by apply Hseed.
  - (* marked, not filled *)
    assert (Hpop : forall q fill, in_image cw ch q.1 q.2 = true ->
              seen e st q = true \/ q ∈ p0 :: rest ->
              seen e {| queue := rest;
                        visited := wr (visited st) (p0.2 * cw + p0.1) 1;
                        pixelsToFill := fill |} q = true
              \/ q ∈ rest).
    { intros q fl Hiq [Hsq | Hin].
      - left. apply seen_wr; [done | done | done | by left].
      - apply elem_of_cons in Hin as [-> | Hin]; [| by right].
        left. apply seen_wr; [done | done | done | by right]. }
    split; [| split]; cbn.
    + intros p Hip Hsp Hok. apply seen_wr in Hsp as [Hsp | ->]; try done.
      * by apply Hseen.
      * congruence.
    + intros p q Hip Hp Hn Hiq. apply Hpop; [done |]. by apply (Hnb p q).
    + intros His. apply Hpop; [done |]. by apply Hseed.
  - (* filled: its neighbours are queued *)
    assert (Hpop : forall q fill, in_image cw ch q.1 q.2 = true ->
              seen e st q = true \/ q ∈ p0 :: rest ->
              seen e {| queue := rest ++ neighbours p0;
                        visited := wr (visited st) (p0.2 * cw + p0.1) 1;
                        pixelsToFill := fill |} q = true
              \/ q ∈ rest ++ neighbours p0).
    { intros q fl Hiq [Hsq | Hin].
      - left. apply seen_wr; [done | done | done | by left].
      - apply elem_of_cons in Hin as [-> | Hin].
        + left. apply seen_wr; [done | done | done | by right].
        + right. apply elem_of_app. by left. }
    split; [| split]; cbn.
    + intros p Hip Hsp Hok. apply elem_of_app.
      apply seen_wr in Hsp as [Hsp | ->]; try done.
      * left. by apply Hseen.
      * right. apply list_elem_of_here.
    + intros p q Hip Hp Hn Hiq.
      apply elem_of_app in Hp as [Hp | Hp].
      * apply Hpop; [done |]. by apply (Hnb p q).
      * apply list_elem_of_singleton in Hp.
        apply pos_of_inj in Hp; [| done | done]. subst p.
        right. apply elem_of_app. by right.
    + intros His. apply Hpop; [done |]. by apply Hseed.
Qed.

Lemma complete_connected st p :
  complete e data tR tG tB s st -> queue st = [] -> connected ok s p ->
  pos_of e p ∈ pixelsToFill st.
Proof.
  intros (Hs & Hseen & Hnb & Hseed) Hq.
  induction 1 as [Hok | p q Hc IH Hn Hok].
  - pose proof (fillable_in_image s Hok) as Hi.
    destruct (Hseed Hi) as [Hsn | Hin].
    + by apply Hseen.
    + rewrite Hq in Hin. by apply not_elem_of_nil in Hin.
  - pose proof (fillable_in_image q Hok) as Hi.
    pose proof (fillable_in_image p (connected_ok _ _ _ Hc)) as Hip.
    destruct (Hnb p q Hip IH Hn Hi) as [Hsn | Hin].
    + by apply Hseen.
    + rewrite Hq in Hin. by apply not_elem_of_nil in Hin.
Qed.

End Region.

(* ================================================================= *)
(** * The fill set and the painted surface *)

Section FillSet.

Variables (e : Editor) (data : list Z) (sx sy : Z).

Local Abbreviation cw := (canvas_width e).
Local Abbreviation ch := (canvas_height e).
Local Abbreviation startPos := ((sy * cw + sx) * 4).
Local Abbreviation ok :=
  (fillable e data (rd data startPos) (rd data (startPos + 1))
     (rd data (startPos + 2))).

(** The loop of [floodFill] ends, within the bound given to it, with an
    empty queue. *)
Lemma fillSet_run :
  exists st,
    bfs_loop (bfs_fuel cw ch) e data (rd data startPos) (rd data (startPos + 1))
      (rd data (startPos + 2)) (bfs_init cw ch sx sy) = Some st
    /\ fillSet e data sx sy = pixelsToFill st
    /\ queue st = []
    /\ sound e data (rd data startPos) (rd data (startPos + 1))
         (rd data (startPos + 2)) (sx, sy) st
    /\ complete e data (rd data startPos) (rd data (startPos + 1))
         (rd data (startPos + 2)) (sx, sy) st.
Proof.
  pose proof (complete_init e data (rd data startPos) (rd data (startPos + 1))
                (rd data (startPos + 2)) (sx, sy)) as Hc.
  pose proof (sound_init e data (rd data startPos) (rd data (startPos + 1))
                (rd data (startPos + 2)) (sx, sy)
                (replicate (Z.to_nat (cw * ch)) 0)) as Hs.
  fold (bfs_init cw ch sx sy) in Hc, Hs.
  destruct (bfs_loop_total e data (rd data startPos) (rd data (startPos + 1))
              (rd data (startPos + 2)) (bfs_fuel cw ch) (bfs_init cw ch sx sy))
    as [st Hst].
  { apply Hc. }
  { unfold bfs_measure, bfs_init, bfs_fuel. cbn [visited queue length].
    rewrite unvisited_replicate. lia. }
  exists st. split; [done |].
  split; [unfold fillSet; by rewrite Hst |].
  destruct (bfs_loop_invariant e data (rd data startPos)
              (rd data (startPos + 1)) (rd data (startPos + 2))
              (fun st => sound e data (rd data startPos) (rd data (startPos + 1))
                           (rd data (startPos + 2)) (sx, sy) st
                         /\ complete e data (rd data startPos)
                              (rd data (startPos + 1)) (rd data (startPos + 2))
                              (sx, sy) st))
    with (fuel := bfs_fuel cw ch) (st := bfs_init cw ch sx sy) (st' := st)
    as [[Hs' Hc'] Hq]; try done.
  intros st0 [Hs0 Hc0] Hne. split; [by apply sound_step | by apply complete_step].
Qed.

(** The fill set is the region of fillable pixels 4-connected to the
    seed. *)
Lemma fillSet_spec pos :
  pos ∈ fillSet e data sx sy
  <-> exists p, pos = pos_of e p /\ connected ok (sx, sy) p.
Proof.
  destruct fillSet_run as (st & _ & -> & Hq & [Hfill _] & Hc). split.
  - apply Hfill.
  - intros (p & -> & Hp). by eapply complete_connected.
Qed.

Lemma fillSet_aligned : Forall aligned (fillSet e data sx sy).
Proof.
  apply Forall_forall. intros pos Hp.
  apply fillSet_spec in Hp as (p & -> & _).
  exists (p.2 * cw + p.1). unfold pos_of. lia.
Qed.

Lemma fillSet_seed pos :
  pos ∈ fillSet e data sx sy ->
  ok (sx, sy) = true /\ startPos ∈ fillSet e data sx sy.
Proof.
  intros Hp. apply fillSet_spec in Hp as (p & _ & Hc).
  apply connected_seed_ok in Hc. split; [done |].
  apply fillSet_spec. exists (sx, sy). split; [done |].
  by apply connected_seed.
Qed.

End FillSet.

Lemma length_paint c d pos : length (paint c d pos) = length d.
Proof. unfold paint. by rewrite !length_wr. Qed.

Lemma length_foldl_paint c ps : forall d, length (foldl (paint c) d ps) = length d.
Proof.
  induction ps as [| p ps IH]; intros d; [done |].
  cbn. by rewrite IH, length_paint.
Qed.

Lemma rd_paint_other c d pos j :
  ~ (pos <= j <= pos + 3) -> rd (paint c d pos) j = rd d j.
Proof. intros Hj. unfold paint. rewrite !rd_wr_ne by lia. done. Qed.

Lemma rd_paint_same c d pos :
  valid_color c -> 0 <= pos -> pos + 3 < Z.of_nat (length d) ->
  rd (paint c d pos) pos = Some (red c)
  /\ rd (paint c d pos) (pos + 1) = Some (green c)
  /\ rd (paint c d pos) (pos + 2) = Some (blue c)
  /\ rd (paint c d pos) (pos + 3) = Some 255.
Proof.
  intros (Hr & Hg & Hb) H0 Hlen. unfold paint.
  rewrite !rd_wr, !length_wr.
  repeat split; repeat case_bool_decide; rewrite ?clamp8_id; done || lia.
Qed.

Lemma rd_foldl_paint_changed c ps : forall d j,
  rd (foldl (paint c) d ps) j <> rd d j ->
  exists pos, pos ∈ ps /\ pos <= j <= pos + 3.
Proof.
  induction ps as [| p ps IH]; intros d j Hne; [done |].
  cbn in Hne.
  destruct (decide (rd (foldl (paint c) (paint c d p) ps) j = rd (paint c d p) j))
    as [Heq | Hneq].
  - exists p. split; [apply list_elem_of_here |].
    destruct (decide (p <= j <= p + 3)) as [Hin | Hout]; [done |].
    exfalso. apply Hne. rewrite Heq. by apply rd_paint_other.
  - destruct (IH _ _ Hneq) as (pos & Hin & Hr).
    exists pos. split; [by right | done].
Qed.

Lemma rd_foldl_paint_same c ps : forall d pos,
  valid_color c -> Forall aligned ps -> aligned pos -> pos ∈ ps ->
  0 <= pos -> pos + 3 < Z.of_nat (length d) ->
  let out := foldl (paint c) d ps in
  rd out pos = Some (red c) /\ rd out (pos + 1) = Some (green c)
  /\ rd out (pos + 2) = Some (blue c) /\ rd out (pos + 3) = Some 255.
Proof.
  induction ps as [| p ps IH]; intros d pos Hc Hal Hpos Hin H0 Hlen.
  { by apply not_elem_of_nil in Hin. }
  apply Forall_cons in Hal as [Hp Hal]. cbn.
  destruct (decide (pos ∈ ps)) as [Hin' | Hnin].
  { apply IH; rewrite ?length_paint; done. }
  apply elem_of_cons in Hin as [-> | Hin]; [| done].
  assert (Hsame : forall k, 0 <= k <= 3 ->
            rd (foldl (paint c) (paint c d p) ps) (p + k)
            = rd (paint c d p) (p + k)).
  { intros k Hk.
    destruct (decide (rd (foldl (paint c) (paint c d p) ps) (p + k)
                      = rd (paint c d p) (p + k))) as [Heq | Hneq]; [done |].
    apply rd_foldl_paint_changed in Hneq as (pos' & Hin' & Hr).
    exfalso. apply Hnin.
    assert (Hal' : aligned pos') by (by eapply Forall_forall in Hal).
    destruct Hal' as [k1 Hk1]. destruct Hpos as [k2 Hk2].
    replace p with pos' by lia. done. }
  pose proof (Hsame 0) as Hs0. rewrite Z.add_0_r in Hs0.
  rewrite Hs0, !Hsame by lia. by apply rd_paint_same.
Qed.

(* ================================================================= *)
(** * Flood fill *)

Lemma fillable_open e data tR tG tB p :
  fillable e data tR tG tB p = true -> open_px e p = true.
Proof. unfold fillable. intros Hf. by apply andb_true_iff in Hf as [Hf _]. Qed.

Lemma open_px_true e p :
  open_px e p = true
  <-> in_image (canvas_width e) (canvas_height e) p.1 p.2 = true
      /\ boundary e p.1 p.2 = false.
Proof. unfold open_px. rewrite andb_true_iff, negb_true_iff. done. Qed.


Lemma colorMatches_spec data tR tG tB pos :
  colorMatches data tR tG tB pos = true
  <-> exists r g b r0 g0 b0,
        rd data pos = Some r /\ rd data (pos + 1) = Some g
        /\ rd data (pos + 2) = Some b
        /\ tR = Some r0 /\ tG = Some g0 /\ tB = Some b0
        /\ Z.abs (r - r0) <= 32 /\ Z.abs (g - g0) <= 32
        /\ Z.abs (b - b0) <= 32.
Proof.
  unfold colorMatches, channelMatches, tolerance. split.
  - intros Hm. apply andb_true_iff in Hm as [Hm Hb].
    apply andb_true_iff in Hm as [Hr Hg].
    destruct (rd data pos) as [r |], tR as [r0 |]; try done.
    destruct (rd data (pos + 1)) as [g |], tG as [g0 |]; try done.
    destruct (rd data (pos + 2)) as [b |], tB as [b0 |]; try done.
    exists r, g, b, r0, g0, b0. repeat split; lia.
  - intros (r & g & b & r0 & g0 & b0 & -> & -> & -> & -> & -> & -> & Hr & Hg & Hb).
    rewrite !andb_true_iff. repeat split; lia.
Qed.

(** C2. The traversal of the flood fill. One iteration takes the entry at the
    head of the queue; the entry joins the fill set exactly when it is inside
    the surface, not yet visited, not a boundary pixel, and its colour
    matches, and then its four neighbours are appended at the back of the
    queue (first in, first out). The colour matches exactly when each of the
    red, green and blue channels is within 32 of the captured channel of the
    seed; alpha is not read. The resulting fill set is the set of pixels
    joined to the seed by a 4-connected path of such pixels. *)
Theorem floodFill_traversal (e : Editor) (data : list Z) (sx sy : Z) :
  let W := canvas_width e in
  let H := canvas_height e in
  let startPos := (sy * W + sx) * 4 in
  let tR := rd data startPos in
  let tG := rd data (startPos + 1) in
  let tB := rd data (startPos + 2) in
  (forall st p rest, queue st = p :: rest ->
     let st' := bfs_step e data tR tG tB st in
     if in_image W H p.1 p.2 && negb (seen e st p) && negb (boundary e p.1 p.2)
        && colorMatches data tR tG tB (pos_of e p)
     then pixelsToFill st' = pixelsToFill st ++ [pos_of e p]
          /\ queue st' = rest ++ neighbours p
     else pixelsToFill st' = pixelsToFill st /\ queue st' = rest)
  /\ (forall pos,
        colorMatches data tR tG tB pos = true
        <-> exists r g b r0 g0 b0,
              rd data pos = Some r /\ rd data (pos + 1) = Some g
              /\ rd data (pos + 2) = Some b
              /\ tR = Some r0 /\ tG = Some g0 /\ tB = Some b0
              /\ Z.abs (r - r0) <= 32 /\ Z.abs (g - g0) <= 32
              /\ Z.abs (b - b0) <= 32)
  /\ (forall pos,
        pos ∈ fillSet e data sx sy
        <-> exists p, pos = pos_of e p
                      /\ connected (fillable e data tR tG tB) (sx, sy) p).
Proof.
  intros W H startPos tR tG tB. split; [| split].
  - intros st p rest Hq st'. subst st'.
    destruct (bfs_step_cases e data tR tG tB st p rest Hq)
      as [[Hc ->] | [(Hi & Hv & Hf & ->) | (Hi & Hv & Hf & ->)]]; cbn.
    + subst W H. destruct Hc as [-> | ->]; [done |].
      by rewrite andb_false_r.
    + subst W H. rewrite Hi, Hv. cbn.
      unfold fillable, open_px in Hf. rewrite Hi in Hf. cbn in Hf.
      unfold pos_of. by rewrite Hf.
    + subst W H. rewrite Hi, Hv. cbn.
      unfold fillable, open_px in Hf. rewrite Hi in Hf. cbn in Hf.
      unfold pos_of at 1. by rewrite Hf.
  - intros pos. apply colorMatches_spec.
  - intros pos. apply fillSet_spec.
Qed.

(** C5. For a colour with channels in 0..255 and a surface buffer of the
    size of the canvas, a second identical flood fill changes nothing: it
    returns the editor that the first one returned. And a fill whose seed
    pixel already holds the fill colour with alpha 255 returns the editor as
    it was. *)
Theorem floodFill_idempotent
    (e : Editor) (x y : Q) (fillColor : Color) (isUnfill : bool) :
  valid_color fillColor ->
  Z.of_nat (length (surface (ctx e))) = 4 * (canvas_width e * canvas_height e) ->
  floodFill (floodFill e x y fillColor isUnfill) x y fillColor isUnfill
  = floodFill e x y fillColor isUnfill
  /\ (let startPos := pos_of e (round x, round y) in
      rd (surface (ctx e)) startPos = Some (red fillColor) ->
      rd (surface (ctx e)) (startPos + 1) = Some (green fillColor) ->
      rd (surface (ctx e)) (startPos + 2) = Some (blue fillColor) ->
      rd (surface (ctx e)) (startPos + 3) = Some 255 ->
      floodFill e x y fillColor isUnfill = e).
Proof.
  intros Hc Hlen. split.
  - unfold floodFill at 2 3.
    destruct (isLineBoundary e _ _) eqn:Hb.
    { unfold floodFill. by rewrite Hb. }
    destruct (alreadyFilled _ _ _ _ _) eqn:Ha.
    { unfold floodFill. by rewrite Hb, Ha. }
    destruct (fillSet e (surface (ctx e)) (round x) (round y))
      as [| pos0 ps] eqn:Hfs.
    { unfold floodFill. by rewrite Hb, Ha, Hfs. }
    assert (Hin : pos0 ∈ fillSet e (surface (ctx e)) (round x) (round y))
      by (rewrite Hfs; apply list_elem_of_here).
    apply fillSet_seed in Hin as [Hok Hseed].
    apply fillable_open, open_px_true in Hok as [Hi _].
    pose proof (in_image_index e _ Hi) as Hidx. cbn [fst snd] in Hidx.
    pose proof (fillSet_aligned e (surface (ctx e)) (round x) (round y)) as Hal.
    rewrite Hfs in Hseed, Hal.
    destruct (rd_foldl_paint_same fillColor (pos0 :: ps) (surface (ctx e))
                ((round y * canvas_width e + round x) * 4))
      as (Hr & Hg & Hbl & Halpha); try done.
    { exists (round y * canvas_width e + round x). lia. }
    { lia. }
    { lia. }
    unfold floodFill at 1.
    set (e1 := set_ctx _ _).
    change (isLineBoundary e1 (inject_Z (round x)) (inject_Z (round y)))
      with (isLineBoundary e (inject_Z (round x)) (inject_Z (round y))).
    rewrite Hb.
    change (canvas_width e1) with (canvas_width e).
    change (surface (ctx e1))
      with (foldl (paint fillColor) (surface (ctx e)) (pos0 :: ps)).
    unfold alreadyFilled. rewrite Hr, Hg, Hbl, Halpha.
    by rewrite !bool_decide_eq_true_2.
  - intros startPos Hr Hg Hb Ha. unfold floodFill.
    destruct (isLineBoundary e _ _); [done |].
    subst startPos. unfold pos_of in *. cbn [fst snd] in *.
    unfold alreadyFilled. rewrite Hr, Hg, Hb, Ha.
    by rewrite !bool_decide_eq_true_2.
Qed.

(* ================================================================= *)
(** * Concrete runs *)

(** C7, as stated, fails: on a 3 × 1 surface whose middle pixel is a
    boundary pixel, a brush stroke from the first to the last pixel repaints
    the middle pixel of the PaintSurface. *)
Lemma brush_stroke_paints_boundary_pixel :
  let e := editor_of brush 3 1 mask_3x1 (white_pixels 3) in
  let evs := [PointerDown (mouse_at 0 (1 # 2) (1 # 2) 3 1);
              PointerMove (mouse_at 0 (5 # 2) (1 # 2) 3 1);
              PointerUp] in
  boundary e 1 0 = true
  /\ rd (surface (ctx e)) 4 = Some 255
  /\ rd (surface (ctx (run round_stroke e evs))) 4 = Some 230.
Proof. vm_compute. repeat split; reflexivity. Qed.

(** C8, as stated, fails for [fitToScreen]: a 100 × 100 artwork in a
    45 × 45 container is fitted at zoom 0.05. *)
Lemma fitToScreen_zoom_below_range :
  let e := editor_of fill 100 100 (white_pixels (Z.to_nat 10000))
             (white_pixels (Z.to_nat 10000)) in
  let wrapper := {| left := 0%Q; top := 0%Q; rwidth := 45%Q; rheight := 45%Q |} in
  (zoom (fitToScreen e wrapper) == 1 # 20)%Q
  /\ (zoom (fitToScreen e wrapper) < 1 # 10)%Q.
Proof. split; reflexivity. Qed.

(** C9: a pan drag (pointer down, move and up in pan mode) paints nothing
    and still ends with a call of [onUpdate]. *)
Lemma pan_drag_notifies :
  let e := editor_of pan 3 1 mask_3x1 (white_pixels 3) in
  let evs := [PointerDown (mouse_at 0 (1 # 2) (1 # 2) 3 1);
              PointerMove (mouse_at 0 (5 # 2) (1 # 2) 3 1);
              PointerUp] in
  surface (ctx (run round_stroke e evs)) = surface (ctx e)
  /\ effects (run round_stroke e evs) = [OnUpdate].
Proof. vm_compute. split; reflexivity. Qed.

(** C3, as stated, fails: the pixel (114, 244, 199) has the luminance 200
    exactly, which is not strictly less than the threshold 200, and the
    binariser makes it black; in binary64 the sum of the three products
    is the number just below 200. *)
Lemma binarize_black_at_exact_threshold :
  let data := [114; 244; 199; 255] in
  (luminance_exact 114 244 199 == 200)%Q
  /\ ~ (luminance_exact 114 244 199 < 200)%Q
  /\ PrimFloat.ltb (luminance 114 244 199) 200%float = true
  /\ binarize 200%float data = [0; 0; 0; 255]
  /\ createHighQualityLineArt 1 1 data 200%float 0 = [0; 0; 0; 255].
Proof.
  split; [reflexivity |]. split; [by apply Qle_not_lt |].
  vm_compute. repeat split; reflexivity.
Qed.

(** The luminance is the binary64 value: for the grey level 1 it is below 1. *)
Example luminance_of_grey_1 :
  luminance 1 1 1 = 0.99999999999999989%float
  /\ binarize 1%float [1; 1; 1; 255] = [0; 0; 0; 255].
Proof. vm_compute. split; reflexivity. Qed.

(** Fill of the left pixel of the 3 × 1 surface: the boundary pixel in the
    middle and the pixel behind it keep their colour. *)
Example fill_stops_at_boundary :
  let e := editor_of fill 3 1 mask_3x1 (white_pixels 3) in
  surface (ctx (handleStart e (mouse_at 0 (1 # 4) (1 # 4) 3 1)))
  = [230; 57; 70; 255; 255; 255; 255; 255; 255; 255; 255; 255].
Proof. vm_compute. reflexivity. Qed.

(** Scenario A on a 5 × 5 surface: a fill from the centre colours exactly
    the open 3 × 3 interior and plays the fill sound. *)
Example fill_inside_ring :
  let r := [230; 57; 70; 255] in
  let w := [255; 255; 255; 255] in
  let e := editor_of fill 5 5 mask_ring_5x5 (white_pixels 25) in
  let e' := floodFill e (5 # 2) (5 # 2) palette_red false in
  surface (ctx e')
  = w ++ w ++ w ++ w ++ w
    ++ w ++ r ++ r ++ r ++ w
    ++ w ++ r ++ r ++ r ++ w
    ++ w ++ r ++ r ++ r ++ w
    ++ w ++ w ++ w ++ w ++ w
  /\ effects e' = [PlayFillSound].
Proof. vm_compute. split; reflexivity. Qed.

(* ================================================================= *)
(** * Further properties *)

(** The traversal loop of [floodFill] always ends: for every editor, surface
    buffer and seed it empties the queue within [bfs_fuel] iterations, that
    is at most [4 * width * height + 1]. *)
Theorem floodFill_loop_terminates (e : Editor) (data : list Z) (sx sy : Z) :
  let startPos := (sy * canvas_width e + sx) * 4 in
  exists st,
    bfs_loop (bfs_fuel (canvas_width e) (canvas_height e)) e data
      (rd data startPos) (rd data (startPos + 1)) (rd data (startPos + 2))
      (bfs_init (canvas_width e) (canvas_height e) sx sy) = Some st
    /\ queue st = []
    /\ fillSet e data sx sy = pixelsToFill st.
Proof.
  intros startPos.
  destruct (fillSet_run e data sx sy) as (st & Hl & Hf & Hq & _).
  exists st. done.
Qed.

(** When a flood fill passes its two early returns, every pixel of the fill
    set ends with the fill colour and alpha 255, and every position outside
    those pixels keeps its value. *)
Theorem floodFill_paints_fill_set
    (e : Editor) (x y : Q) (fillColor : Color) (isUnfill : bool) (pos : Z) :
  valid_color fillColor ->
  Z.of_nat (length (surface (ctx e))) = 4 * (canvas_width e * canvas_height e) ->
  boundary e (round x) (round y) = false ->
  alreadyFilled (rd (surface (ctx e)) (pos_of e (round x, round y)))
    (rd (surface (ctx e)) (pos_of e (round x, round y) + 1))
    (rd (surface (ctx e)) (pos_of e (round x, round y) + 2))
    (rd (surface (ctx e)) (pos_of e (round x, round y) + 3)) fillColor = false ->
  let pixels := fillSet e (surface (ctx e)) (round x) (round y) in
  let out := surface (ctx (floodFill e x y fillColor isUnfill)) in
  (pos ∈ pixels ->
     rd out pos = Some (red fillColor) /\ rd out (pos + 1) = Some (green fillColor)
     /\ rd out (pos + 2) = Some (blue fillColor) /\ rd out (pos + 3) = Some 255)
  /\ (forall j, (forall q, q ∈ pixels -> ~ (q <= j <= q + 3)) ->
        rd out j = rd (surface (ctx e)) j).
Proof.
  intros Hc Hlen Hb Ha pixels out.
  assert (Hout : out = foldl (paint fillColor) (surface (ctx e)) pixels).
  { subst out pixels. unfold floodFill. unfold boundary in Hb. rewrite Hb.
    unfold pos_of in Ha. cbn [fst snd] in Ha. rewrite Ha.
    by destruct (fillSet e (surface (ctx e)) (round x) (round y)). }
  rewrite Hout. split.
  - intros Hin. pose proof Hin as Hin'.
    apply fillSet_spec in Hin' as (p & -> & Hp).
    apply connected_ok, fillable_open, open_px_true in Hp as [Hi _].
    pose proof (in_image_index e p Hi) as Hidx.
    apply rd_foldl_paint_same; try done.
    + apply fillSet_aligned.
    + exists (p.2 * canvas_width e + p.1). unfold pos_of. lia.
    + unfold pos_of. lia.
    + unfold pos_of. lia.
  - intros j Hj.
    destruct (decide (rd (foldl (paint fillColor) (surface (ctx e)) pixels) j
                      = rd (surface (ctx e)) j)) as [Heq | Hne]; [done |].
    apply rd_foldl_paint_changed in Hne as (q & Hq & Hr).
    exfalso. by apply (Hj q).
Qed.

(** [fitToScreen] over an artwork of positive width and height: the scaled
    artwork fits the container less the padding of 40 on both axes, and the
    zoom is at most 0.9. *)
Theorem fitToScreen_fits (e : Editor) (wrapper : Rect) :
  0 < lineArtWidth e -> 0 < lineArtHeight e ->
  let z := zoom (fitToScreen e wrapper) in
  (z * inject_Z (lineArtWidth e) <= rwidth wrapper - 40)%Q
  /\ (z * inject_Z (lineArtHeight e) <= rheight wrapper - 40)%Q
  /\ (z <= 9 # 10)%Q.
Proof.
  intros Hw Hh z. subst z. cbn [zoom fitToScreen set_view].
  set (sX := ((rwidth wrapper - 40) / inject_Z (lineArtWidth e))%Q).
  set (sY := ((rheight wrapper - 40) / inject_Z (lineArtHeight e))%Q).
  assert (HW : (0 < inject_Z (lineArtWidth e))%Q).
  { replace 0%Q with (inject_Z 0) by done. rewrite <- Zlt_Qlt. done. }
  assert (HH : (0 < inject_Z (lineArtHeight e))%Q).
  { replace 0%Q with (inject_Z 0) by done. rewrite <- Zlt_Qlt. done. }
  assert (HX : (Qmin (Qmin sX sY) (9 # 10) <= sX)%Q).
  { eapply Qle_trans; [apply Q.le_min_l | apply Q.le_min_l]. }
  assert (HY : (Qmin (Qmin sX sY) (9 # 10) <= sY)%Q).
  { eapply Qle_trans; [apply Q.le_min_l | apply Q.le_min_r]. }
  split; [| split].
  - apply (Qmult_le_compat_r _ _ (inject_Z (lineArtWidth e))) in HX; [| lra].
    eapply Qle_trans; [exact HX |]. subst sX.
    assert (Heq : ((rwidth wrapper - 40) / inject_Z (lineArtWidth e)
                   * inject_Z (lineArtWidth e) == rwidth wrapper - 40)%Q)
      by (field; lra).
    rewrite Heq. lra.
  - apply (Qmult_le_compat_r _ _ (inject_Z (lineArtHeight e))) in HY; [| lra].
    eapply Qle_trans; [exact HY |]. subst sY.
    assert (Heq : ((rheight wrapper - 40) / inject_Z (lineArtHeight e)
                   * inject_Z (lineArtHeight e) == rheight wrapper - 40)%Q)
      by (field; lra).
    rewrite Heq. lra.
  - apply Q.le_min_r.
Qed.

(** Every [pointerup] of an editor that was given [onUpdate] calls it once,
    whatever the interaction was, and leaves the pixels as they were. *)
Theorem handleEnd_always_notifies (e : Editor) :
  onUpdate e = true ->
  effects (handleEnd e) = effects e ++ [OnUpdate]
  /\ surface (ctx (handleEnd e)) = surface (ctx e)
  /\ isDrawing (handleEnd e) = false /\ isPanning (handleEnd e) = false.
Proof. intros Hu. unfold handleEnd. cbn. by rewrite Hu. Qed.

(** Dilation by radius 1 of a single black pixel in the middle of a 3 × 3
    image blackens the pixel and its four edge neighbours; the four corner
    pixels, at squared distance 2, stay white. *)
Theorem dilate_radius_1_is_a_plus :
  let px (v : Z) := [v; v; v; 255] in
  let img := px 220 ++ px 220 ++ px 220
          ++ px 220 ++ px 150 ++ px 220
          ++ px 220 ++ px 220 ++ px 220 in
  let bl := px 0 in let wh := px 255 in
  disk_kernel 1 = [(0, -1); (-1, 0); (0, 0); (1, 0); (0, 1)]
  /\ createHighQualityLineArt 3 3 img 200%float 1 =
       wh ++ bl ++ wh ++ bl ++ bl ++ bl ++ wh ++ bl ++ wh.
Proof. vm_compute. split; reflexivity. Qed.

(* ================================================================= *)
(** * More on the line-art output *)

Lemma is_black_dilate alpha width height r data x y :
  0 <= r ->
  Z.of_nat (length data) = 4 * (width * height) ->
  0 <= x < width -> 0 <= y < height ->
  is_black (dilate alpha width height r data) ((y * width + x) * 4) = true
  <-> exists dx dy,
        dx * dx + dy * dy <= r * r
        /\ 0 <= x + dx < width /\ 0 <= y + dy < height
        /\ is_black data (((y + dy) * width + (x + dx)) * 4) = true.
Proof.
  intros Hr Hlen Hx Hy.
  unfold dilate. rewrite dilate_along_targets, is_black_true.
  pose proof (pixel_index_range width height x y Hx Hy) as Hidx.
  rewrite <- (Z.add_0_r ((y * width + x) * 4)) at 1.
  rewrite rd_foldl_blacken;
    [| apply targets_aligned | exists (y * width + x); lia | lia].
  rewrite Z.add_0_r.
  destruct (rd data ((y * width + x) * 4)) as [v |] eqn:Hv;
    [| apply rd_None in Hv; lia].
  case_bool_decide as Ht.
  - cbn. split; [intros _ | done].
    apply elem_of_targets in Ht as ([px py] & [kx ky] & Hp & Hk & Hb & Hi & Heq).
    cbn in *. apply in_image_true in Hi as [Hix Hiy].
    apply elem_of_scan_order in Hp as [Hpx Hpy].
    apply elem_of_disk_kernel in Hk; [| lia].
    apply pixel_index_inj in Heq as [-> ->]; [| done | done].
    exists (- kx), (- ky).
    replace (px + kx + - kx) with px by lia.
    replace (py + ky + - ky) with py by lia.
    repeat split; try lia. done.
  - split.
    + intros [= ->]. exists 0, 0. rewrite !Z.add_0_r, is_black_true.
      repeat split; try lia. done.
    + intros (dx & dy & Hd & Hdx & Hdy & Hb). exfalso. apply Ht.
      apply elem_of_targets. exists (x + dx, y + dy), (- dx, - dy). cbn.
      split; [by apply elem_of_scan_order |].
      split; [apply elem_of_disk_kernel; lia |].
      split; [done |].
      split; [apply in_image_true; lia |].
      f_equal. f_equal; lia.
Qed.


(** Dilation by radius 1 uses the 4-neighbourhood: an output pixel is black
    exactly when the pixel itself or one of its left, right, upper and lower
    neighbours inside the image is black in the input. Diagonal neighbours
    do not count. *)
Theorem dilate_radius_1_neighbourhood
    (alpha : bool) (width height : Z) (data : list Z) (x y : Z) :
  Z.of_nat (length data) = 4 * (width * height) ->
  0 <= x < width -> 0 <= y < height ->
  let black (x y : Z) := is_black data ((y * width + x) * 4) = true in
  is_black (dilate alpha width height 1 data) ((y * width + x) * 4) = true
  <-> black x y
      \/ (x + 1 < width /\ black (x + 1) y) \/ (0 <= x - 1 /\ black (x - 1) y)
      \/ (y + 1 < height /\ black x (y + 1)) \/ (0 <= y - 1 /\ black x (y - 1)).
Proof.
  intros Hlen Hx Hy black. subst black. cbn beta.
  rewrite is_black_dilate by (done || lia). split.
  - intros (dx & dy & Hd & Hdx & Hdy & Hb).
    assert (Hcases : (dx = 0 /\ dy = 0) \/ (dx = 1 /\ dy = 0)
                     \/ (dx = -1 /\ dy = 0) \/ (dx = 0 /\ dy = 1)
                     \/ (dx = 0 /\ dy = -1)) by nia.
    destruct Hcases as [[-> ->] | [[-> ->] | [[-> ->] | [[-> ->] | [-> ->]]]]].
    + left. replace (y + 0) with y in Hb by lia.
      by replace (x + 0) with x in Hb by lia.
    + right. left. replace (y + 0) with y in Hb by lia. split; [lia | done].
    + right. right. left. replace (y + 0) with y in Hb by lia.
      replace (x + -1) with (x - 1) in Hb by lia. split; [lia | done].
    + right. right. right. left. replace (x + 0) with x in Hb by lia.
      split; [lia | done].
    + right. right. right. right. replace (x + 0) with x in Hb by lia.
      replace (y + -1) with (y - 1) in Hb by lia. split; [lia | done].
  - intros [Hb | [[Hr Hb] | [[Hr Hb] | [[Hr Hb] | [Hr Hb]]]]].
    + exists 0, 0. replace (y + 0) with y by lia. replace (x + 0) with x by lia.
      repeat split; try lia. done.
    + exists 1, 0. replace (y + 0) with y by lia. repeat split; try lia. done.
    + exists (-1), 0. replace (y + 0) with y by lia.
      replace (x + -1) with (x - 1) by lia. repeat split; try lia. done.
    + exists 0, 1. replace (x + 0) with x by lia. repeat split; try lia. done.
    + exists 0, (-1). replace (x + 0) with x by lia.
      replace (y + -1) with (y - 1) by lia. repeat split; try lia. done.
Qed.

(* ================================================================= *)
(** * Loops that write one pixel per iteration *)

Section PixelLoop.

Context {P : Type}.
Variables (step : list Z -> P -> list Z) (pos : P -> Z).
Variable result : P -> Z -> list (option Z) -> option Z.

Hypothesis step_other : forall d p j,
  ~ (pos p <= j <= pos p + 3) -> rd (step d p) j = rd d j.
Hypothesis step_same : forall d p c,
  0 <= c <= 3 -> rd (step d p) (pos p + c) = result p c (px_reads d (pos p)).

Lemma px_reads_step_other d p b :
  aligned b -> aligned (pos p) -> b <> pos p ->
  px_reads (step d p) b = px_reads d b.
Proof.
  intros [k Hk] [k' Hk'] Hne. unfold px_reads.
  rewrite !step_other by lia. done.
Qed.

Lemma rd_pixel_loop_out ps : forall d b c,
  Forall (fun p => aligned (pos p)) ps -> aligned b -> 0 <= c <= 3 ->
  (forall p, p ∈ ps -> pos p <> b) ->
  rd (foldl step d ps) (b + c) = rd d (b + c).
Proof.
  induction ps as [| q ps IH]; intros d b c Hal Hb Hc Hne; [done |].
  cbn. apply Forall_cons in Hal as [Hq Hal].
  rewrite IH; [| done | done | done | intros p Hp; apply Hne; by right].
  assert (Hqb : pos q <> b) by (apply Hne; apply list_elem_of_here).
  destruct Hq as [k Hk]. destruct Hb as [k' Hk'].
  apply step_other. lia.
Qed.

Lemma rd_pixel_loop_in ps : forall d p c,
  Forall (fun p => aligned (pos p)) ps -> NoDup (pos <$> ps) -> p ∈ ps ->
  0 <= c <= 3 ->
  rd (foldl step d ps) (pos p + c) = result p c (px_reads d (pos p)).
Proof.
  induction ps as [| q ps IH]; intros d p c Hal Hnd Hin Hc.
  { by apply not_elem_of_nil in Hin. }
  cbn. apply Forall_cons in Hal as [Hq Hal].
  rewrite fmap_cons in Hnd. apply NoDup_cons in Hnd as [Hnq Hnd].
  apply elem_of_cons in Hin as [-> | Hin].
  - rewrite rd_pixel_loop_out; [by apply step_same | done | done | done |].
    intros p Hp Heq. apply Hnq. rewrite <- Heq.
    apply list_elem_of_fmap. by exists p.
  - assert (Hpin : pos p ∈ pos <$> ps)
      by (apply list_elem_of_fmap; by exists p).
    assert (Hne : pos p <> pos q) by (intros Heq; by rewrite Heq in Hpin).
    assert (Halp : aligned (pos p)) by (by eapply Forall_forall in Hal).
    rewrite IH by done. by rewrite px_reads_step_other.
Qed.

Lemma length_pixel_loop ps :
  (forall d p, length (step d p) = length d) ->
  forall d, length (foldl step d ps) = length d.
Proof.
  intros Hl. induction ps as [| q ps IH]; intros d; [done |].
  cbn. by rewrite IH, Hl.
Qed.

End PixelLoop.

Lemma rd_overwrite d i v j :
  rd (wr d i v) j = if bool_decide (i = j) then overwrite (rd d j) (clamp8 v)
                    else rd d j.
Proof.
  rewrite rd_wr. case_bool_decide as H1; case_bool_decide as H2; try done.
  - destruct H1 as [-> H1]. apply rd_is_Some in H1 as [x Hx]. by rewrite Hx.
  - by destruct H1.
  - subst. destruct (rd d j) as [x |] eqn:Hx; [| done].
    apply rd_Some_range in Hx. tauto.
Qed.

Lemma overwrite_overwrite o v w : overwrite (overwrite o v) w = overwrite o w.
Proof. by destruct o. Qed.

Lemma to_uint8_clamp_range f : 0 <= to_uint8_clamp f <= 255.
Proof.
  unfold to_uint8_clamp.
  destruct (Prim2SF f) as [s | s | | s m e]; try destruct s; unfold clamp8; lia.
Qed.

Lemma clamp8_to_uint8_clamp f : clamp8 (to_uint8_clamp f) = to_uint8_clamp f.
Proof. apply clamp8_id, to_uint8_clamp_range. Qed.

Lemma interior_in_image width height x y :
  (x, y) ∈ interior width height <-> 1 <= x <= width - 2 /\ 1 <= y <= height - 2.
Proof.
  unfold interior. rewrite list_elem_of_bind. split.
  - intros (y' & Hx & Hy). apply list_elem_of_bind in Hx as (x' & Hx & Hx').
    apply list_elem_of_singleton in Hx. inversion Hx; subst.
    apply elem_of_zrange in Hx', Hy. lia.
  - intros [Hx Hy]. exists y. split; [| apply elem_of_zrange; lia].
    apply list_elem_of_bind. exists x. split; [| apply elem_of_zrange; lia].
    apply list_elem_of_here.
Qed.

Lemma NoDup_zrange lo hi : NoDup (zrange lo hi).
Proof.
  unfold zrange. apply NoDup_fmap_2; [| apply NoDup_seq].
  intros a b Hab. lia.
Qed.

Lemma interior_positions_NoDup width height :
  NoDup ((fun p : Z * Z => (p.2 * width + p.1) * 4) <$> interior width height).
Proof.
  apply NoDup_fmap_2_strong.
  - intros [x y] [x' y'] Hp Hq Heq. cbn in Heq.
    apply interior_in_image in Hp, Hq.
    destruct (pixel_index_inj width x y x' y') as [-> ->]; (done || lia).
  - unfold interior. apply NoDup_bind.
    + intros y1 y2 p _ _ H1 H2.
      apply list_elem_of_bind in H1 as (x1 & H1 & _).
      apply list_elem_of_bind in H2 as (x2 & H2 & _).
      apply list_elem_of_singleton in H1, H2. subst. by inversion H2.
    + intros y _. apply NoDup_bind.
      * intros x1 x2 p _ _ H1 H2.
        apply list_elem_of_singleton in H1, H2. subst. by inversion H2.
      * intros x _. apply NoDup_singleton.
      * apply NoDup_zrange.
    + apply NoDup_zrange.
Qed.

Lemma interior_positions_aligned width height :
  Forall (fun p : Z * Z => aligned ((p.2 * width + p.1) * 4))
    (interior width height).
Proof.
  apply Forall_forall. intros p _. exists (p.2 * width + p.1). lia.
Qed.

Lemma pixel_offsets_id_NoDup n : NoDup (id <$> pixel_offsets n).
Proof. rewrite list_fmap_id. apply pixel_offsets_NoDup. Qed.

(* ================================================================= *)
(** * The stages of [processLineArt] *)

Lemma foldl_ext_in {A B} (f g : A -> B -> A) (l : list B) (a : A) :
  (forall acc x, x ∈ l -> f acc x = g acc x) -> foldl f a l = foldl g a l.
Proof.
  revert a. induction l as [| x l IH]; intros a Hfg; [done |].
  cbn. rewrite Hfg by apply list_elem_of_here.
  apply IH. intros acc y Hy. apply Hfg. by right.
Qed.

Lemma forallb_zrange (f : Z -> bool) lo hi v :
  forallb f (zrange lo hi) = true -> lo <= v <= hi -> f v = true.
Proof.
  intros Hf Hv. rewrite forallb_forall in Hf. apply Hf.
  apply list_elem_of_In, elem_of_zrange. done.
Qed.

Lemma channel_cases c : 0 <= c <= 3 -> c = 0 \/ c = 1 \/ c = 2 \/ c = 3.
Proof. lia. Qed.

(** A loop body that stores three colours, and maybe an alpha, into the
    pixel at [idx]. *)
Lemma rd_store_other d idx vr vg vb va j :
  ~ (idx <= j <= idx + 3) ->
  rd (match va with
      | Some v => wr (wr (wr (wr d idx vr) (idx + 1) vg) (idx + 2) vb) (idx + 3) v
      | None => wr (wr (wr d idx vr) (idx + 1) vg) (idx + 2) vb
      end) j = rd d j.
Proof. intros Hj. destruct va; rewrite !rd_wr_ne by lia; done. Qed.

Lemma rd_store_same d idx vr vg vb va c :
  0 <= c <= 3 ->
  rd (match va with
      | Some v => wr (wr (wr (wr d idx vr) (idx + 1) vg) (idx + 2) vb) (idx + 3) v
      | None => wr (wr (wr d idx vr) (idx + 1) vg) (idx + 2) vb
      end) (idx + c)
  = store_result (clamp8 vr) (clamp8 vg) (clamp8 vb) (clamp8 <$> va) c
      (px_reads d idx).
Proof.
  intros Hc. unfold store_result, px_reads.
  destruct (channel_cases c Hc) as [-> | [-> | [-> | ->]]]; cbn [Z.eqb];
    rewrite ?Z.add_0_r; destruct va as [v |]; cbn [fmap option_fmap option_map];
    rewrite !rd_overwrite;
    repeat (case_bool_decide; try lia); done.
Qed.

(** *** [toGrayscale] *)

Lemma length_toGrayscale_step d i : length (toGrayscale_step d i) = length d.
Proof. unfold toGrayscale_step, wr_num. by rewrite !length_wr. Qed.

Lemma rd_toGrayscale_step_other d i j :
  ~ (id i <= j <= id i + 3) -> rd (toGrayscale_step d i) j = rd d j.
Proof.
  unfold id. intros Hj. unfold toGrayscale_step, wr_num.
  apply (rd_store_other d i _ _ _ None j Hj).
Qed.

Lemma rd_toGrayscale_step_same d i c :
  0 <= c <= 3 ->
  rd (toGrayscale_step d i) (id i + c) = gray_result c (px_reads d (id i)).
Proof.
  unfold id. intros Hc. unfold toGrayscale_step, wr_num.
  rewrite (rd_store_same d i _ _ _ None c Hc).
  unfold store_result, gray_result, px_reads, brightness, lum3.
  by rewrite !clamp8_to_uint8_clamp.
Qed.

Lemma length_toGrayscale d : length (toGrayscale d) = length d.
Proof. apply length_pixel_loop, length_toGrayscale_step. Qed.

Lemma pixel_offsets_id_aligned n :
  Forall (fun i => aligned (id i)) (pixel_offsets n).
Proof. apply pixel_offsets_aligned. Qed.

Lemma rd_toGrayscale d k c :
  0 <= k -> 4 * k + 3 < Z.of_nat (length d) -> 0 <= c <= 3 ->
  rd (toGrayscale d) (4 * k + c) = gray_result c (px_reads d (4 * k)).
Proof.
  intros Hk Hlen Hc. unfold toGrayscale.
  apply (rd_pixel_loop_in toGrayscale_step id (fun _ => gray_result)
           rd_toGrayscale_step_other rd_toGrayscale_step_same
           (pixel_offsets (length d)) d (4 * k) c).
  - apply pixel_offsets_id_aligned.
  - apply pixel_offsets_id_NoDup.
  - by apply elem_of_pixel_offsets.
  - done.
Qed.

Lemma grey_level_fixed v :
  0 <= v <= 255 -> to_uint8_clamp (luminance v v v) = v.
Proof.
  intros Hv. apply Z.eqb_eq.
  apply (forallb_zrange (fun v => to_uint8_clamp (luminance v v v) =? v) 0 255);
    [vm_compute; reflexivity | done].
Qed.

Lemma toGrayscale_px (data : list Z) (k r g b a : Z) :
  0 <= k ->
  rd data (4 * k) = Some r -> rd data (4 * k + 1) = Some g ->
  rd data (4 * k + 2) = Some b -> rd data (4 * k + 3) = Some a ->
  forall c, 0 <= c <= 3 ->
    rd (toGrayscale data) (4 * k + c)
    = Some (if c <=? 2 then to_uint8_clamp (luminance r g b) else a).
Proof.
  intros Hk Hr Hg Hb Ha c Hc.
  assert (Hlen : 4 * k + 3 < Z.of_nat (length data))
    by (apply rd_Some_range in Ha; lia).
  rewrite rd_toGrayscale by done.
  unfold px_reads. rewrite Hr, Hg, Hb, Ha.
  by destruct (channel_cases c Hc) as [-> | [-> | [-> | ->]]].
Qed.

(** [toGrayscale] replaces the three colour channels of every pixel by its
    luminance, computed in binary64 and rounded to a byte, and keeps the
    alpha channel. A pixel that is already grey (three equal channels) keeps
    its grey level: the rounding of [0.299 v + 0.587 v + 0.114 v] is [v] for
    each of the 256 levels. *)
Theorem toGrayscale_pixel (data : list Z) (k r g b a : Z) :
  0 <= k ->
  rd data (4 * k) = Some r -> rd data (4 * k + 1) = Some g ->
  rd data (4 * k + 2) = Some b -> rd data (4 * k + 3) = Some a ->
  let out := toGrayscale data in
  let v := to_uint8_clamp (luminance r g b) in
  rd out (4 * k) = Some v /\ rd out (4 * k + 1) = Some v
  /\ rd out (4 * k + 2) = Some v /\ rd out (4 * k + 3) = Some a
  /\ 0 <= v <= 255
  /\ (r = g -> g = b -> 0 <= r <= 255 -> v = r).
Proof.
  intros Hk Hr Hg Hb Ha out v.
  pose proof (toGrayscale_px data k r g b a Hk Hr Hg Hb Ha) as Hpx.
  split; [rewrite <- (Z.add_0_r (4 * k)); by rewrite Hpx by lia |].
  split; [by rewrite Hpx by lia |].
  split; [by rewrite Hpx by lia |].
  split; [by rewrite Hpx by lia |].
  split; [apply to_uint8_clamp_range |].
  intros -> -> Hv. by apply grey_level_fixed.
Qed.

Lemma rd_decompose j :
  0 <= j -> exists k c, j = 4 * k + c /\ 0 <= k /\ 0 <= c <= 3.
Proof.
  intros Hj. exists (j / 4), (j mod 4).
  pose proof (Z.div_mod j 4). pose proof (Z.mod_pos_bound j 4).
  pose proof (Z.div_pos j 4). lia.
Qed.

(** A pointwise rule that decides a pixel loop on a buffer of whole
    pixels. *)
Lemma buffer_ext (a b : list Z) (n : Z) :
  Z.of_nat (length a) = 4 * n -> length b = length a ->
  (forall k c, 0 <= k < n -> 0 <= c <= 3 -> rd a (4 * k + c) = rd b (4 * k + c)) ->
  a = b.
Proof.
  intros Hlen Hlab Hpx. apply rd_ext. intros j.
  destruct (Z.ltb_spec j 0) as [Hneg | Hpos].
  { unfold rd. by destruct (Z.ltb_spec j 0); [| lia]. }
  destruct (rd_decompose j Hpos) as (k & c & -> & Hk & Hc).
  destruct (decide (k < n)) as [Hin | Hout]; [by apply Hpx |].
  assert (Ha : rd a (4 * k + c) = None) by (apply rd_None; lia).
  assert (Hb : rd b (4 * k + c) = None) by (apply rd_None; lia).
  by rewrite Ha, Hb.
Qed.

(** [toGrayscale] is idempotent on every buffer of whole pixels. *)
Theorem toGrayscale_idempotent (data : list Z) (n : Z) :
  Z.of_nat (length data) = 4 * n ->
  toGrayscale (toGrayscale data) = toGrayscale data.
Proof.
  intros Hlen. apply (buffer_ext _ _ n).
  - by rewrite !length_toGrayscale.
  - by rewrite !length_toGrayscale.
  - intros k c Hk Hc.
    destruct (rd data (4 * k)) as [r |] eqn:Hr; [| apply rd_None in Hr; lia].
    destruct (rd data (4 * k + 1)) as [g |] eqn:Hg; [| apply rd_None in Hg; lia].
    destruct (rd data (4 * k + 2)) as [b |] eqn:Hb; [| apply rd_None in Hb; lia].
    destruct (rd data (4 * k + 3)) as [a |] eqn:Ha; [| apply rd_None in Ha; lia].
    pose proof (toGrayscale_px data k r g b a (proj1 Hk) Hr Hg Hb Ha) as H1.
    set (v := to_uint8_clamp (luminance r g b)) in *.
    assert (Hv : 0 <= v <= 255) by apply to_uint8_clamp_range.
    pose proof (toGrayscale_px (toGrayscale data) k v v v a (proj1 Hk)) as H2.
    rewrite (grey_level_fixed v Hv) in H2.
    assert (G0 : rd (toGrayscale data) (4 * k) = Some v).
    { rewrite <- (Z.add_0_r (4 * k)). by rewrite H1 by lia. }
    assert (G1 : rd (toGrayscale data) (4 * k + 1) = Some v)
      by (by rewrite H1 by lia).
    assert (G2 : rd (toGrayscale data) (4 * k + 2) = Some v)
      by (by rewrite H1 by lia).
    assert (G3 : rd (toGrayscale data) (4 * k + 3) = Some a)
      by (by rewrite H1 by lia).
    rewrite (H2 G0 G1 G2 G3 c Hc), (H1 c Hc). by destruct (c <=? 2).
Qed.

(** *** [applyThreshold] *)

Lemma length_applyThreshold_step t d i :
  length (applyThreshold_step t d i) = length d.
Proof. unfold applyThreshold_step. by rewrite !length_wr. Qed.

Lemma rd_applyThreshold_step_other t d i j :
  ~ (id i <= j <= id i + 3) -> rd (applyThreshold_step t d i) j = rd d j.
Proof.
  unfold id. intros Hj. unfold applyThreshold_step.
  apply (rd_store_other d i _ _ _ None j Hj).
Qed.

Lemma rd_applyThreshold_step_same t d i c :
  0 <= c <= 3 ->
  rd (applyThreshold_step t d i) (id i + c)
  = threshold_result t c (px_reads d (id i)).
Proof.
  unfold id. intros Hc. unfold applyThreshold_step.
  rewrite (rd_store_same d i _ _ _ None c Hc).
  unfold store_result, threshold_result, px_reads.
  by rewrite !binary_of_clamp.
Qed.

Lemma length_applyThreshold t d : length (applyThreshold t d) = length d.
Proof. apply length_pixel_loop, length_applyThreshold_step. Qed.

Lemma applyThreshold_px (t : float) (data : list Z) (k r g b a : Z) :
  0 <= k ->
  rd data (4 * k) = Some r -> rd data (4 * k + 1) = Some g ->
  rd data (4 * k + 2) = Some b -> rd data (4 * k + 3) = Some a ->
  forall c, 0 <= c <= 3 ->
    rd (applyThreshold t data) (4 * k + c)
    = Some (if c <=? 2 then binary_of t (to_number (Some r)) else a).
Proof.
  intros Hk Hr Hg Hb Ha c Hc.
  assert (Hlen : 4 * k + 3 < Z.of_nat (length data))
    by (apply rd_Some_range in Ha; lia).
  unfold applyThreshold.
  transitivity (threshold_result t c (px_reads data (4 * k))).
  { apply (rd_pixel_loop_in (applyThreshold_step t) id
             (fun _ => threshold_result t)
             (rd_applyThreshold_step_other t) (rd_applyThreshold_step_same t)
             (pixel_offsets (length data)) data (4 * k) c);
      [apply pixel_offsets_id_aligned | apply pixel_offsets_id_NoDup
      | by apply elem_of_pixel_offsets | done]. }
  unfold px_reads. rewrite Hr, Hg, Hb, Ha.
  by destruct (channel_cases c Hc) as [-> | [-> | [-> | ->]]].
Qed.

(** [applyThreshold] decides every pixel on its red channel alone: the three
    colour channels become 0 when the red channel is below the threshold and
    255 otherwise, and the alpha channel is left as it is (it is not forced
    to 255, unlike in [createHighQualityLineArt]). *)
Theorem applyThreshold_pixel (t : float) (data : list Z) (k r g b a : Z) :
  0 <= k ->
  rd data (4 * k) = Some r -> rd data (4 * k + 1) = Some g ->
  rd data (4 * k + 2) = Some b -> rd data (4 * k + 3) = Some a ->
  let out := applyThreshold t data in
  let v := if PrimFloat.ltb (to_number (Some r)) t then 0 else 255 in
  rd out (4 * k) = Some v /\ rd out (4 * k + 1) = Some v
  /\ rd out (4 * k + 2) = Some v /\ rd out (4 * k + 3) = Some a
  /\ length out = length data.
Proof.
  intros Hk Hr Hg Hb Ha out v.
  pose proof (applyThreshold_px t data k r g b a Hk Hr Hg Hb Ha) as Hpx.
  split; [rewrite <- (Z.add_0_r (4 * k)); by rewrite Hpx by lia |].
  split; [by rewrite Hpx by lia |].
  split; [by rewrite Hpx by lia |].
  split; [by rewrite Hpx by lia |].
  apply length_applyThreshold.
Qed.

(** For a threshold [t] with [0 < t <= 255], thresholding a second time
    changes nothing. *)
Theorem applyThreshold_idempotent (t : float) (data : list Z) (n : Z) :
  PrimFloat.ltb 0 t = true -> PrimFloat.ltb 255 t = false ->
  Z.of_nat (length data) = 4 * n ->
  applyThreshold t (applyThreshold t data) = applyThreshold t data.
Proof.
  intros H0 H255 Hlen. apply (buffer_ext _ _ n).
  - by rewrite !length_applyThreshold.
  - by rewrite !length_applyThreshold.
  - intros k c Hk Hc.
    destruct (rd data (4 * k)) as [r |] eqn:Hr; [| apply rd_None in Hr; lia].
    destruct (rd data (4 * k + 1)) as [g |] eqn:Hg; [| apply rd_None in Hg; lia].
    destruct (rd data (4 * k + 2)) as [b |] eqn:Hb; [| apply rd_None in Hb; lia].
    destruct (rd data (4 * k + 3)) as [a |] eqn:Ha; [| apply rd_None in Ha; lia].
    pose proof (applyThreshold_px t data k r g b a (proj1 Hk) Hr Hg Hb Ha) as H1.
    set (v := binary_of t (to_number (Some r))) in *.
    assert (Hfix : binary_of t (to_number (Some v)) = v).
    { subst v. unfold binary_of.
      destruct (PrimFloat.ltb (to_number (Some r)) t) eqn:Hlt.
      - change (to_number (Some 0)) with 0%float. by rewrite H0.
      - change (to_number (Some 255)) with 255%float. by rewrite H255. }
    pose proof (applyThreshold_px t (applyThreshold t data) k v v v a (proj1 Hk))
      as H2.
    rewrite Hfix in H2.
    assert (G0 : rd (applyThreshold t data) (4 * k) = Some v).
    { rewrite <- (Z.add_0_r (4 * k)). by rewrite H1 by lia. }
    assert (G1 : rd (applyThreshold t data) (4 * k + 1) = Some v)
      by (by rewrite H1 by lia).
    assert (G2 : rd (applyThreshold t data) (4 * k + 2) = Some v)
      by (by rewrite H1 by lia).
    assert (G3 : rd (applyThreshold t data) (4 * k + 3) = Some a)
      by (by rewrite H1 by lia).
    rewrite (H2 G0 G1 G2 G3 c Hc), (H1 c Hc). by destruct (c <=? 2).
Qed.

(** *** Convolutions over a flat window *)

Lemma elem_of_window kx ky :
  (kx, ky) ∈ window <-> -1 <= kx <= 1 /\ -1 <= ky <= 1.
Proof.
  unfold window. rewrite list_elem_of_bind. split.
  - intros (ky' & Hx & Hy). apply list_elem_of_bind in Hx as (kx' & Hx & Hx').
    apply list_elem_of_singleton in Hx. inversion Hx; subst.
    apply elem_of_zrange in Hx', Hy. lia.
  - intros [Hx Hy]. exists ky. split; [| apply elem_of_zrange; lia].
    apply list_elem_of_bind. exists kx. split; [| apply elem_of_zrange; lia].
    apply list_elem_of_here.
Qed.

Lemma convolve_flat kernel data width x y ch v :
  (forall kx ky, -1 <= kx <= 1 -> -1 <= ky <= 1 ->
     rd data (((y + ky) * width + (x + kx)) * 4 + ch) = Some v) ->
  convolve kernel data width x y ch = flat_sum kernel v.
Proof.
  intros Hflat. unfold convolve, flat_sum. apply foldl_ext_in.
  intros acc [kx ky] Hk. apply elem_of_window in Hk as [Hkx Hky]. cbn.
  by rewrite Hflat.
Qed.

Lemma gaussian_flat v :
  0 <= v <= 255 -> to_uint8_clamp (flat_sum gaussian_kernel v) = v.
Proof.
  intros Hv. apply Z.eqb_eq.
  apply (forallb_zrange
           (fun v => to_uint8_clamp (flat_sum gaussian_kernel v) =? v) 0 255);
    [vm_compute; reflexivity | done].
Qed.

Lemma sobel_flat v :
  0 <= v <= 255 ->
  PrimFloat.ltb 50
    (PrimFloat.sqrt (flat_sum sobelX v * flat_sum sobelX v
                     + flat_sum sobelY v * flat_sum sobelY v)%float) = false.
Proof.
  intros Hv. apply negb_true_iff.
  apply (forallb_zrange
           (fun v => negb (PrimFloat.ltb 50
              (PrimFloat.sqrt (flat_sum sobelX v * flat_sum sobelX v
                               + flat_sum sobelY v * flat_sum sobelY v)%float)))
           0 255);
    [vm_compute; reflexivity | done].
Qed.

(** *** [applyGaussianBlur] *)

Lemma length_blur_pixel data width out p :
  length (blur_pixel data width out p) = length out.
Proof. unfold blur_pixel, wr_num. by rewrite !length_wr. Qed.

Lemma length_copy_pixel output width d p :
  length (copy_pixel output width d p) = length d.
Proof. unfold copy_pixel, wr_elem. by rewrite !length_wr. Qed.

Lemma length_applyGaussianBlur width height data :
  length (applyGaussianBlur width height data) = length data.
Proof.
  unfold applyGaussianBlur. apply length_pixel_loop. apply length_copy_pixel.
Qed.

Lemma rd_zeros n j :
  rd (replicate n 0) j = if bool_decide (0 <= j < Z.of_nat n) then Some 0 else None.
Proof.
  case_bool_decide as Hj.
  - destruct (rd (replicate n 0) j) as [v |] eqn:Hr.
    + unfold rd in Hr. destruct (j <? 0); [done |].
      apply lookup_replicate in Hr as [-> _]. done.
    + apply rd_None in Hr. rewrite length_replicate in Hr. tauto.
  - apply rd_None. by rewrite length_replicate.
Qed.

Lemma rd_blur_output data width height x y c :
  1 <= x <= width - 2 -> 1 <= y <= height - 2 -> 0 <= c <= 2 ->
  0 <= (y * width + x) * 4 + c < Z.of_nat (length data) ->
  rd (foldl (blur_pixel data width) (replicate (length data) 0)
        (interior width height)) ((y * width + x) * 4 + c)
  = Some (to_uint8_clamp (convolve gaussian_kernel data width x y c)).
Proof.
  intros Hx Hy Hc Hr.
  transitivity
    (store_result
       (clamp8 (to_uint8_clamp (convolve gaussian_kernel data width x y 0)))
       (clamp8 (to_uint8_clamp (convolve gaussian_kernel data width x y 1)))
       (clamp8 (to_uint8_clamp (convolve gaussian_kernel data width x y 2)))
       (clamp8 <$> Some 255) c
       (px_reads (replicate (length data) 0) ((y * width + x) * 4))).
  { apply (rd_pixel_loop_in (blur_pixel data width)
             (fun p : Z * Z => (p.2 * width + p.1) * 4)
             (fun p => store_result
                (clamp8 (to_uint8_clamp (convolve gaussian_kernel data width p.1 p.2 0)))
                (clamp8 (to_uint8_clamp (convolve gaussian_kernel data width p.1 p.2 1)))
                (clamp8 (to_uint8_clamp (convolve gaussian_kernel data width p.1 p.2 2)))
                (clamp8 <$> Some 255))
             (fun d p j Hj => rd_store_other d _ _ _ _ (Some 255) j Hj)
             (fun d p c Hc => rd_store_same d _ _ _ _ (Some 255) c Hc)
             (interior width height) _ (x, y) c).
    - apply interior_positions_aligned.
    - apply interior_positions_NoDup.
    - by apply interior_in_image.
    - lia. }
  unfold store_result, px_reads. rewrite !rd_zeros, !clamp8_to_uint8_clamp.
  destruct (channel_cases c ltac:(lia)) as [-> | [-> | [-> | ->]]];
    cbn [Z.eqb Pos.eqb]; try lia;
    rewrite ?Z.add_0_r in *; repeat case_bool_decide; (done || lia).
Qed.

Lemma rd_copy_in output width height data x y c :
  1 <= x <= width - 2 -> 1 <= y <= height - 2 -> 0 <= c <= 3 ->
  rd (foldl (copy_pixel output width) data (interior width height))
    ((y * width + x) * 4 + c)
  = store_result
      (clamp8 (elem_or_0 (rd output ((y * width + x) * 4))))
      (clamp8 (elem_or_0 (rd output ((y * width + x) * 4 + 1))))
      (clamp8 (elem_or_0 (rd output ((y * width + x) * 4 + 2))))
      None c (px_reads data ((y * width + x) * 4)).
Proof.
  intros Hx Hy Hc.
  apply (rd_pixel_loop_in (copy_pixel output width)
           (fun p : Z * Z => (p.2 * width + p.1) * 4)
           (fun p => store_result
              (clamp8 (elem_or_0 (rd output ((p.2 * width + p.1) * 4))))
              (clamp8 (elem_or_0 (rd output ((p.2 * width + p.1) * 4 + 1))))
              (clamp8 (elem_or_0 (rd output ((p.2 * width + p.1) * 4 + 2))))
              None)
           (fun d p j Hj => rd_store_other d _ _ _ _ None j Hj)
           (fun d p c Hc => rd_store_same d _ _ _ _ None c Hc)
           (interior width height) data (x, y) c).
  - apply interior_positions_aligned.
  - apply interior_positions_NoDup.
  - by apply interior_in_image.
  - done.
Qed.

Lemma rd_copy_out output width height data k c :
  0 <= c <= 3 ->
  (forall x y, 1 <= x <= width - 2 -> 1 <= y <= height - 2 ->
     (y * width + x) * 4 <> 4 * k) ->
  rd (foldl (copy_pixel output width) data (interior width height)) (4 * k + c)
  = rd data (4 * k + c).
Proof.
  intros Hc Hout.
  apply (rd_pixel_loop_out (copy_pixel output width)
           (fun p : Z * Z => (p.2 * width + p.1) * 4)
           (fun d p j Hj => rd_store_other d _ _ _ _ None j Hj)
           (interior width height) data (4 * k) c).
  - apply interior_positions_aligned.
  - by exists k.
  - done.
  - intros [x y] Hp. apply interior_in_image in Hp as [Hx Hy]. by apply Hout.
Qed.

Lemma interior_dec width height k :
  (exists x y, 1 <= x <= width - 2 /\ 1 <= y <= height - 2
               /\ (y * width + x) * 4 = 4 * k)
  \/ (forall x y, 1 <= x <= width - 2 -> 1 <= y <= height - 2 ->
        (y * width + x) * 4 <> 4 * k).
Proof.
  destruct (decide (4 * k ∈ (fun p : Z * Z => (p.2 * width + p.1) * 4)
                             <$> interior width height)) as [Hin | Hout].
  - left. apply list_elem_of_fmap in Hin as ([x y] & Heq & Hp).
    apply interior_in_image in Hp as [Hx Hy]. exists x, y. cbn in Heq. lia.
  - right. intros x y Hx Hy Heq. apply Hout. apply list_elem_of_fmap.
    exists (x, y). split; [done | by apply interior_in_image].
Qed.

(** [applyGaussianBlur] changes nothing but the colour channels of interior
    pixels: the pixels of the first and last row and column, and every alpha
    value, pass through. An interior colour channel becomes the weighted sum
    of its 3 × 3 window rounded to a byte; where the nine values of the
    window are one and the same byte, that byte is kept (the kernel is
    normalised, and the binary64 sum is exact). *)
Theorem applyGaussianBlur_spec (width height : Z) (data : list Z) :
  let out := applyGaussianBlur width height data in
  (forall j,
     (forall x y, 1 <= x <= width - 2 -> 1 <= y <= height - 2 ->
        ~ ((y * width + x) * 4 <= j <= (y * width + x) * 4 + 2)) ->
     rd out j = rd data j)
  /\ (forall x y c,
        1 <= x <= width - 2 -> 1 <= y <= height - 2 -> 0 <= c <= 2 ->
        0 <= (y * width + x) * 4 + c < Z.of_nat (length data) ->
        rd out ((y * width + x) * 4 + c)
        = Some (to_uint8_clamp (convolve gaussian_kernel data width x y c)))
  /\ (forall x y c v,
        1 <= x <= width - 2 -> 1 <= y <= height - 2 -> 0 <= c <= 2 ->
        0 <= v <= 255 ->
        (forall kx ky, -1 <= kx <= 1 -> -1 <= ky <= 1 ->
           rd data (((y + ky) * width + (x + kx)) * 4 + c) = Some v) ->
        rd out ((y * width + x) * 4 + c) = Some v)
  /\ length out = length data.
Proof.
  intros out.
  assert (Hin : forall x y c,
            1 <= x <= width - 2 -> 1 <= y <= height - 2 -> 0 <= c <= 2 ->
            0 <= (y * width + x) * 4 + c < Z.of_nat (length data) ->
            rd out ((y * width + x) * 4 + c)
            = Some (to_uint8_clamp (convolve gaussian_kernel data width x y c))).
  { intros x y c Hx Hy Hc Hr. subst out. unfold applyGaussianBlur.
    rewrite rd_copy_in by (done || lia).
    pose proof (rd_blur_output data width height x y c Hx Hy Hc Hr) as Hout.
    apply rd_is_Some in Hr as [old Hold].
    unfold store_result, px_reads.
    destruct (channel_cases c ltac:(lia)) as [-> | [-> | [-> | ->]]];
      cbn [Z.eqb Pos.eqb]; try lia; rewrite ?Z.add_0_r in *;
      rewrite Hout, Hold; cbn; by rewrite clamp8_to_uint8_clamp. }
  split; [| split; [done | split]].
  - intros j Hj.
    destruct (Z.ltb_spec j 0) as [Hneg | Hpos].
    { unfold rd. by destruct (Z.ltb_spec j 0); [| lia]. }
    destruct (rd_decompose j Hpos) as (k & c & -> & Hk & Hc).
    subst out. unfold applyGaussianBlur.
    destruct (interior_dec width height k) as [(x & y & Hx & Hy & Heq) | Hout].
    + rewrite <- Heq. rewrite rd_copy_in by done.
      assert (c = 3) as ->.
      { destruct (decide (c = 3)); [done |]. exfalso.
        apply (Hj x y Hx Hy). lia. }
      done.
    + by apply rd_copy_out.
  - intros x y c v Hx Hy Hc Hv Hflat.
    pose proof (Hflat 0 0 ltac:(lia) ltac:(lia)) as Hcentre.
    rewrite !Z.add_0_r in Hcentre. apply rd_Some_range in Hcentre as Hr.
    rewrite Hin by done.
    rewrite (convolve_flat _ _ _ _ _ _ v) by done.
    by rewrite gaussian_flat.
  - apply length_applyGaussianBlur.
Qed.

(** *** [applySobelEdgeDetection] *)

Lemma length_whiten out i : length (whiten out i) = length out.
Proof. unfold whiten. by rewrite !length_wr. Qed.

Lemma length_sobel_pixel data width out p :
  length (sobel_pixel data width out p) = length out.
Proof. unfold sobel_pixel. by rewrite !length_wr. Qed.

Lemma length_applySobelEdgeDetection width height data :
  length (applySobelEdgeDetection width height data) = length data.
Proof.
  unfold applySobelEdgeDetection.
  rewrite (length_pixel_loop (sobel_pixel data width));
    [| apply length_sobel_pixel].
  rewrite (length_pixel_loop whiten); [| apply length_whiten].
  apply length_replicate.
Qed.

Lemma sobel_edge_binary data width x y :
  sobel_edge data width x y = 0 \/ sobel_edge data width x y = 255.
Proof. unfold sobel_edge. destruct (PrimFloat.ltb _ _); tauto. Qed.

Lemma rd_white_output (n : nat) k c :
  0 <= k -> 4 * k + 3 < Z.of_nat n -> 0 <= c <= 3 ->
  rd (foldl whiten (replicate n 0) (pixel_offsets n)) (4 * k + c) = Some 255.
Proof.
  intros Hk Hn Hc.
  transitivity (store_result (clamp8 255) (clamp8 255) (clamp8 255)
                  (clamp8 <$> Some 255) c (px_reads (replicate n 0) (4 * k))).
  { apply (rd_pixel_loop_in whiten id
             (fun _ => store_result (clamp8 255) (clamp8 255) (clamp8 255)
                         (clamp8 <$> Some 255))
             (fun d p j Hj => rd_store_other d _ _ _ _ (Some 255) j Hj)
             (fun d p c Hc => rd_store_same d _ _ _ _ (Some 255) c Hc)
             (pixel_offsets n) _ (4 * k) c).
    - apply pixel_offsets_id_aligned.
    - apply pixel_offsets_id_NoDup.
    - by apply elem_of_pixel_offsets.
    - done. }
  unfold store_result, px_reads. rewrite !rd_zeros.
  destruct (channel_cases c Hc) as [-> | [-> | [-> | ->]]];
    cbn [Z.eqb Pos.eqb fmap option_fmap option_map];
    repeat case_bool_decide; (done || lia).
Qed.

Lemma rd_sobel_in data width height out x y c :
  1 <= x <= width - 2 -> 1 <= y <= height - 2 -> 0 <= c <= 3 ->
  rd (foldl (sobel_pixel data width) out (interior width height))
    ((y * width + x) * 4 + c)
  = store_result (clamp8 (sobel_edge data width x y))
      (clamp8 (sobel_edge data width x y)) (clamp8 (sobel_edge data width x y))
      (clamp8 <$> Some 255) c (px_reads out ((y * width + x) * 4)).
Proof.
  intros Hx Hy Hc.
  apply (rd_pixel_loop_in (sobel_pixel data width)
           (fun p : Z * Z => (p.2 * width + p.1) * 4)
           (fun p => store_result (clamp8 (sobel_edge data width p.1 p.2))
              (clamp8 (sobel_edge data width p.1 p.2))
              (clamp8 (sobel_edge data width p.1 p.2)) (clamp8 <$> Some 255))
           (fun d p j Hj => rd_store_other d _ _ _ _ (Some 255) j Hj)
           (fun d p c Hc => rd_store_same d _ _ _ _ (Some 255) c Hc)
           (interior width height) out (x, y) c).
  - apply interior_positions_aligned.
  - apply interior_positions_NoDup.
  - by apply interior_in_image.
  - done.
Qed.

Lemma rd_sobel_out data width height out k c :
  0 <= c <= 3 ->
  (forall x y, 1 <= x <= width - 2 -> 1 <= y <= height - 2 ->
     (y * width + x) * 4 <> 4 * k) ->
  rd (foldl (sobel_pixel data width) out (interior width height)) (4 * k + c)
  = rd out (4 * k + c).
Proof.
  intros Hc Hout.
  apply (rd_pixel_loop_out (sobel_pixel data width)
           (fun p : Z * Z => (p.2 * width + p.1) * 4)
           (fun d p j Hj => rd_store_other d _ _ _ _ (Some 255) j Hj)
           (interior width height) out (4 * k) c).
  - apply interior_positions_aligned.
  - by exists k.
  - done.
  - intros [x y] Hp. apply interior_in_image in Hp as [Hx Hy]. by apply Hout.
Qed.

(** The value of the three colour channels of the pixel [(x, y)] after
    the edge detection. *)
Lemma applySobel_px width height data x y c :
  Z.of_nat (length data) = 4 * (width * height) ->
  0 <= x < width -> 0 <= y < height -> 0 <= c <= 3 ->
  rd (applySobelEdgeDetection width height data) ((y * width + x) * 4 + c)
  = Some (if (c <=? 2) && bool_decide (1 <= x <= width - 2 /\ 1 <= y <= height - 2)
          then sobel_edge data width x y else 255).
Proof.
  intros Hlen Hx Hy Hc.
  pose proof (pixel_index_range width height x y Hx Hy) as Hidx.
  assert (Hwhite : forall c, 0 <= c <= 3 ->
            rd (foldl whiten (replicate (length data) 0)
                  (pixel_offsets (length data))) ((y * width + x) * 4 + c)
            = Some 255).
  { intros c' Hc'. replace ((y * width + x) * 4) with (4 * (y * width + x)) by lia.
    apply rd_white_output; lia. }
  unfold applySobelEdgeDetection. case_bool_decide as Hint.
  - destruct Hint as [Hix Hiy]. rewrite rd_sobel_in by done.
    unfold store_result, px_reads.
    pose proof (Hwhite 0 ltac:(lia)) as H0. rewrite Z.add_0_r in H0.
    rewrite H0, !Hwhite by lia.
    destruct (sobel_edge_binary data width x y) as [-> | ->];
      by destruct (channel_cases c Hc) as [-> | [-> | [-> | ->]]].
  - rewrite andb_false_r.
    replace ((y * width + x) * 4) with (4 * (y * width + x)) by lia.
    rewrite rd_sobel_out; [| done |].
    + replace (4 * (y * width + x)) with ((y * width + x) * 4) by lia.
      by apply Hwhite.
    + intros x' y' Hx' Hy' Heq. apply Hint.
      destruct (pixel_index_inj width x' y' x y) as [-> ->]; (done || lia).
Qed.

(** [applySobelEdgeDetection] on a buffer of [width × height] pixels leaves a
    pure black-and-white image with alpha 255: a pixel of the first or last
    row or column is white, an interior pixel is black exactly when the
    gradient magnitude of the red channel over its 3 × 3 window exceeds 50,
    and an interior pixel whose window holds nine times the same byte is
    white. *)
Theorem applySobelEdgeDetection_spec
    (width height : Z) (data : list Z) (x y : Z) :
  Z.of_nat (length data) = 4 * (width * height) ->
  0 <= x < width -> 0 <= y < height ->
  let out := applySobelEdgeDetection width height data in
  let idx := (y * width + x) * 4 in
  let inside := 1 <= x <= width - 2 /\ 1 <= y <= height - 2 in
  (exists e, (e = 0 \/ e = 255)
     /\ rd out idx = Some e /\ rd out (idx + 1) = Some e
     /\ rd out (idx + 2) = Some e /\ rd out (idx + 3) = Some 255
     /\ (e = 0 <-> inside /\ sobel_edge data width x y = 0))
  /\ (forall v, inside -> 0 <= v <= 255 ->
        (forall kx ky, -1 <= kx <= 1 -> -1 <= ky <= 1 ->
           rd data (((y + ky) * width + (x + kx)) * 4 + 0) = Some v) ->
        rd out idx = Some 255)
  /\ length out = length data.
Proof.
  intros Hlen Hx Hy out idx inside.
  assert (Hpx : forall c, 0 <= c <= 3 ->
            rd out (idx + c)
            = Some (if (c <=? 2) && bool_decide inside
                    then sobel_edge data width x y else 255)).
  { intros c Hc. by apply applySobel_px. }
  assert (H0 : rd out idx
               = Some (if bool_decide inside then sobel_edge data width x y
                       else 255)).
  { specialize (Hpx 0 ltac:(lia)). by rewrite Z.add_0_r in Hpx. }
  split; [| split].
  - exists (if bool_decide inside then sobel_edge data width x y else 255).
    split.
    { case_bool_decide; [apply sobel_edge_binary | by right]. }
    split; [done |]. split; [by rewrite Hpx by lia |].
    split; [by rewrite Hpx by lia |]. split; [by rewrite Hpx by lia |].
    case_bool_decide as Hin; [tauto |]. split; [done | tauto].
  - intros v Hin Hv Hflat. rewrite H0.
    rewrite bool_decide_eq_true_2 by done. f_equal.
    unfold sobel_edge.
    rewrite (convolve_flat sobelX _ _ _ _ _ v) by done.
    rewrite (convolve_flat sobelY _ _ _ _ _ v) by done.
    by rewrite sobel_flat.
  - apply length_applySobelEdgeDetection.
Qed.

(** *** [processLineArt] *)

Lemma length_dilate alpha width height r data :
  length (dilate alpha width height r data) = length data.
Proof.
  unfold dilate. rewrite dilate_along_targets.
  generalize (targets (scan_order width height) width height (disk_kernel r) data).
  intros ts. revert data. induction ts as [| t ts IH]; intros data; [done |].
  cbn. by rewrite IH, length_blacken.
Qed.

Lemma dilate_px_uniform alpha width height r data k :
  (rd (dilate alpha width height r data) (4 * k) = rd data (4 * k)
   /\ rd (dilate alpha width height r data) (4 * k + 1) = rd data (4 * k + 1)
   /\ rd (dilate alpha width height r data) (4 * k + 2) = rd data (4 * k + 2))
  \/ (rd (dilate alpha width height r data) (4 * k) = overwrite (rd data (4 * k)) 0
      /\ rd (dilate alpha width height r data) (4 * k + 1)
         = overwrite (rd data (4 * k + 1)) 0
      /\ rd (dilate alpha width height r data) (4 * k + 2)
         = overwrite (rd data (4 * k + 2)) 0).
Proof.
  unfold dilate. rewrite dilate_along_targets.
  set (ts := targets _ _ _ _ _).
  assert (Hc : forall c, 0 <= c <= 2 ->
            rd (foldl (blacken alpha) data ts) (4 * k + c)
            = if bool_decide (4 * k ∈ ts) then overwrite (rd data (4 * k + c)) 0
              else rd data (4 * k + c)).
  { intros c Hc.
    rewrite rd_foldl_blacken; [| apply targets_aligned | by exists k | lia].
    case_bool_decide; [| done]. unfold painted, overwrite.
    destruct (rd data (4 * k + c)); [| done].
    by destruct (Z.leb_spec c 2); [| lia]. }
  pose proof (Hc 0 ltac:(lia)) as H0. rewrite Z.add_0_r in H0.
  rewrite H0, !Hc by lia. case_bool_decide; [by right | by left].
Qed.

(** Whatever the options, [processLineArt] returns a buffer of the size of
    the input in which the three colour channels of every pixel are all 0 or
    all 255. *)
Theorem processLineArt_binary
    (width height : Z) (pixels : list Z) (options : LineArtOptions) (k : Z) :
  Z.of_nat (length pixels) = 4 * (width * height) ->
  0 <= k < width * height ->
  let out := processLineArt width height pixels options in
  length out = length pixels
  /\ ((rd out (4 * k) = Some 0 /\ rd out (4 * k + 1) = Some 0
       /\ rd out (4 * k + 2) = Some 0)
      \/ (rd out (4 * k) = Some 255 /\ rd out (4 * k + 1) = Some 255
          /\ rd out (4 * k + 2) = Some 255)).
Proof.
  intros Hlen Hk out. subst out. unfold processLineArt.
  set (d1 := if edgeDetect options then _ else _).
  assert (Hl1 : length d1 = length pixels).
  { subst d1. destruct (edgeDetect options), (gaussianBlur options);
      rewrite ?length_applySobelEdgeDetection, ?length_applyGaussianBlur,
        ?length_toGrayscale; done. }
  set (d2 := applyThreshold (threshold options) d1).
  assert (Hd2 : exists v a, (v = 0 \/ v = 255)
            /\ rd d2 (4 * k) = Some v /\ rd d2 (4 * k + 1) = Some v
            /\ rd d2 (4 * k + 2) = Some v /\ rd d2 (4 * k + 3) = Some a).
  { destruct (rd d1 (4 * k)) as [r |] eqn:Hr; [| apply rd_None in Hr; lia].
    destruct (rd d1 (4 * k + 1)) as [g |] eqn:Hg; [| apply rd_None in Hg; lia].
    destruct (rd d1 (4 * k + 2)) as [b |] eqn:Hb; [| apply rd_None in Hb; lia].
    destruct (rd d1 (4 * k + 3)) as [a |] eqn:Ha; [| apply rd_None in Ha; lia].
    pose proof (applyThreshold_px (threshold options) d1 k r g b a
                  (proj1 Hk) Hr Hg Hb Ha) as Hpx.
    exists (binary_of (threshold options) (to_number (Some r))), a.
    split; [unfold binary_of; destruct (PrimFloat.ltb _ _); tauto |].
    split; [rewrite <- (Z.add_0_r (4 * k)); by rewrite Hpx by lia |].
    split; [by rewrite Hpx by lia |].
    split; by rewrite Hpx by lia. }
  destruct Hd2 as (v & a & Hv & H0 & H1 & H2 & H3).
  destruct (0 <? dilationRadius options).
  - split.
    { unfold applyDilation. rewrite length_dilate. subst d2.
      by rewrite length_applyThreshold. }
    unfold applyDilation.
    destruct (dilate_px_uniform true width height (dilationRadius options) d2 k)
      as [(G0 & G1 & G2) | (G0 & G1 & G2)]; rewrite G0, G1, G2, H0, H1, H2.
    + destruct Hv as [-> | ->]; tauto.
    + left. done.
  - split; [subst d2; by rewrite length_applyThreshold |].
    destruct Hv as [-> | ->]; tauto.
Qed.

(** *** [createHighQualityLineArt] *)

Lemma rd_binarize_px t data k :
  0 <= k -> 4 * k + 3 < Z.of_nat (length data) ->
  let v := binary_of t (brightness data (4 * k)) in
  rd (binarize t data) (4 * k) = Some v
  /\ rd (binarize t data) (4 * k + 1) = Some v
  /\ rd (binarize t data) (4 * k + 2) = Some v
  /\ rd (binarize t data) (4 * k + 3) = Some 255.
Proof.
  intros Hk Hlen v.
  assert (Hin : 4 * k ∈ pixel_offsets (length data))
    by (by apply elem_of_pixel_offsets).
  assert (Hal : aligned (4 * k)) by (by exists k).
  pose proof (pixel_offsets_aligned (length data)) as Hall.
  pose proof (pixel_offsets_NoDup (length data)) as Hnd.
  unfold binarize. split; [| split; [| split]].
  - rewrite <- (Z.add_0_r (4 * k)) at 1.
    rewrite rd_foldl_binarize_colour by (done || lia). done.
  - rewrite rd_foldl_binarize_colour by (done || lia). done.
  - rewrite rd_foldl_binarize_colour by (done || lia). done.
  - apply rd_foldl_binarize_alpha; done || lia.
Qed.

(** The buffer that [createHighQualityLineArt] returns is pure black and
    white, for every threshold and every dilation radius: each pixel is
    (0, 0, 0, 255) or (255, 255, 255, 255), and a pixel whose brightness is
    below the threshold is black whatever the radius (the dilation only adds
    black). *)
Theorem createHighQualityLineArt_pure_binary
    (width height : Z) (pixels : list Z) (threshold : float)
    (dilationRadius k : Z) :
  0 <= k -> 4 * k + 3 < Z.of_nat (length pixels) ->
  let out := createHighQualityLineArt width height pixels threshold
               dilationRadius in
  (exists v, (v = 0 \/ v = 255)
     /\ rd out (4 * k) = Some v /\ rd out (4 * k + 1) = Some v
     /\ rd out (4 * k + 2) = Some v /\ rd out (4 * k + 3) = Some 255
     /\ (PrimFloat.ltb (brightness pixels (4 * k)) threshold = true -> v = 0))
  /\ length out = length pixels.
Proof.
  intros Hk Hlen out. subst out. unfold createHighQualityLineArt.
  destruct (rd_binarize_px threshold pixels k Hk Hlen) as (H0 & H1 & H2 & H3).
  assert (Hv : binary_of threshold (brightness pixels (4 * k)) = 0
               \/ binary_of threshold (brightness pixels (4 * k)) = 255).
  { unfold binary_of. destruct (PrimFloat.ltb _ _); tauto. }
  assert (Hlt : PrimFloat.ltb (brightness pixels (4 * k)) threshold = true ->
                binary_of threshold (brightness pixels (4 * k)) = 0).
  { unfold binary_of. by intros ->. }
  destruct (0 <? dilationRadius).
  - split; [| rewrite length_dilate; apply length_foldl_binarize].
    assert (Ha : rd (dilate false width height dilationRadius
                       (binarize threshold pixels)) (4 * k + 3) = Some 255).
    { unfold dilate. rewrite dilate_along_targets.
      rewrite rd_foldl_blacken; [| apply targets_aligned | by exists k | lia].
      rewrite H3. by case_bool_decide. }
    destruct (dilate_px_uniform false width height dilationRadius
                (binarize threshold pixels) k)
      as [(G0 & G1 & G2) | (G0 & G1 & G2)].
    + exists (binary_of threshold (brightness pixels (4 * k))).
      by rewrite G0, G1, G2, H0, H1, H2.
    + exists 0. rewrite G0, G1, G2, H0, H1, H2. cbn. tauto.
  - split; [| apply length_foldl_binarize].
    exists (binary_of threshold (brightness pixels (4 * k))). done.
Qed.

(* ================================================================= *)
(** ** The background music *)

Section AudioManagerFacts.
Import AudioManager.

Lemma clamp_volume_range (vol : Q) : (0 <= Qmax 0 (Qmin 1 vol) <= 1)%Q.
Proof.
  split; [apply Q.le_max_l |].
  apply Q.max_lub; [done |]. apply Q.le_min_l.
Qed.

Lemma consistent_setVolume vol m : consistent m -> consistent (setVolume vol m).
Proof.
  intros [Hv Hs Hn Hd]. split; cbn; [apply clamp_volume_range | | | done].
  - intros a'. destruct (audio m) as [a |] eqn:Ha; [| done].
    intros [= <-]. cbn. split; [done |]. by apply (Hs a).
  - intros Hnone a'. cbn. destruct (audio m) as [a |] eqn:Ha; [| done].
    intros [= <-]. cbn. by apply (Hn Hnone a).
Qed.

Lemma consistent_play allowed m : consistent m -> consistent (play allowed m).
Proof.
  intros Hc. unfold play. case_bool_decide as Hnone; [done |].
  destruct (audio m) as [a |] eqn:Ha; [| done].
  destruct Hc as [Hv Hs Hn Hd]. split; cbn; [done | | done | done].
  intros a' [= <-]. cbn. by apply Hs.
Qed.

Lemma consistent_pause m : consistent m -> consistent (pause m).
Proof.
  intros Hc. unfold pause. destruct (audio m) as [a |] eqn:Ha; [| done].
  destruct Hc as [Hv Hs Hn Hd]. split; cbn; [done | | | done].
  - intros a' [= <-]. cbn. by apply Hs.
  - intros _ a' [= <-]. done.
Qed.

Lemma consistent_switchTrack name allowed m :
  consistent m -> consistent (switchTrack name allowed m).
Proof.
  intros Hc. unfold switchTrack. case_bool_decide as Hname.
  { destruct Hc as [Hv Hs Hn Hd]. split; cbn; [done | | | done].
    - intros a'. destruct (audio m) as [a |] eqn:Ha; [| done].
      intros [= <-]. cbn. by apply Hs.
    - intros _ a'. cbn. destruct (audio m) as [a |] eqn:Ha; [| done].
      by intros [= <-]. }
  destruct (is_truthy (get (tracks m) name)); [| done]. cbn [negb].
  rewrite bool_decide_eq_false_2 by (cbn; congruence).
  rewrite orb_true_r. apply consistent_play.
  destruct Hc as [Hv Hs Hn Hd]. split; cbn; [done | | | ].
  - by intros a' [= <-].
  - intros [= ?]. done.
  - destruct (audio m); [by constructor | done].
Qed.

Lemma consistent_call m c : consistent m -> consistent (call m c).
Proof.
  intros Hc. destruct c; cbn.
  - by destruct Hc.
  - by apply consistent_switchTrack.
  - by apply consistent_play.
  - by apply consistent_pause.
  - unfold toggle. destruct (audio m) as [a |]; [| done]. cbn.
    destruct (Audio.paused a);
      [by apply consistent_play | by apply consistent_pause].
  - by apply consistent_setVolume.
  - by apply consistent_setVolume.
  - by apply consistent_setVolume.
  - unfold mute. destruct (audio m) as [a |] eqn:Ha; [| done].
    destruct Hc as [Hv Hs Hn Hd]. split; cbn; [done | | | done].
    + intros a' [= <-]. cbn. by apply Hs.
    + intros Hnone a' [= <-]. cbn. by apply (Hn Hnone a).
Qed.

Lemma consistent_calls cs : forall m, consistent m -> consistent (calls m cs).
Proof.
  induction cs as [| c cs IH]; intros m Hc; [done |].
  cbn. by apply IH, consistent_call.
Qed.

Lemma has_audio_call m c : is_Some (audio m) -> is_Some (audio (call m c)).
Proof.
  intros [a Ha]. destruct c; cbn; try (rewrite Ha; by eexists).
  - unfold switchTrack. case_bool_decide; [cbn; rewrite Ha; by eexists |].
    destruct (is_truthy _); [| by eexists]. cbn [negb].
    destruct (_ || _); [| by eexists].
    unfold play. case_bool_decide; by eexists.
  - unfold play. case_bool_decide; [by eexists |]. rewrite Ha. by eexists.
  - unfold pause. rewrite Ha. by eexists.
  - unfold toggle. rewrite Ha. cbn. destruct (Audio.paused a).
    + unfold play. case_bool_decide; [by eexists |]. rewrite Ha. by eexists.
    + unfold pause. rewrite Ha. by eexists.
  - unfold mute. rewrite Ha. by eexists.
Qed.

Lemma has_audio_calls cs : forall m,
  is_Some (audio m) -> is_Some (audio (calls m cs)).
Proof.
  induction cs as [| c cs IH]; intros m Hc; [done |].
  cbn. by apply IH, has_audio_call.
Qed.

(** After any calls of the methods other than [init], in any order and with
    any arguments, on the manager as it is created or after one [init]: the
    volume is in 0..1 and is the volume of the element, the element loops,
    no music plays while the track is ['none'], and no element that the
    manager has let go of is still playing. After [init] there is an
    element, and [toggle] does not throw. *)
Theorem audio_manager_consistent (cs : list Call) :
  let good (m : t) :=
    (0 <= volume m <= 1)%Q
    /\ (forall a, audio m = Some a ->
          Audio.volume a = volume m /\ Audio.loop a = true
          /\ (currentTrack m = Some "none"%string -> Audio.paused a = true))
    /\ Forall (fun a => Audio.paused a = true) (detached m) in
  good (calls initial cs)
  /\ (forall defaultUrl,
        good (calls (init defaultUrl initial) cs)
        /\ forall allowed,
             is_Some (toggle allowed (calls (init defaultUrl initial) cs))).
Proof.
  intros good.
  assert (Hgood : forall m, consistent m -> good m).
  { intros m [Hv Hs Hn Hd]. split; [done |]. split; [| done].
    intros a Ha. destruct (Hs a Ha) as [H1 H2]. split; [done |].
    split; [done |]. intros Hnone. by apply Hn. }
  split.
  - apply Hgood, consistent_calls. split; cbn; done.
  - intros defaultUrl. split.
    + apply Hgood, consistent_calls. split; cbn; [done | | done | done].
      by intros a [= <-].
    + intros allowed.
      destruct (has_audio_calls cs (init defaultUrl initial)) as [a Ha];
        [by eexists |].
      unfold toggle. rewrite Ha. by eexists.
Qed.

Lemma switchTrack_known name u allowed m :
  name <> "none"%string -> get (tracks m) name = Audio.Url u -> u <> ""%string ->
  switchTrack name allowed m
  = play allowed
      {| audio := Some (Audio.set_muted (isMuted m)
                          (Audio.set_volume (volume m)
                             (Audio.set_loop true (Audio.new (Audio.Url u)))));
         volume := volume m; currentTrack := Some name; tracks := tracks m;
         detached := match audio m with
                     | Some a => Audio.set_currentTime 0 (Audio.pause a) :: detached m
                     | None => detached m
                     end |}.
Proof.
  intros Hname Hget Hu. unfold switchTrack.
  rewrite bool_decide_eq_false_2 by done. rewrite Hget. cbn [is_truthy].
  rewrite bool_decide_eq_false_2 by done. cbn [negb].
  rewrite (bool_decide_eq_false_2 (currentTrack _ = _)) by (cbn; congruence).
  rewrite orb_true_r. unfold isMuted. by destruct (audio m).
Qed.

(** Selecting a track that exists always requests playback of a fresh
    element, whether or not music was playing before: the element has the
    url of the track, loops, has the volume of the manager and the mute flag
    of the element it replaces, and plays as soon as the browser allows it;
    the element it replaces is paused and rewound. *)
Theorem switchTrack_always_plays
    (name u : string) (allowed : bool) (m : t) :
  name <> "none"%string -> get (tracks m) name = Audio.Url u -> u <> ""%string ->
  let m' := switchTrack name allowed m in
  audio m' = Some {| Audio.src := Audio.Url u; Audio.loop := true;
                     Audio.volume := volume m; Audio.muted := isMuted m;
                     Audio.paused := negb allowed; Audio.currentTime := 0 |}
  /\ currentTrack m' = Some name
  /\ volume m' = volume m /\ tracks m' = tracks m
  /\ (forall a, audio m = Some a ->
        detached m' = Audio.set_currentTime 0 (Audio.pause a) :: detached m).
Proof.
  intros Hname Hget Hu m'. subst m'.
  rewrite (switchTrack_known name u) by done. unfold play.
  rewrite bool_decide_eq_false_2 by (cbn; congruence). cbn.
  split; [| split; [| split; [| split]]]; try done.
  by intros a ->.
Qed.

Lemma stays_silent_call m c :
  keeps_track c -> currentTrack m = Some "none"%string -> silent m ->
  currentTrack (call m c) = Some "none"%string /\ silent (call m c).
Proof.
  intros Hk Hnone Hs.
  assert (Hplay : forall allowed, play allowed m = m).
  { intros allowed. unfold play. by rewrite bool_decide_eq_true_2. }
  assert (Hpause : currentTrack (pause m) = Some "none"%string
                   /\ silent (pause m)).
  { unfold pause. destruct (audio m) as [a |] eqn:Ha; [| done].
    split; [done |]. by intros a' [= <-]. }
  destruct c; cbn; try done.
  - cbn in Hk. subst name. unfold switchTrack.
    rewrite bool_decide_eq_true_2 by done. split; [done |].
    intros a. cbn. destruct (audio m); [| done]. by intros [= <-].
  - by rewrite Hplay.
  - unfold toggle. destruct (audio m) as [a |] eqn:Ha; [| done]. cbn.
    destruct (Audio.paused a); [by rewrite Hplay | done].
  - split; [done |]. intros a. cbn.
    destruct (audio m) as [a' |] eqn:Ha; [| done]. intros [= <-]. cbn.
    by apply Hs.
  - split; [done |]. intros a. cbn.
    destruct (audio m) as [a' |] eqn:Ha; [| done]. intros [= <-]. cbn.
    by apply Hs.
  - split; [done |]. intros a. cbn.
    destruct (audio m) as [a' |] eqn:Ha; [| done]. intros [= <-]. cbn.
    by apply Hs.
  - unfold mute. destruct (audio m) as [a |] eqn:Ha; [| done]. cbn.
    split; [done |]. intros a' [= <-]. cbn. by apply Hs.
Qed.

(** Once the track ['none'] is selected the music stays off until another
    track is selected: whatever calls of [play], [pause], [toggle], [mute],
    [addTrack] and the volume methods follow, the track remains ['none'] and
    the element remains paused. *)
Theorem none_stays_silent (allowed : bool) (m : t) (cs : list Call) :
  Forall keeps_track cs ->
  let m' := calls (switchTrack "none" allowed m) cs in
  currentTrack m' = Some "none"%string /\ silent m'.
Proof.
  intros Hcs m'. subst m'.
  assert (H0 : currentTrack (switchTrack "none" allowed m) = Some "none"%string
               /\ silent (switchTrack "none" allowed m)).
  { unfold switchTrack. rewrite bool_decide_eq_true_2 by done.
    split; [done |]. intros a. cbn. destruct (audio m); [| done].
    by intros [= <-]. }
  revert H0. generalize (switchTrack "none" allowed m). clear m.
  induction Hcs as [| c cs Hc Hcs IH]; intros m [Hnone Hs]; [done |].
  cbn. apply IH. by apply stays_silent_call.
Qed.

(** [mute] returns the new mute flag, and calling it twice restores the
    manager; without an element it returns [false] and changes nothing. *)
Theorem mute_twice (m : t) :
  (mute m).2 = isMuted (mute m).1
  /\ mute (mute m).1 = (m, isMuted m)
  /\ (audio m = None -> mute m = (m, false)).
Proof.
  unfold mute, isMuted. destruct m as [[a |] v ct ts ds]; cbn; [| done].
  destruct a as [s l av mu p c]. cbn. by rewrite negb_involutive.
Qed.

End AudioManagerFacts.

(* ================================================================= *)
(** ** Filling and erasing a fill *)

Lemma connected_strengthen (ok ok' : Z * Z -> bool) s p :
  (forall q, connected ok s q -> ok' q = true) ->
  connected ok s p -> connected ok' s p.
Proof.
  intros Hw. induction 1 as [Hs | p q Hp IH Hn Hq].
  - apply connected_seed. apply Hw. by apply connected_seed.
  - eapply connected_step; [exact IH | done |].
    apply Hw. by eapply connected_step.
Qed.

Lemma channelMatches_refl v : channelMatches (Some v) (Some v) = true.
Proof. unfold channelMatches. by rewrite Z.sub_diag. Qed.

Lemma rd_fill_painted e data sx sy c pos :
  valid_color c ->
  Z.of_nat (length data) = 4 * (canvas_width e * canvas_height e) ->
  pos ∈ fillSet e data sx sy ->
  let out := foldl (paint c) data (fillSet e data sx sy) in
  rd out pos = Some (red c) /\ rd out (pos + 1) = Some (green c)
  /\ rd out (pos + 2) = Some (blue c) /\ rd out (pos + 3) = Some 255.
Proof.
  intros Hc Hlen Hin. pose proof Hin as Hin'.
  apply fillSet_spec in Hin' as (p & -> & Hp).
  apply connected_ok, fillable_open, open_px_true in Hp as [Hi _].
  pose proof (in_image_index e p Hi) as Hidx.
  apply rd_foldl_paint_same; try done.
  - apply fillSet_aligned.
  - exists (p.2 * canvas_width e + p.1). unfold pos_of. lia.
  - unfold pos_of. lia.
  - unfold pos_of. lia.
Qed.

Lemma rd_fill_kept c ps d k ch :
  Forall aligned ps -> 4 * k ∉ ps -> 0 <= ch <= 3 ->
  rd (foldl (paint c) d ps) (4 * k + ch) = rd d (4 * k + ch).
Proof.
  intros Hal Hnin Hc.
  destruct (decide (rd (foldl (paint c) d ps) (4 * k + ch) = rd d (4 * k + ch)))
    as [Heq | Hne]; [done |].
  apply rd_foldl_paint_changed in Hne as (q & Hq & Hr).
  rewrite Forall_forall in Hal. destruct (Hal q Hq) as [k' ->].
  assert (k' = k) as -> by lia. done.
Qed.

(** What the fill of [e] from [(sx, sy)] with [c] finds stays one region for
    a second fill from the same seed on the painted surface. *)
Lemma fillSet_after_fill e e' sx sy c pos :
  valid_color c ->
  Z.of_nat (length (surface (ctx e))) = 4 * (canvas_width e * canvas_height e) ->
  lineArtData e' = lineArtData e -> lineArtWidth e' = lineArtWidth e ->
  lineArtHeight e' = lineArtHeight e ->
  let data := surface (ctx e) in
  let data' := foldl (paint c) data (fillSet e data sx sy) in
  pos ∈ fillSet e data sx sy -> pos ∈ fillSet e' data' sx sy.
Proof.
  intros Hc Hlen Hl Hw Hh data data' Hin.
  assert (Hpos : forall p, pos_of e' p = pos_of e p).
  { intros p. unfold pos_of, canvas_width. by rewrite Hw. }
  assert (Hopen : forall p, open_px e' p = open_px e p).
  { intros p. unfold open_px, boundary, isLineBoundary, canvas_width,
      canvas_height. by rewrite Hl, Hw, Hh. }
  destruct (fillSet_seed e data sx sy pos Hin) as [_ Hseed].
  destruct (rd_fill_painted e data sx sy c _ Hc Hlen Hseed) as (S0 & S1 & S2 & _).
  apply fillSet_spec in Hin as (p & -> & Hp).
  apply fillSet_spec. exists p. split; [by rewrite Hpos |].
  eapply connected_strengthen; [| exact Hp].
  intros q Hq. unfold fillable. rewrite Hopen.
  rewrite (fillable_open _ _ _ _ _ _ (connected_ok _ _ _ Hq)). cbn [andb].
  assert (Hqin : pos_of e q ∈ fillSet e data sx sy).
  { apply fillSet_spec. by exists q. }
  destruct (rd_fill_painted e data sx sy c _ Hc Hlen Hqin) as (Q0 & Q1 & Q2 & _).
  unfold colorMatches, canvas_width. rewrite Hw.
  fold (canvas_width e). fold (pos_of e q).
  change ((sy * canvas_width e + sx) * 4) with (pos_of e (sx, sy)).
  fold data'. fold data' in S0, S1, S2, Q0, Q1, Q2.
  change ((sy * canvas_width e + sx) * 4) with (pos_of e (sx, sy)) in S0, S1, S2.
  rewrite S0, S1, S2, Q0, Q1, Q2, !channelMatches_refl. done.
Qed.

(** On a surface whose pixels are all white and opaque, a fill followed by
    a fill with white from the same point (what a right click does)
    restores the surface, for every mask, seed and colour. *)
Theorem fill_then_unfill_blank
    (e : Editor) (x y : Q) (fillColor : Color) :
  valid_color fillColor ->
  Z.of_nat (length (surface (ctx e))) = 4 * (canvas_width e * canvas_height e) ->
  (forall j, 0 <= j < Z.of_nat (length (surface (ctx e))) ->
     rd (surface (ctx e)) j = Some 255) ->
  surface (ctx (floodFill (floodFill e x y fillColor false) x y white true))
  = surface (ctx e).
Proof.
  intros Hc Hlen Hwhite.
  set (data := surface (ctx e)) in *.
  set (sp := (round y * canvas_width e + round x) * 4).
  assert (Hread : forall j v, rd data j = Some v -> v = 255).
  { intros j v Hj. pose proof (rd_Some_range _ _ _ Hj) as Hr.
    rewrite Hwhite in Hj by done. congruence. }
  unfold floodFill at 2.
  destruct (isLineBoundary e _ _) eqn:Hb.
  { unfold floodFill. by rewrite Hb. }
  fold data. fold sp.
  destruct (alreadyFilled _ _ _ _ fillColor) eqn:Ha.
  { unfold floodFill. rewrite Hb. fold data. fold sp.
    assert (Hw : alreadyFilled (rd data sp) (rd data (sp + 1))
                   (rd data (sp + 2)) (rd data (sp + 3)) white = true);
      [| by rewrite Hw].
    unfold alreadyFilled in *.
    repeat (apply andb_true_iff in Ha as [Ha ?]).
    repeat match goal with
           | H : bool_decide _ = true |- _ => apply bool_decide_eq_true in H
           end.
    rewrite !andb_true_iff, !bool_decide_eq_true. cbn.
    repeat split;
      match goal with
      | |- rd data ?i = _ =>
          destruct (rd data i) as [v |] eqn:Hv; [| done];
          by rewrite (Hread _ _ Hv)
      end. }
  destruct (fillSet e data (round x) (round y)) as [| p0 ps] eqn:Hfs.
  { unfold floodFill. rewrite Hb. fold data. fold sp.
    destruct (alreadyFilled _ _ _ _ white); [done |]. by rewrite Hfs. }
  rewrite <- Hfs.
  set (pixels := fillSet e data (round x) (round y)).
  set (data' := foldl (paint fillColor) data pixels).
  set (e' := set_ctx _ _).
  assert (Hseed : sp ∈ pixels).
  { apply (fillSet_seed e data (round x) (round y) p0).
    subst pixels. rewrite Hfs. apply list_elem_of_here. }
  destruct (rd_fill_painted e data (round x) (round y) fillColor sp Hc Hlen Hseed)
    as (S0 & S1 & S2 & S3).
  fold pixels in S0, S1, S2, S3. fold data' in S0, S1, S2, S3.
  assert (Hsub : forall pos, pos ∈ pixels ->
            pos ∈ fillSet e' data' (round x) (round y)).
  { intros pos Hpos.
    by apply (fillSet_after_fill e e' (round x) (round y) fillColor pos). }
  assert (Hsp : 0 <= sp /\ sp + 3 < Z.of_nat (length data)).
  { pose proof Hseed as Hs. apply fillSet_spec in Hs as (p & Hp & Hcon).
    apply connected_ok, fillable_open, open_px_true in Hcon as [Hi _].
    pose proof (in_image_index e p Hi) as Hidx. unfold pos_of in Hp. lia. }
  unfold floodFill.
  change (isLineBoundary e' (inject_Z (round x)) (inject_Z (round y)))
    with (isLineBoundary e (inject_Z (round x)) (inject_Z (round y))).
  rewrite Hb.
  change (surface (ctx e')) with data'.
  change (canvas_width e') with (canvas_width e). fold sp.
  rewrite S0, S1, S2, S3.
  destruct (alreadyFilled _ _ _ _ white) eqn:Ha'.
  { exfalso. unfold alreadyFilled in Ha, Ha'.
    repeat (apply andb_true_iff in Ha' as [Ha' ?]).
    repeat match goal with
           | H : bool_decide _ = true |- _ => apply bool_decide_eq_true in H
           end.
    cbn in *.
    rewrite !(Hwhite sp), !(Hwhite (sp + 1)), !(Hwhite (sp + 2)),
      !(Hwhite (sp + 3)) in Ha by lia.
    rewrite !bool_decide_eq_true_2 in Ha by congruence. done. }
  remember (fillSet e' data' (round x) (round y)) as pixels' eqn:Hp'.
  assert (Hal' : Forall aligned pixels') by (rewrite Hp'; apply fillSet_aligned).
  clear Hp'. destruct pixels' as [| q0 qs].
  { exfalso. by apply (not_elem_of_nil sp), Hsub. }
  set (pixels' := q0 :: qs) in *.
  cbn [surface ctx set_ctx set_surface emit].
  assert (Hal : Forall aligned pixels) by apply fillSet_aligned.
  assert (Hlen' : length data' = length data).
  { subst data'. apply length_foldl_paint. }
  symmetry.
  apply (buffer_ext _ _ (canvas_width e * canvas_height e)); [done | |].
  { by rewrite length_foldl_paint. }
  intros k ch Hk Hch.
  rewrite Hwhite by lia. symmetry.
  destruct (decide (4 * k ∈ pixels')) as [Hin | Hnin].
  - destruct (rd_foldl_paint_same white pixels' data' (4 * k)) as (P0 & P1 & P2 & P3);
      [done | done | by exists k | done | lia | lia |].
    rewrite <- (Z.add_0_r (4 * k)) in P0.
    by destruct (channel_cases ch Hch) as [-> | [-> | [-> | ->]]].
  - rewrite rd_fill_kept by done.
    assert (Hnin0 : 4 * k ∉ pixels) by (intros Hin; by apply Hnin, Hsub).
    subst data'. rewrite rd_fill_kept by done. apply Hwhite. lia.
Qed.

(** A flood fill either returns the editor as it was, or it plays one sound
    (that of a fill or of its erasure) and changes the seed pixel: a sound is
    played exactly when the surface has changed. *)
Theorem floodFill_sound_iff_change
    (e : Editor) (x y : Q) (fillColor : Color) (isUnfill : bool) :
  valid_color fillColor ->
  Z.of_nat (length (surface (ctx e))) = 4 * (canvas_width e * canvas_height e) ->
  let e' := floodFill e x y fillColor isUnfill in
  e' = e
  \/ (effects e' = effects e ++ [if isUnfill then PlayUnfillSound else PlayFillSound]
      /\ surface (ctx e') <> surface (ctx e)
      /\ (forall j, rd (surface (ctx e')) j <> rd (surface (ctx e)) j ->
            exists pos, pos ∈ fillSet e (surface (ctx e)) (round x) (round y)
                        /\ pos <= j <= pos + 3)
      /\ exists c, 0 <= c <= 3
           /\ rd (surface (ctx e')) (pos_of e (round x, round y) + c)
              <> rd (surface (ctx e)) (pos_of e (round x, round y) + c)).
Proof.
  intros Hc Hlen e'. subst e'. unfold floodFill, pos_of. cbn [fst snd].
  destruct (isLineBoundary e _ _); [by left |].
  set (data := surface (ctx e)) in *.
  set (sp := (round y * canvas_width e + round x) * 4).
  destruct (alreadyFilled _ _ _ _ fillColor) eqn:Ha; [by left |].
  destruct (fillSet e data (round x) (round y)) as [| p0 ps] eqn:Hfs; [by left |].
  right. rewrite <- Hfs. cbn [effects surface ctx set_ctx set_surface emit].
  assert (Hseed : sp ∈ fillSet e data (round x) (round y)).
  { apply (fillSet_seed e data (round x) (round y) p0).
    rewrite Hfs. apply list_elem_of_here. }
  destruct (rd_fill_painted e data (round x) (round y) fillColor sp Hc Hlen Hseed)
    as (S0 & S1 & S2 & S3).
  split; [done |]. split; [| split; [intros j; apply rd_foldl_paint_changed |]].
  - intros Heq. rewrite Heq in S0, S1, S2, S3.
    unfold alreadyFilled in Ha. rewrite S0, S1, S2, S3 in Ha.
    by rewrite !bool_decide_eq_true_2 in Ha.
  - fold sp. unfold alreadyFilled in Ha.
    destruct (decide (rd data sp = Some (red fillColor))) as [E0 | N0];
      [| exists 0; split; [lia |]; rewrite Z.add_0_r, S0; congruence].
    destruct (decide (rd data (sp + 1) = Some (green fillColor))) as [E1 | N1];
      [| exists 1; split; [lia |]; rewrite S1; congruence].
    destruct (decide (rd data (sp + 2) = Some (blue fillColor))) as [E2 | N2];
      [| exists 2; split; [lia |]; rewrite S2; congruence].
    destruct (decide (rd data (sp + 3) = Some 255)) as [E3 | N3];
      [| exists 3; split; [lia |]; rewrite S3; congruence].
    by rewrite !bool_decide_eq_true_2 in Ha.
Qed.

(* ================================================================= *)
(** ** The right button in brush and eraser mode *)

Section RightButton.

Variable rasterize :
  Z -> Z -> list (list (Q * Q)) -> Color -> Q -> list Z -> list Z.

(** In brush or eraser mode a press of the right button is not ignored:
    [handleStart] skips the reset of the path and the update of
    [strokeStyle] and [lineWidth], yet it marks the editor as drawing, so
    that the next pointer move strokes the path of the previous interaction,
    in the colour and width of that interaction. The point of the move is
    appended to that path, unless the bounding rectangle of the canvas is
    empty: its coordinates are then not finite and [lineTo] ignores it. *)
Theorem right_button_drag_strokes (e : Editor) (down mv : PointerEvent) :
  mode e = brush \/ mode e = eraser ->
  button down = 2 ->
  isPanning e = false ->
  (pointerType down = touch -> isPrimary down = true) ->
  let e1 := handleStart e down in
  let e2 := handleMove rasterize e1 mv in
  let rect := canvasRect mv in
  let p :=
    if Qeq_bool (rwidth rect) 0 || Qeq_bool (rheight rect) 0
    then path (ctx e)
    else add_point (path (ctx e))
           (((clientX mv - left rect)
             * (inject_Z (canvas_width e) / rwidth rect))%Q,
            ((clientY mv - top rect)
             * (inject_Z (canvas_height e) / rheight rect))%Q) in
  ctx e1 = ctx e /\ isDrawing e1 = true
  /\ path (ctx e2) = p
  /\ strokeStyle (ctx e2) = strokeStyle (ctx e)
  /\ lineWidth (ctx e2) = lineWidth (ctx e)
  /\ surface (ctx e2)
     = rasterize (canvas_width e) (canvas_height e) p (strokeStyle (ctx e))
         (lineWidth (ctx e)) (surface (ctx e)).
Proof.
  intros Hm Hbtn Hpan Htouch e1 e2 rect p.
  assert (He1 : e1 = set_drag e true (isPanning e)).
  { subst e1. unfold handleStart.
    assert (Hg : bool_decide (pointerType down = touch) && negb (isPrimary down)
                 = false).
    { case_bool_decide as Ht; [| done]. by rewrite (Htouch Ht). }
    rewrite Hg, Hbtn.
    rewrite (bool_decide_eq_false_2 (mode e = pan))
      by (intros Hp; destruct Hm; congruence).
    cbn [orb Z.eqb Pos.eqb mode set_drag].
    rewrite (bool_decide_eq_false_2 (mode e = fill))
      by (intros Hp; destruct Hm; congruence).
    done. }
  subst e2. rewrite He1. unfold handleMove. cbn [isPanning isDrawing set_drag mode].
  rewrite Hpan.
  rewrite (bool_decide_eq_false_2 (mode e = fill))
    by (intros Hp; destruct Hm; congruence).
  cbn [negb orb].
  change (getCoords (set_drag e true false) mv) with (getCoords e mv).
  unfold getCoords. fold rect. subst p.
  by destruct (Qeq_bool (rwidth rect) 0 || Qeq_bool (rheight rect) 0).
Qed.

End RightButton.

(* ================================================================= *)
(** ** The palette of an image *)

Lemma count_key_keys m key :
  (count_key m key).*1 = if bool_decide (key ∈ m.*1) then m.*1 else m.*1 ++ [key].
Proof.
  induction m as [| [k n] m IH]; cbn.
  { by rewrite bool_decide_eq_false_2 by apply not_elem_of_nil. }
  destruct (decide (k = key)) as [-> | Hk].
  - rewrite bool_decide_eq_true_2 by done. cbn.
    by rewrite bool_decide_eq_true_2 by apply list_elem_of_here.
  - rewrite (bool_decide_eq_false_2 (k = key)) by done. cbn. rewrite IH.
    destruct (decide (key ∈ m.*1)) as [Hin | Hin].
    + rewrite !bool_decide_eq_true_2; [done | | done].
      by apply list_elem_of_further.
    + rewrite !bool_decide_eq_false_2; [done | | done].
      intros Hin'. apply elem_of_cons in Hin' as [-> | Hin']; done.
Qed.

Lemma NoDup_count_key m key : NoDup m.*1 -> NoDup (count_key m key).*1.
Proof.
  intros Hnd. rewrite count_key_keys. case_bool_decide as Hin; [done |].
  apply NoDup_app. split; [done |]. split; [| apply NoDup_singleton].
  intros k Hk Hk'. apply list_elem_of_singleton in Hk'. by subst.
Qed.

Lemma lookup_count_key m key k :
  lookup_count (count_key m key) k
  = lookup_count m k + (if bool_decide (key = k) then 1 else 0).
Proof.
  induction m as [| [k' n] m IH]; cbn.
  { by case_bool_decide. }
  destruct (decide (k' = key)) as [-> | Hk].
  - rewrite (bool_decide_eq_true_2 (key = key)) by done. cbn.
    destruct (decide (key = k)) as [-> | Hne].
    + rewrite !bool_decide_eq_true_2 by done. destruct (Z.eqb_spec n 0); lia.
    + rewrite !bool_decide_eq_false_2 by done. lia.
  - rewrite (bool_decide_eq_false_2 (k' = key)) by done. cbn.
    destruct (decide (k' = k)) as [-> | Hne].
    + rewrite bool_decide_eq_true_2 by done.
      rewrite bool_decide_eq_false_2 by congruence. lia.
    + rewrite (bool_decide_eq_false_2 (k' = k)) by done. apply IH.
Qed.

Lemma positive_count_key m key :
  Forall (fun x : Key * Z => 1 <= x.2) m ->
  Forall (fun x : Key * Z => 1 <= x.2) (count_key m key).
Proof.
  induction 1 as [| [k n] m Hn Hm IH]; cbn.
  { by repeat constructor. }
  case_bool_decide; constructor; try done.
  cbn in *. destruct (Z.eqb_spec n 0); lia.
Qed.

Lemma lookup_count_entry m k n :
  NoDup m.*1 -> (k, n) ∈ m -> lookup_count m k = n.
Proof.
  induction m as [| [k' n'] m IH]; intros Hnd Hin.
  { by apply not_elem_of_nil in Hin. }
  cbn in *. apply NoDup_cons in Hnd as [Hk' Hnd].
  apply elem_of_cons in Hin as [[= -> ->] | Hin].
  - by rewrite bool_decide_eq_true_2.
  - case_bool_decide as Hk; [| by apply IH].
    subst k'. exfalso. apply Hk'. apply list_elem_of_fmap. by exists (k, n).
Qed.


Section ExtractColors.

Variable imageData : list Z.

Lemma occurrences_cons key i offs :
  occurrences imageData key (i :: offs)
  = (if bool_decide (transparent (rd imageData (i + 3)) = false
                     /\ key_at imageData i = key) then 1 else 0)
    + occurrences imageData key offs.
Proof.
  unfold occurrences. rewrite filter_cons.
  destruct (decide _) as [Hd | Hd].
  - rewrite bool_decide_eq_true_2 by done. cbn [length]. lia.
  - rewrite bool_decide_eq_false_2 by done. lia.
Qed.

Lemma occurrences_nonneg key offs : 0 <= occurrences imageData key offs.
Proof. unfold occurrences. lia. Qed.

Lemma occurrences_sampled key offs :
  1 <= occurrences imageData key offs ->
  exists i, i ∈ offs /\ transparent (rd imageData (i + 3)) = false
            /\ key_at imageData i = key.
Proof.
  unfold occurrences. intros Hocc.
  destruct (filter _ offs) as [| i l] eqn:Hf; [cbn in Hocc; lia |].
  assert (Hi : i ∈ filter (fun i => transparent (rd imageData (i + 3)) = false
                                    /\ key_at imageData i = key) offs).
  { rewrite Hf. apply list_elem_of_here. }
  apply list_elem_of_filter in Hi as [[Ht Hk] Hi]. by exists i.
Qed.

(** The map after the loop counts every key as often as it was sampled. *)
Lemma colorMap_counts offs : forall m,
  NoDup m.*1 -> Forall (fun x : Key * Z => 1 <= x.2) m ->
  let m' := foldl (sample imageData) m offs in
  NoDup m'.*1 /\ Forall (fun x : Key * Z => 1 <= x.2) m'
  /\ forall k, lookup_count m' k = lookup_count m k + occurrences imageData k offs.
Proof.
  induction offs as [| i offs IH]; intros m Hnd Hpos.
  { cbn. split; [done |]. split; [done |]. intros k. unfold occurrences. cbn. lia. }
  cbn [foldl].
  assert (Hstep : NoDup (sample imageData m i).*1
                  /\ Forall (fun x : Key * Z => 1 <= x.2) (sample imageData m i)
                  /\ forall k, lookup_count (sample imageData m i) k
                       = lookup_count m k
                         + (if bool_decide (transparent (rd imageData (i + 3)) = false
                                            /\ key_at imageData i = k)
                            then 1 else 0)).
  { unfold sample. destruct (transparent _) eqn:Ht.
    - split; [done |]. split; [done |]. intros k.
      rewrite bool_decide_eq_false_2; [lia |]. by intros [? _].
    - split; [by apply NoDup_count_key |].
      split; [by apply positive_count_key |]. intros k.
      rewrite lookup_count_key. f_equal.
      case_bool_decide as Hk.
      + by rewrite bool_decide_eq_true_2.
      + rewrite bool_decide_eq_false_2; [done |]. by intros [_ ?]. }
  destruct Hstep as (Hnd' & Hpos' & Hl').
  destruct (IH _ Hnd' Hpos') as (Hnd'' & Hpos'' & Hl'').
  split; [done |]. split; [done |]. intros k.
  rewrite Hl'', Hl', occurrences_cons. lia.
Qed.

End ExtractColors.

Lemma insert_entry_perm x l : insert_entry x l ≡ₚ x :: l.
Proof.
  induction l as [| y l IH]; [done |]. cbn.
  destruct (x.2 <? y.2); [| done]. rewrite IH. apply Permutation_swap.
Qed.

Lemma sort_entries_perm l : sort_entries l ≡ₚ l.
Proof.
  induction l as [| x l IH]; [done |]. cbn.
  rewrite insert_entry_perm. by rewrite IH.
Qed.





Lemma slice0_take {A} (l : list A) n :
  exists m, slice0 l n = take m l /\ (0 <= n -> Z.of_nat m <= n).
Proof.
  unfold slice0. destruct (Z.ltb_spec n 0).
  - eexists. split; [done | lia].
  - eexists. split; [done | lia].
Qed.


(** A string of the result is that of a key that was counted. *)
Lemma extractColors_sampled imageData colorCount s :
  s ∈ extractColors imageData colorCount ->
  exists key, s = colour_string key
    /\ 1 <= occurrences imageData key (sample_offsets (length imageData)).
Proof.
  unfold extractColors. intros Hs.
  set (offs := sample_offsets (length imageData)) in *.
  set (m := foldl (sample imageData) [] offs) in *.
  destruct (colorMap_counts imageData offs [] (NoDup_nil_2) (Forall_nil_2 _))
    as (Hnd & Hpos & Hcount).
  fold m in Hnd, Hpos, Hcount. cbn [lookup_count] in Hcount.
  destruct (slice0_take (sort_entries m) colorCount) as (c & Hc & _).
  rewrite Hc in Hs. apply list_elem_of_fmap in Hs as ([k n] & -> & Hin).
  exists k. split; [done |].
  assert (Hm : (k, n) ∈ m).
  { rewrite <- (sort_entries_perm m).
    apply elem_of_take in Hin as (i & Hi & _). by eapply list_elem_of_lookup_2. }
  rewrite Forall_forall in Hpos. specialize (Hpos (k, n) Hm). cbn in Hpos.
  pose proof (lookup_count_entry m k n Hnd Hm) as Hl.
  rewrite Hcount in Hl. lia.
Qed.

Lemma string_length_append (a b : string) :
  String.length (a +:+ b) = (String.length a + String.length b)%nat.
Proof.
  induction a as [| c a IH]; [done |].
  change (String c a +:+ b) with (String c (a +:+ b)).
  cbn [String.length]. by rewrite IH.
Qed.

Lemma hex_length v :
  0 <= v <= 255 ->
  String.length (padStart2 (toString16 (quantize (Some v))))
  = if v <? 240 then 2%nat else 3%nat.
Proof.
  intros Hv. apply Nat.eqb_eq.
  apply (forallb_zrange
           (fun v => Nat.eqb
                       (String.length (padStart2 (toString16 (quantize (Some v)))))
                       (if v <? 240 then 2%nat else 3%nat)) 0 255);
    [vm_compute; reflexivity | done].
Qed.

Lemma elem_of_sample_offsets n i :
  i ∈ sample_offsets n -> exists k, i = 40 * k /\ 0 <= k /\ 40 * k < Z.of_nat n.
Proof.
  unfold sample_offsets. intros Hi.
  apply list_elem_of_fmap in Hi as (k & -> & Hk). apply elem_of_seq in Hk.
  exists (Z.of_nat k). split; [done |]. split; [lia |].
  pose proof (Nat.Div0.mul_div_le (n + 39) 40). lia.
Qed.

(** Every string that [extractColors] returns is that of a sampled pixel:
    of a pixel whose index is a multiple of 10 and whose alpha is at least
    128, with its channels rounded to multiples of 32. A channel of 240 or
    more rounds to 256, which takes three hexadecimal digits: the string
    has the seven characters of [#rrggbb] only when the three channels of
    the pixel are below 240. *)
Theorem extractColors_sound
    (imageData : list Z) (n colorCount : Z) (s : string) :
  Z.of_nat (length imageData) = 4 * n ->
  Forall (fun v => 0 <= v <= 255) imageData ->
  s ∈ extractColors imageData colorCount ->
  exists k r g b a,
    0 <= k /\ 10 * k < n
    /\ rd imageData (40 * k) = Some r /\ rd imageData (40 * k + 1) = Some g
    /\ rd imageData (40 * k + 2) = Some b /\ rd imageData (40 * k + 3) = Some a
    /\ 128 <= a
    /\ s = colour_string (quantize (Some r), quantize (Some g), quantize (Some b))
    /\ (String.length s = 7%nat <-> r < 240 /\ g < 240 /\ b < 240).
Proof.
  intros Hlen Hbytes Hs.
  apply extractColors_sampled in Hs as (key & -> & Hkey).
  apply occurrences_sampled in Hkey as (i & Hi & Ht & Hk).
  apply elem_of_sample_offsets in Hi as (k & -> & Hk0 & Hkn).
  assert (Hrd : forall c, 0 <= c <= 3 ->
            exists v, rd imageData (40 * k + c) = Some v /\ 0 <= v <= 255).
  { intros c Hc.
    destruct (rd imageData (40 * k + c)) as [v |] eqn:Hv;
      [| apply rd_None in Hv; lia].
    exists v. split; [done |].
    rewrite Forall_forall in Hbytes. apply Hbytes.
    unfold rd in Hv. destruct (40 * k + c <? 0); [done |].
    by eapply list_elem_of_lookup_2. }
  destruct (Hrd 0 ltac:(lia)) as (r & Hr & Hr').
  destruct (Hrd 1 ltac:(lia)) as (g & Hg & Hg').
  destruct (Hrd 2 ltac:(lia)) as (b & Hb & Hb').
  destruct (Hrd 3 ltac:(lia)) as (a & Ha & Ha').
  rewrite Z.add_0_r in Hr.
  exists k, r, g, b, a.
  split; [done |]. split; [lia |]. split; [done |]. split; [done |].
  split; [done |]. split; [done |].
  split.
  { rewrite Ha in Ht. cbn in Ht. lia. }
  subst key. unfold key_at. rewrite Hr, Hg, Hb. split; [done |].
  unfold colour_string. cbn [fst snd String.length].
  rewrite !string_length_append, !hex_length by done.
  destruct (Z.ltb_spec r 240), (Z.ltb_spec g 240), (Z.ltb_spec b 240); lia.
Qed.

(** Restoring a session whose track exists requests playback even when the
    saved state says that the music was paused: the element that [initApp]
    leaves has the url of the saved track, the saved mute flag and the saved
    volume clamped to 0..1 (0.5 when none was saved), and it plays as soon
    as the browser allows it, whatever the saved [paused] flag. *)
Theorem restoreAudio_ignores_paused
    (saved : SavedAudio.t) (name u : string) (allowed allowed' : bool)
    (m : AudioManager.t) :
  SavedAudio.track saved = Some name ->
  name <> ""%string -> name <> "none"%string ->
  AudioManager.get (AudioManager.tracks m) name = Audio.Url u -> u <> ""%string ->
  let m' := restoreAudio saved allowed allowed' m in
  let v := Qmax 0 (Qmin 1 (default 0.5%Q (SavedAudio.volume saved))) in
  AudioManager.currentTrack m' = Some name
  /\ AudioManager.volume m' = v
  /\ exists a, AudioManager.audio m' = Some a
       /\ Audio.src a = Audio.Url u /\ Audio.loop a = true
       /\ Audio.volume a = v /\ Audio.muted a = SavedAudio.muted saved
       /\ (allowed = true -> Audio.paused a = false)
       /\ (SavedAudio.paused saved = true -> Audio.paused a = negb allowed)
       /\ Audio.paused a
          = negb (allowed || negb (SavedAudio.paused saved) && allowed').
Proof.
  intros Htrack Hname Hnone Hget Hu m' v. subst m'. unfold restoreAudio.
  rewrite Htrack. rewrite bool_decide_eq_false_2 by done.
  rewrite (switchTrack_known name u) by done.
  set (m0 := AudioManager.Build_t _ _ _ _ _).
  assert (Hm1 : AudioManager.play allowed m0
                = AudioManager.set_audio
                    (Some {| Audio.src := Audio.Url u; Audio.loop := true;
                             Audio.volume := AudioManager.volume m;
                             Audio.muted := AudioManager.isMuted m;
                             Audio.paused := negb allowed;
                             Audio.currentTime := 0 |}) m0).
  { unfold AudioManager.play.
    rewrite bool_decide_eq_false_2 by (cbn; congruence). cbn.
    by destruct allowed. }
  rewrite Hm1.
  set (m1 := AudioManager.set_audio _ m0).
  set (m2 := AudioManager.setVolume _ m1).
  set (m3 := AudioManager.set_audio _ m2).
  assert (Ha3 : AudioManager.audio m3
                = Some {| Audio.src := Audio.Url u; Audio.loop := true;
                          Audio.volume := v;
                          Audio.muted := SavedAudio.muted saved;
                          Audio.paused := negb allowed;
                          Audio.currentTime := 0 |}).
  { subst m3 m2 m1. reflexivity. }
  assert (Hct3 : AudioManager.currentTrack m3 = Some name) by done.
  destruct (SavedAudio.paused saved).
  { cbn [negb]. split; [done |]. split; [done |]. eexists. split; [exact Ha3 |].
    cbn. repeat split; try done; [by intros -> | by destruct allowed]. }
  cbn [negb]. unfold ensureAudioPlaying. rewrite Ha3. cbn [Audio.paused].
  destruct allowed; cbn [negb].
  { split; [done |]. split; [done |]. eexists. split; [exact Ha3 |].
    cbn. repeat split; done. }
  unfold AudioManager.play. rewrite Hct3.
  rewrite bool_decide_eq_false_2 by congruence. rewrite Ha3. cbn.
  split; [done |]. split; [done |]. eexists. split; [done |].
  cbn. repeat split; done.
Qed.

(* ================================================================= *)
(** * Instances of the theorems *)

(** C3 at a one-pixel image of grey level 150 and threshold 200. *)
Lemma binarize_black_iff_below_threshold_witness :
  let data := [150; 150; 150; 255] in
  let out := binarize 200%float data in
  let v := if PrimFloat.ltb (luminance 150 150 150) 200%float then 0 else 255 in
  rd out (4 * 0) = Some v /\ rd out (4 * 0 + 1) = Some v
  /\ rd out (4 * 0 + 2) = Some v /\ rd out (4 * 0 + 3) = Some 255
  /\ (v = 0 <-> PrimFloat.ltb (luminance 150 150 150) 200%float = true)
  /\ (v = 255 <-> PrimFloat.ltb (luminance 150 150 150) 200%float = false)
  /\ length out = length data
  /\ (forall width height,
        createHighQualityLineArt width height data 200%float 0 = out).
Proof.
  apply (binarize_black_iff_below_threshold 200%float [150; 150; 150; 255]
           0 150 150 150);
    [lia | cbn; lia | reflexivity | reflexivity | reflexivity].
Defined.

(** C4 at a 3 × 3 image with a black centre, radius 1, pixel (1, 0). *)
Lemma dilate_black_iff_black_within_disk_witness :
  let data := white_pixels 4 ++ [0; 0; 0; 255] ++ white_pixels 4 in
  (is_black (dilate true 3 3 1 data) ((0 * 3 + 1) * 4) = true
   <-> exists dx dy,
         dx * dx + dy * dy <= 1 * 1
         /\ 0 <= 1 + dx < 3 /\ 0 <= 0 + dy < 3
         /\ is_black data (((0 + dy) * 3 + (1 + dx)) * 4) = true)
  /\ (forall order, order ≡ₚ scan_order 3 3 ->
        dilate_along order true 3 3 1 data = dilate true 3 3 1 data).
Proof.
  apply (dilate_black_iff_black_within_disk true 3 3 1
           (white_pixels 4 ++ [0; 0; 0; 255] ++ white_pixels 4) 1 0);
    [lia | reflexivity | lia | lia].
Defined.

(** C5 at the 3 × 1 surface, seed in the left pixel. *)
Lemma floodFill_idempotent_witness :
  let e := editor_of fill 3 1 mask_3x1 (white_pixels 3) in
  floodFill (floodFill e 0 0 palette_red false) 0 0 palette_red false
  = floodFill e 0 0 palette_red false
  /\ (let startPos := pos_of e (round 0, round 0) in
      rd (surface (ctx e)) startPos = Some (red palette_red) ->
      rd (surface (ctx e)) (startPos + 1) = Some (green palette_red) ->
      rd (surface (ctx e)) (startPos + 2) = Some (blue palette_red) ->
      rd (surface (ctx e)) (startPos + 3) = Some 255 ->
      floodFill e 0 0 palette_red false = e).
Proof.
  apply (floodFill_idempotent
           (editor_of fill 3 1 mask_3x1 (white_pixels 3)) 0 0 palette_red false).
  - unfold valid_color. cbn. lia.
  - reflexivity.
Defined.

(** C6 at zoom 1, a wheel event with [deltaY = -1] at (10, 10). *)
Lemma handleWheel_anchor_witness :
  let e := editor_of fill 3 1 mask_3x1 (white_pixels 3) in
  let ev := {| deltaY := (-1)%Q; wheelX := 10%Q; wheelY := 10%Q;
               wrapperRect := {| left := 0%Q; top := 0%Q;
                                 rwidth := 100%Q; rheight := 100%Q |} |} in
  let e' := handleWheel e ev in
  let sx := (wheelX ev - left (wrapperRect ev))%Q in
  let sy := (wheelY ev - top (wrapperRect ev))%Q in
  let cx := ((sx - panX e) / zoom e)%Q in
  let cy := ((sy - panY e) / zoom e)%Q in
  (zoom e' == steppedZoom (zoom e) (deltaY ev))%Q
  /\ ((0 < deltaY ev)%Q ->
        (zoom e' == Qmax (1 # 10) (Qmin 5 (zoom e - (1 # 10))))%Q)
  /\ ((deltaY ev < 0)%Q ->
        (zoom e' == Qmax (1 # 10) (Qmin 5 (zoom e + (1 # 10))))%Q)
  /\ (1 # 10 <= zoom e')%Q /\ (zoom e' <= 5)%Q
  /\ ((steppedZoom (zoom e) (deltaY ev) == zoom e)%Q -> e' = e)
  /\ (cx * zoom e' + panX e' == sx)%Q
  /\ (cy * zoom e' + panY e' == sy)%Q
  /\ ((sx - panX e') / zoom e' == cx)%Q
  /\ ((sy - panY e') / zoom e' == cy)%Q.
Proof.
  apply (handleWheel_anchor
           (editor_of fill 3 1 mask_3x1 (white_pixels 3))
           {| deltaY := (-1)%Q; wheelX := 10%Q; wheelY := 10%Q;
              wrapperRect := {| left := 0%Q; top := 0%Q;
                                rwidth := 100%Q; rheight := 100%Q |} |}).
  cbn. intros Hz. discriminate Hz.
Defined.

(** C7 (as amended) at the brush stroke over the 3 × 1 surface. *)
Lemma strokes_ignore_boundary_mask_witness :
  let e := editor_of brush 3 1 mask_3x1 (white_pixels 3) in
  let evs := [PointerDown (mouse_at 0 (1 # 2) (1 # 2) 3 1);
              PointerMove (mouse_at 0 (5 # 2) (1 # 2) 3 1);
              PointerUp] in
  run round_stroke (set_lineArt e (Some (white_pixels 3))) evs
  = set_lineArt (run round_stroke e evs) (Some (white_pixels 3)).
Proof.
  apply (strokes_ignore_boundary_mask round_stroke
           (editor_of brush 3 1 mask_3x1 (white_pixels 3))
           (Some (white_pixels 3))).
  left. reflexivity.
Defined.

(** C10 at a middle-button drag in fill mode. *)
Lemma middle_button_pans_witness :
  let e := editor_of fill 3 1 mask_3x1 (white_pixels 3) in
  let down := mouse_at 1 (1 # 2) (1 # 2) 3 1 in
  let moves := [mouse_at 1 (5 # 2) (1 # 2) 3 1] in
  let e1 := handleStart e down in
  let e2 := run round_stroke e1 (PointerMove <$> moves) in
  let e3 := handleEnd e2 in
  e1 = set_startPan (set_drag e (isDrawing e) true)
         (clientX down - panX e)%Q (clientY down - panY e)%Q
  /\ isPanning e1 = true /\ isPanning e2 = true
  /\ ctx e2 = ctx e /\ effects e2 = effects e /\ zoom e2 = zoom e
  /\ mode e2 = mode e
  /\ match last moves with
     | Some m => (panX e2 == panX e + (clientX m - clientX down))%Q
                 /\ (panY e2 == panY e + (clientY m - clientY down))%Q
     | None => panX e2 = panX e /\ panY e2 = panY e
     end
  /\ isPanning e3 = false
  /\ surface (ctx e3) = surface (ctx e)
  /\ effects e3 = effects e ++ (if onUpdate e then [OnUpdate] else []).
Proof.
  apply (middle_button_pans round_stroke
           (editor_of fill 3 1 mask_3x1 (white_pixels 3))
           (mouse_at 1 (1 # 2) (1 # 2) 3 1)
           [mouse_at 1 (5 # 2) (1 # 2) 3 1]).
  - reflexivity.
  - intros Ht. discriminate Ht.
Defined.

(** [floodFill_paints_fill_set] at the 3 × 1 surface, seed in the left
    pixel. *)
Lemma floodFill_paints_fill_set_witness :
  let e := editor_of fill 3 1 mask_3x1 (white_pixels 3) in
  let pixels := fillSet e (surface (ctx e)) (round 0) (round 0) in
  let out := surface (ctx (floodFill e 0 0 palette_red false)) in
  (0 ∈ pixels ->
     rd out 0 = Some (red palette_red) /\ rd out (0 + 1) = Some (green palette_red)
     /\ rd out (0 + 2) = Some (blue palette_red) /\ rd out (0 + 3) = Some 255)
  /\ (forall j, (forall q, q ∈ pixels -> ~ (q <= j <= q + 3)) ->
        rd out j = rd (surface (ctx e)) j).
Proof.
  apply (floodFill_paints_fill_set
           (editor_of fill 3 1 mask_3x1 (white_pixels 3)) 0 0 palette_red false 0).
  - unfold valid_color. cbn. lia.
  - reflexivity.
  - reflexivity.
  - reflexivity.
Defined.

(** [fitToScreen_fits] at a 100 × 100 artwork in a 45 × 45 container. *)
Lemma fitToScreen_fits_witness :
  let e := editor_of fill 100 100 (white_pixels (Z.to_nat 10000))
             (white_pixels (Z.to_nat 10000)) in
  let wrapper := {| left := 0%Q; top := 0%Q; rwidth := 45%Q; rheight := 45%Q |} in
  let z := zoom (fitToScreen e wrapper) in
  (z * inject_Z (lineArtWidth e) <= rwidth wrapper - 40)%Q
  /\ (z * inject_Z (lineArtHeight e) <= rheight wrapper - 40)%Q
  /\ (z <= 9 # 10)%Q.
Proof.
  apply (fitToScreen_fits
           (editor_of fill 100 100 (white_pixels (Z.to_nat 10000))
              (white_pixels (Z.to_nat 10000)))
           {| left := 0%Q; top := 0%Q; rwidth := 45%Q; rheight := 45%Q |}).
  - reflexivity.
  - reflexivity.
Defined.

(** [handleEnd_always_notifies] at the idle 3 × 1 editor in pan mode. *)
Lemma handleEnd_always_notifies_witness :
  let e := editor_of pan 3 1 mask_3x1 (white_pixels 3) in
  effects (handleEnd e) = effects e ++ [OnUpdate]
  /\ surface (ctx (handleEnd e)) = surface (ctx e)
  /\ isDrawing (handleEnd e) = false /\ isPanning (handleEnd e) = false.
Proof.
  apply (handleEnd_always_notifies (editor_of pan 3 1 mask_3x1 (white_pixels 3))).
  reflexivity.
Defined.


(** Radius 1 at the same image, pixel (1, 0), above the black centre. *)
Lemma dilate_radius_1_neighbourhood_witness :
  let data := white_pixels 4 ++ [0; 0; 0; 255] ++ white_pixels 4 in
  let black (x y : Z) := is_black data ((y * 3 + x) * 4) = true in
  is_black (dilate true 3 3 1 data) ((0 * 3 + 1) * 4) = true
  <-> black 1 0
      \/ (1 + 1 < 3 /\ black (1 + 1) 0) \/ (0 <= 1 - 1 /\ black (1 - 1) 0)
      \/ (0 + 1 < 3 /\ black 1 (0 + 1)) \/ (0 <= 0 - 1 /\ black 1 (0 - 1)).
Proof.
  apply (dilate_radius_1_neighbourhood true 3 3
           (white_pixels 4 ++ [0; 0; 0; 255] ++ white_pixels 4) 1 0);
    [reflexivity | lia | lia].
Defined.

(** The grey level of an orange pixel. *)
Lemma toGrayscale_pixel_witness :
  let out := toGrayscale [255; 128; 0; 200] in
  let v := to_uint8_clamp (luminance 255 128 0) in
  rd out (4 * 0) = Some v /\ rd out (4 * 0 + 1) = Some v
  /\ rd out (4 * 0 + 2) = Some v /\ rd out (4 * 0 + 3) = Some 200
  /\ 0 <= v <= 255
  /\ (255 = 128 -> 128 = 0 -> 0 <= 255 <= 255 -> v = 255).
Proof.
  apply (toGrayscale_pixel [255; 128; 0; 200] 0 255 128 0 200);
    [lia | reflexivity | reflexivity | reflexivity | reflexivity].
Defined.

Lemma toGrayscale_idempotent_witness :
  toGrayscale (toGrayscale [255; 128; 0; 200; 1; 2; 3; 4])
  = toGrayscale [255; 128; 0; 200; 1; 2; 3; 4].
Proof.
  apply (toGrayscale_idempotent [255; 128; 0; 200; 1; 2; 3; 4] 2).
  reflexivity.
Defined.

(** The threshold 200 at a pixel whose red channel is 150. *)
Lemma applyThreshold_pixel_witness :
  let out := applyThreshold 200%float [150; 10; 250; 7] in
  let v := if PrimFloat.ltb (to_number (Some 150)) 200%float then 0 else 255 in
  rd out (4 * 0) = Some v /\ rd out (4 * 0 + 1) = Some v
  /\ rd out (4 * 0 + 2) = Some v /\ rd out (4 * 0 + 3) = Some 7
  /\ length out = length [150; 10; 250; 7].
Proof.
  apply (applyThreshold_pixel 200%float [150; 10; 250; 7] 0 150 10 250 7);
    [lia | reflexivity | reflexivity | reflexivity | reflexivity].
Defined.

Lemma applyThreshold_idempotent_witness :
  applyThreshold 200%float (applyThreshold 200%float [150; 10; 250; 7])
  = applyThreshold 200%float [150; 10; 250; 7].
Proof.
  apply (applyThreshold_idempotent 200%float [150; 10; 250; 7] 1);
    reflexivity.
Defined.

(** The edge detection at the centre of the 3 × 3 image with a black
    centre. *)
Lemma applySobelEdgeDetection_spec_witness :
  let data := white_pixels 4 ++ [0; 0; 0; 255] ++ white_pixels 4 in
  let out := applySobelEdgeDetection 3 3 data in
  let idx := (1 * 3 + 1) * 4 in
  let inside := 1 <= 1 <= 3 - 2 /\ 1 <= 1 <= 3 - 2 in
  (exists e, (e = 0 \/ e = 255)
     /\ rd out idx = Some e /\ rd out (idx + 1) = Some e
     /\ rd out (idx + 2) = Some e /\ rd out (idx + 3) = Some 255
     /\ (e = 0 <-> inside /\ sobel_edge data 3 1 1 = 0))
  /\ (forall v, inside -> 0 <= v <= 255 ->
        (forall kx ky, -1 <= kx <= 1 -> -1 <= ky <= 1 ->
           rd data (((1 + ky) * 3 + (1 + kx)) * 4 + 0) = Some v) ->
        rd out idx = Some 255)
  /\ length out = length data.
Proof.
  apply (applySobelEdgeDetection_spec 3 3
           (white_pixels 4 ++ [0; 0; 0; 255] ++ white_pixels 4) 1 1);
    [reflexivity | lia | lia].
Defined.

(** The default pipeline at the same image, centre pixel. *)
Lemma processLineArt_binary_witness :
  let pixels := white_pixels 4 ++ [0; 0; 0; 255] ++ white_pixels 4 in
  let out := processLineArt 3 3 pixels default_options in
  length out = length pixels
  /\ ((rd out (4 * 4) = Some 0 /\ rd out (4 * 4 + 1) = Some 0
       /\ rd out (4 * 4 + 2) = Some 0)
      \/ (rd out (4 * 4) = Some 255 /\ rd out (4 * 4 + 1) = Some 255
          /\ rd out (4 * 4 + 2) = Some 255)).
Proof.
  apply (processLineArt_binary 3 3
           (white_pixels 4 ++ [0; 0; 0; 255] ++ white_pixels 4)
           default_options 4);
    [reflexivity | lia].
Defined.

Lemma createHighQualityLineArt_pure_binary_witness :
  let pixels := white_pixels 4 ++ [90; 80; 70; 13] ++ white_pixels 4 in
  let out := createHighQualityLineArt 3 3 pixels 200%float 2 in
  (exists v, (v = 0 \/ v = 255)
     /\ rd out (4 * 4) = Some v /\ rd out (4 * 4 + 1) = Some v
     /\ rd out (4 * 4 + 2) = Some v /\ rd out (4 * 4 + 3) = Some 255
     /\ (PrimFloat.ltb (brightness pixels (4 * 4)) 200%float = true -> v = 0))
  /\ length out = length pixels.
Proof.
  apply (createHighQualityLineArt_pure_binary 3 3
           (white_pixels 4 ++ [90; 80; 70; 13] ++ white_pixels 4)
           200%float 2 4);
    [lia | cbn; lia].
Defined.

(** Switching to a second track after a pause. *)
Lemma switchTrack_always_plays_witness :
  let m := AudioManager.pause
             (AudioManager.addTrack "forest" "forest.mp3"
                (AudioManager.init "theme.mp3" AudioManager.initial)) in
  let m' := AudioManager.switchTrack "forest" true m in
  AudioManager.audio m'
  = Some {| Audio.src := Audio.Url "forest.mp3"; Audio.loop := true;
            Audio.volume := AudioManager.volume m;
            Audio.muted := AudioManager.isMuted m;
            Audio.paused := negb true; Audio.currentTime := 0 |}
  /\ AudioManager.currentTrack m' = Some "forest"%string
  /\ AudioManager.volume m' = AudioManager.volume m
  /\ AudioManager.tracks m' = AudioManager.tracks m
  /\ (forall a, AudioManager.audio m = Some a ->
        AudioManager.detached m'
        = Audio.set_currentTime 0 (Audio.pause a) :: AudioManager.detached m).
Proof.
  apply (switchTrack_always_plays "forest" "forest.mp3" true
           (AudioManager.pause
              (AudioManager.addTrack "forest" "forest.mp3"
                 (AudioManager.init "theme.mp3" AudioManager.initial))));
    [discriminate | reflexivity | discriminate].
Defined.

(** Music off, then [toggle], [play], a volume step and [mute]. *)
Lemma none_stays_silent_witness :
  let m := AudioManager.play true
             (AudioManager.init "theme.mp3" AudioManager.initial) in
  let cs := [AudioManager.Toggle true; AudioManager.Play true;
             AudioManager.VolumeUp; AudioManager.Mute] in
  let m' := AudioManager.calls (AudioManager.switchTrack "none" true m) cs in
  AudioManager.currentTrack m' = Some "none"%string /\ AudioManager.silent m'.
Proof.
  apply (none_stays_silent true
           (AudioManager.play true
              (AudioManager.init "theme.mp3" AudioManager.initial))
           [AudioManager.Toggle true; AudioManager.Play true;
            AudioManager.VolumeUp; AudioManager.Mute]).
  repeat constructor.
Defined.

(** A fill and its erasure at the left pixel of the 3 × 1 surface. *)
Lemma fill_then_unfill_blank_witness :
  let e := editor_of fill 3 1 mask_3x1 (white_pixels 3) in
  surface (ctx (floodFill (floodFill e 0 0 palette_red false) 0 0 white true))
  = surface (ctx e).
Proof.
  apply (fill_then_unfill_blank
           (editor_of fill 3 1 mask_3x1 (white_pixels 3)) 0 0 palette_red).
  - unfold valid_color. cbn. lia.
  - reflexivity.
  - intros j Hj. cbn in Hj.
    assert (Hcases : j = 0 \/ j = 1 \/ j = 2 \/ j = 3 \/ j = 4 \/ j = 5 \/ j = 6
                     \/ j = 7 \/ j = 8 \/ j = 9 \/ j = 10 \/ j = 11) by lia.
    repeat (destruct Hcases as [-> | Hcases]; [reflexivity |]).
    subst j. reflexivity.
Defined.

(** A drag with the right button in brush mode, from the left to the right
    pixel of the 3 × 1 surface. *)
Lemma right_button_drag_strokes_witness :
  let e := editor_of brush 3 1 mask_3x1 (white_pixels 3) in
  let down := mouse_at 2 (1 # 2) (1 # 2) 3 1 in
  let mv := mouse_at 2 (5 # 2) (1 # 2) 3 1 in
  let e1 := handleStart e down in
  let e2 := handleMove round_stroke e1 mv in
  let rect := canvasRect mv in
  let p :=
    if Qeq_bool (rwidth rect) 0 || Qeq_bool (rheight rect) 0
    then path (ctx e)
    else add_point (path (ctx e))
           (((clientX mv - left rect)
             * (inject_Z (canvas_width e) / rwidth rect))%Q,
            ((clientY mv - top rect)
             * (inject_Z (canvas_height e) / rheight rect))%Q) in
  ctx e1 = ctx e /\ isDrawing e1 = true
  /\ path (ctx e2) = p
  /\ strokeStyle (ctx e2) = strokeStyle (ctx e)
  /\ lineWidth (ctx e2) = lineWidth (ctx e)
  /\ surface (ctx e2)
     = round_stroke (canvas_width e) (canvas_height e) p (strokeStyle (ctx e))
         (lineWidth (ctx e)) (surface (ctx e)).
Proof.
  apply (right_button_drag_strokes round_stroke
           (editor_of brush 3 1 mask_3x1 (white_pixels 3))
           (mouse_at 2 (1 # 2) (1 # 2) 3 1) (mouse_at 2 (5 # 2) (1 # 2) 3 1)).
  - left. reflexivity.
  - reflexivity.
  - reflexivity.
  - discriminate.
Defined.

(** The palette of a one-pixel image. *)
Lemma extractColors_sound_witness :
  let imageData := [230; 57; 70; 255] in
  let s := "#e04040"%string in
  exists k r g b a,
    0 <= k /\ 10 * k < 1
    /\ rd imageData (40 * k) = Some r /\ rd imageData (40 * k + 1) = Some g
    /\ rd imageData (40 * k + 2) = Some b /\ rd imageData (40 * k + 3) = Some a
    /\ 128 <= a
    /\ s = colour_string (quantize (Some r), quantize (Some g), quantize (Some b))
    /\ (String.length s = 7%nat <-> r < 240 /\ g < 240 /\ b < 240).
Proof.
  apply (extractColors_sound [230; 57; 70; 255] 1 8 "#e04040").
  - reflexivity.
  - repeat constructor; lia.
  - change ("#e04040"%string ∈ ["#e04040"%string]). apply list_elem_of_here.
Defined.

(** A reload of a session that was saved with the music paused. *)
Lemma restoreAudio_ignores_paused_witness :
  let saved := {| SavedAudio.track := Some "forest"%string;
                  SavedAudio.paused := true; SavedAudio.muted := false;
                  SavedAudio.volume := Some 0.8%Q |} in
  let m := AudioManager.switchTrack "none" true
             (AudioManager.addTrack "forest" "forest.mp3" AudioManager.initial) in
  let m' := restoreAudio saved true true m in
  let v := Qmax 0 (Qmin 1 (default 0.5%Q (SavedAudio.volume saved))) in
  AudioManager.currentTrack m' = Some "forest"%string
  /\ AudioManager.volume m' = v
  /\ exists a, AudioManager.audio m' = Some a
       /\ Audio.src a = Audio.Url "forest.mp3" /\ Audio.loop a = true
       /\ Audio.volume a = v /\ Audio.muted a = SavedAudio.muted saved
       /\ (true = true -> Audio.paused a = false)
       /\ (SavedAudio.paused saved = true -> Audio.paused a = negb true)
       /\ Audio.paused a
          = negb (true || negb (SavedAudio.paused saved) && true).
Proof.
  apply (restoreAudio_ignores_paused
           {| SavedAudio.track := Some "forest"%string;
              SavedAudio.paused := true; SavedAudio.muted := false;
              SavedAudio.volume := Some 0.8%Q |}
           "forest" "forest.mp3" true true
           (AudioManager.switchTrack "none" true
              (AudioManager.addTrack "forest" "forest.mp3" AudioManager.initial)));
    [reflexivity | discriminate | discriminate | reflexivity | discriminate].
Defined.

(** The sound of a fill at the left pixel of the 3 × 1 surface. *)
Lemma floodFill_sound_iff_change_witness :
  let e := editor_of fill 3 1 mask_3x1 (white_pixels 3) in
  let e' := floodFill e 0 0 palette_red false in
  e' = e
  \/ (effects e' = effects e ++ [if false then PlayUnfillSound else PlayFillSound]
      /\ surface (ctx e') <> surface (ctx e)
      /\ (forall j, rd (surface (ctx e')) j <> rd (surface (ctx e)) j ->
            exists pos, pos ∈ fillSet e (surface (ctx e)) (round 0) (round 0)
                        /\ pos <= j <= pos + 3)
      /\ exists c, 0 <= c <= 3
           /\ rd (surface (ctx e')) (pos_of e (round 0, round 0) + c)
              <> rd (surface (ctx e)) (pos_of e (round 0, round 0) + c)).
Proof.
  apply (floodFill_sound_iff_change
           (editor_of fill 3 1 mask_3x1 (white_pixels 3)) 0 0 palette_red false).
  - unfold valid_color. cbn. lia.
  - reflexivity.
Defined.
